(** * Red light / green light game server: the state machine of [server.js]

    A shallow embedding of the game engine of [src/server.js] (the
    [game] object, the timer callbacks and the socket handlers) together
    with the properties of its natural-language specification.

    Modelling conventions.
    - The [game.players] Map is an association list in insertion order:
      [Map.prototype.set] on a present key replaces the value in place,
      on an absent key appends; [forEach] and [values()] follow the list.
    - [progress] is a rational: every value the server computes is a
      multiple of 2.5 between 0 and 100, which IEEE doubles represent
      exactly, so no rounding occurs.
    - The Node timer table is explicit: [setTimeout]/[setInterval] allocate
      a handle and a pending callback, [clearTimeout]/[clearInterval]
      drop it.  Time itself is abstracted: any pending callback may fire
      next, so delays (including the random ones of [randomBetween]) are
      not recorded.  Every real execution is a run of the model.
    - [Date.now()] is an input of a timer event: the k-th call made by the
      running callback reads [now k].  On the runs considered the readings
      are positive (milliseconds since 1970).
    - Socket events carry the id of the socket; any socket may send any
      event at any time.  Names are strings of 8-bit code units.
    - Every [emit] is recorded in the list of messages a handler returns;
      room membership of the display and [console.log] are left out. *)

From Stdlib Require Import List String Ascii Bool Arith ZArith QArith Qminmax Lia.
Import ListNotations.

Local Open Scope string_scope.
Local Open Scope list_scope.
Local Open Scope Z_scope.

(** ** Data model *)

Inductive Phase := Lobby | Countdown | Playing | RoundEnd | GameOver.
Inductive Light := Red | Green.

Definition Phase_eqb (a b : Phase) : bool :=
  match a, b with
  | Lobby, Lobby | Countdown, Countdown | Playing, Playing
  | RoundEnd, RoundEnd | GameOver, GameOver => true
  | _, _ => false
  end.

Definition Light_eqb (a b : Light) : bool :=
  match a, b with
  | Red, Red | Green, Green => true
  | _, _ => false
  end.

(** The object built by [createPlayer]. *)
Record Player := mkPlayer {
  id : string;
  name : string;
  progress : Q;
  alive : bool;
  holding : bool;
  eliminated : bool;
  finishedAt : option Z
}.

Definition set_progress (v : Q) (p : Player) : Player :=
  mkPlayer (id p) (name p) v (alive p) (holding p) (eliminated p) (finishedAt p).
Definition set_alive (v : bool) (p : Player) : Player :=
  mkPlayer (id p) (name p) (progress p) v (holding p) (eliminated p) (finishedAt p).
Definition set_holding (v : bool) (p : Player) : Player :=
  mkPlayer (id p) (name p) (progress p) (alive p) v (eliminated p) (finishedAt p).
Definition set_eliminated (v : bool) (p : Player) : Player :=
  mkPlayer (id p) (name p) (progress p) (alive p) (holding p) v (finishedAt p).
Definition set_finishedAt (v : option Z) (p : Player) : Player :=
  mkPlayer (id p) (name p) (progress p) (alive p) (holding p) (eliminated p) v.

Definition createPlayer (sid nm : string) : Player :=
  mkPlayer sid (substring 0 15 nm) 0%Q true false false None.

(** JavaScript truthiness of [finishedAt]: [null] and [0] are falsy. *)
Definition truthy (t : option Z) : bool :=
  match t with
  | Some t => negb (t =? 0)
  | None => false
  end.

(** *** The player Map *)

Definition Registry := list (string * Player).

Fixpoint pget (k : string) (m : Registry) : option Player :=
  match m with
  | [] => None
  | (k', p) :: r => if String.eqb k k' then Some p else pget k r
  end.

Fixpoint pset (k : string) (v : Player) (m : Registry) : Registry :=
  match m with
  | [] => [(k, v)]
  | (k', p) :: r => if String.eqb k k' then (k', v) :: r else (k', p) :: pset k v r
  end.

Fixpoint pdelete (k : string) (m : Registry) : Registry :=
  match m with
  | [] => []
  | (k', p) :: r => if String.eqb k k' then r else (k', p) :: pdelete k r
  end.

Definition values (m : Registry) : list Player := map snd m.
Definition keys (m : Registry) : list string := map fst m.

(** [players.forEach (p => mutate p)]: the objects are updated in place,
    the keys and the order stay. *)
Definition forEach (f : Player -> Player) (m : Registry) : Registry :=
  map (fun kp => (fst kp, f (snd kp))) m.

(** *** Timers *)

Definition Handle := nat.

Inductive Callback :=
| CbProgress                 (* the 100 ms interval of startProgressTracking *)
| CbSwitchToRed              (* timeout armed by switchToGreen *)
| CbEliminateHolders         (* grace timeout armed by switchToRed *)
| CbSwitchToGreen            (* timeout armed by eliminateHolders *)
| CbCountdown (count : Z).   (* the 1 s interval of startGame, with its [count] *)

Definition Timers := list (Handle * Callback).

Fixpoint tget (h : Handle) (t : Timers) : option Callback :=
  match t with
  | [] => None
  | (h', cb) :: r => if Nat.eqb h h' then Some cb else tget h r
  end.

Definition tremove (h : Handle) (t : Timers) : Timers :=
  filter (fun e => negb (Nat.eqb h (fst e))) t.

Definition treplace (h : Handle) (cb : Callback) (t : Timers) : Timers :=
  map (fun e => if Nat.eqb h (fst e) then (fst e, cb) else e) t.

(** *** The [game] object and the process state *)

Record Game := mkGame {
  phase : Phase;
  light : Light;
  players : Registry;
  round : nat;
  lightTimer : option Handle;
  graceTimer : option Handle;
  countdownTimer : option Handle;
  eliminationPending : bool
}.

Definition gracePeriodMs : Z := 350.
Definition progressToWin : Q := 100.
Definition progressRate : Q := 5 # 2.

Definition set_phase v (g : Game) :=
  mkGame v (light g) (players g) (round g) (lightTimer g) (graceTimer g)
         (countdownTimer g) (eliminationPending g).
Definition set_light v (g : Game) :=
  mkGame (phase g) v (players g) (round g) (lightTimer g) (graceTimer g)
         (countdownTimer g) (eliminationPending g).
Definition set_players v (g : Game) :=
  mkGame (phase g) (light g) v (round g) (lightTimer g) (graceTimer g)
         (countdownTimer g) (eliminationPending g).
Definition set_round v (g : Game) :=
  mkGame (phase g) (light g) (players g) v (lightTimer g) (graceTimer g)
         (countdownTimer g) (eliminationPending g).
Definition set_lightTimer v (g : Game) :=
  mkGame (phase g) (light g) (players g) (round g) v (graceTimer g)
         (countdownTimer g) (eliminationPending g).
Definition set_graceTimer v (g : Game) :=
  mkGame (phase g) (light g) (players g) (round g) (lightTimer g) v
         (countdownTimer g) (eliminationPending g).
Definition set_countdownTimer v (g : Game) :=
  mkGame (phase g) (light g) (players g) (round g) (lightTimer g) (graceTimer g)
         v (eliminationPending g).
Definition set_eliminationPending v (g : Game) :=
  mkGame (phase g) (light g) (players g) (round g) (lightTimer g) (graceTimer g)
         (countdownTimer g) v.

(** The whole process: the [game] object, the module variable
    [progressInterval] and the pending timers of the event loop. *)
Record World := mkWorld {
  game : Game;
  progressInterval : option Handle;
  timers : Timers;
  nextHandle : Handle
}.

Definition initGame : Game :=
  mkGame Lobby Red [] 0%nat None None None false.

Definition initWorld : World := mkWorld initGame None [] 1%nat.

(** *** Messages sent to the clients *)

(** Where an emit goes, as the code writes it: [TV] is [io.to("tv")],
    and [Sock sid] is [io.to(sid)], or [socket.emit] on the socket whose
    id is [sid]. *)
Inductive Room := TV | Sock (sid : string).

Record PlayerView := mkView {
  v_id : string;
  v_name : string;
  v_progress : Q;
  v_alive : bool;
  v_holding : bool;
  v_finishedAt : option Z
}.

Inductive Message :=
| MsgGameState (ph : Phase) (l : Light) (ps : list PlayerView) (rnd : nat)
| MsgPlayerState (ph : Phase) (l : Light) (pr : Q) (al ho : bool)
| MsgEliminations (batch : list (string * string))
| MsgEliminated
| MsgGameOver (winner : option (string * string)) (ps : list PlayerView)
| MsgCountdown (n : Z)
| MsgJoinError (text : string)
| MsgJoined (pid nm : string)
| MsgPlayerJoined (pid nm : string)
| MsgKicked.

Definition Emit : Type := Room * Message.

(** ** The handler monad: process state plus emitted messages *)

Definition M (A : Type) : Type := World -> A * World * list Emit.

Definition ret {A} (a : A) : M A := fun w => (a, w, []).

Definition bind {A B} (m : M A) (k : A -> M B) : M B :=
  fun w =>
    let '(a, w1, o1) := m w in
    let '(b, w2, o2) := k a w1 in
    (b, w2, o1 ++ o2).

Declare Scope handler_scope.
Delimit Scope handler_scope with handler.
Notation "x <- m ;; k" := (bind m (fun x => k))
  (at level 61, m at next level, right associativity) : handler_scope.
Notation "m ;; k" := (bind m (fun _ => k))
  (at level 61, right associativity) : handler_scope.
Local Open Scope handler_scope.

Definition gets {A} (f : Game -> A) : M A := fun w => (f (game w), w, []).

Definition update (f : Game -> Game) : M unit :=
  fun w => (tt, mkWorld (f (game w)) (progressInterval w) (timers w) (nextHandle w), []).

Definition getProgressInterval : M (option Handle) :=
  fun w => (progressInterval w, w, []).

Definition setProgressInterval (v : option Handle) : M unit :=
  fun w => (tt, mkWorld (game w) v (timers w) (nextHandle w), []).

Definition emit (r : Room) (m : Message) : M unit := fun w => (tt, w, [(r, m)]).

Definition emitAll (l : list Emit) : M unit := fun w => (tt, w, l).

Definition when (b : bool) (m : M unit) : M unit := if b then m else ret tt.

(** [setTimeout] and [setInterval]: a fresh handle, the callback pending. *)
Definition setTimer (cb : Callback) : M Handle :=
  fun w =>
    let h := nextHandle w in
    (h, mkWorld (game w) (progressInterval w) (timers w ++ [(h, cb)]) (S h), []).

(** [clearTimeout] and [clearInterval]; [null] and stale handles are ignored. *)
Definition clearTimer (oh : option Handle) : M unit :=
  fun w =>
    match oh with
    | None => (tt, w, [])
    | Some h => (tt, mkWorld (game w) (progressInterval w) (tremove h (timers w))
                             (nextHandle w), [])
    end.

Definition updateTimers (f : Timers -> Timers) : M unit :=
  fun w => (tt, mkWorld (game w) (progressInterval w) (f (timers w)) (nextHandle w), []).

Definition execM {A} (m : M A) (w : World) : World := snd (fst (m w)).
Definition outM {A} (m : M A) (w : World) : list Emit := snd (m w).

(** ** Strings: [String.prototype.trim] on 8-bit code units *)

Definition isWhite (c : ascii) : bool :=
  let n := nat_of_ascii c in
  ((9 <=? n) && (n <=? 13) || (n =? 32) || (n =? 160))%nat.

Fixpoint trimStart (s : string) : string :=
  match s with
  | EmptyString => EmptyString
  | String c r => if isWhite c then trimStart r else s
  end.

Fixpoint trimEnd (s : string) : string :=
  match s with
  | EmptyString => EmptyString
  | String c r =>
      match trimEnd r with
      | EmptyString => if isWhite c then EmptyString else String c EmptyString
      | r' => String c r'
      end
  end.

Definition trim (s : string) : string := trimEnd (trimStart s).

(** ** Projections and broadcasts *)

Definition view (p : Player) : PlayerView :=
  mkView (id p) (name p) (progress p) (alive p) (holding p) (finishedAt p).

Definition getPlayersArray (g : Game) : list PlayerView :=
  map view (values (players g)).

Definition getAlivePlayers (g : Game) : list Player :=
  filter alive (values (players g)).

Definition gameStateMsg (g : Game) : Emit :=
  (TV, MsgGameState (phase g) (light g) (getPlayersArray g) (round g)).

Definition phoneMsgs (g : Game) : list Emit :=
  map (fun p => (Sock (id p),
                 MsgPlayerState (phase g) (light g) (progress p) (alive p) (holding p)))
      (values (players g)).

Definition broadcastGameState : M unit :=
  g <- gets (fun g => g) ;;
  emitAll [gameStateMsg g].

Definition broadcastToPhones : M unit :=
  g <- gets (fun g => g) ;;
  emitAll (phoneMsgs g).

Definition broadcastAll : M unit :=
  broadcastGameState ;; broadcastToPhones.

(** ** Progress accumulation *)

Definition stopProgressTracking : M unit :=
  pi <- getProgressInterval ;;
  match pi with
  | Some h => clearTimer (Some h) ;; setProgressInterval None
  | None => ret tt
  end.

Definition startProgressTracking : M unit :=
  pi <- getProgressInterval ;;
  when (match pi with Some _ => true | None => false end) (clearTimer pi) ;;
  h <- setTimer CbProgress ;;
  setProgressInterval (Some h).

(** The body of the [forEach] of the progress callback.  [k] counts the
    calls of [Date.now()] made so far; the result carries the updated
    registry, the new count and [someoneFinished]. *)
Fixpoint tickPlayers (now : nat -> Z) (k : nat) (ps : Registry)
  : Registry * nat * bool :=
  match ps with
  | [] => ([], k, false)
  | (key, p) :: rest =>
      if alive p && holding p && negb (truthy (finishedAt p)) then
        let p1 := set_progress (Qmin progressToWin (progress p + progressRate)) p in
        if Qle_bool progressToWin (progress p1) then
          let '(rest', k', _) := tickPlayers now (S k) rest in
          ((key, set_finishedAt (Some (now k)) p1) :: rest', k', true)
        else
          let '(rest', k', f) := tickPlayers now k rest in
          ((key, p1) :: rest', k', f)
      else
        let '(rest', k', f) := tickPlayers now k rest in
        ((key, p) :: rest', k', f)
  end.

(** ** End of the match *)

Definition gameOverMsg (winner : option Player) (g : Game) : Emit :=
  (TV, MsgGameOver
         (match winner with
          | Some p => Some (id p, name p)
          | None => None
          end)
         (getPlayersArray g)).

Definition endGame (winner : option Player) : M unit :=
  update (set_phase GameOver) ;;
  lt <- gets lightTimer ;;
  clearTimer lt ;;
  gt <- gets graceTimer ;;
  clearTimer gt ;;
  stopProgressTracking ;;
  update (set_light Red) ;;
  g <- gets (fun g => g) ;;
  emitAll [gameOverMsg winner g] ;;
  broadcastToPhones.

(** [Array.prototype.sort] is stable; with the comparator
    [(a, b) => a.finishedAt - b.finishedAt] on numbers it is a stable sort
    by timestamp, modelled by insertion.  [finishedAt] is a number on every
    element the code sorts; [null] would convert to 0. *)
Definition stamp (p : Player) : Z :=
  match finishedAt p with
  | Some t => t
  | None => 0
  end.

Fixpoint insertBy (x : Player) (l : list Player) : list Player :=
  match l with
  | [] => [x]
  | y :: r => if stamp x - stamp y <=? 0 then x :: y :: r else y :: insertBy x r
  end.

Definition sortByFinish (l : list Player) : list Player :=
  fold_right insertBy [] l.

Definition checkForWinner : M unit :=
  ps <- gets players ;;
  let finishers := filter (fun p => truthy (finishedAt p)) (values ps) in
  match sortByFinish finishers with
  | first :: _ => endGame (Some first)
  | [] => ret tt
  end.

Definition progressTick (now : nat -> Z) : M unit :=
  ph <- gets phase ;;
  l <- gets light ;;
  if negb (Phase_eqb ph Playing) || negb (Light_eqb l Green) then ret tt
  else
    ps <- gets players ;;
    let '(ps', _, someoneFinished) := tickPlayers now 0%nat ps in
    update (set_players ps') ;;
    broadcastAll ;;
    when someoneFinished checkForWinner.

(** ** Light switching *)

Definition switchToGreen : M unit :=
  ph <- gets phase ;;
  if negb (Phase_eqb ph Playing) then ret tt
  else
    update (set_light Green) ;;
    update (set_eliminationPending false) ;;
    broadcastAll ;;
    h <- setTimer CbSwitchToRed ;;
    update (set_lightTimer (Some h)).

Definition switchToRed : M unit :=
  ph <- gets phase ;;
  if negb (Phase_eqb ph Playing) then ret tt
  else
    update (set_light Red) ;;
    update (set_eliminationPending true) ;;
    broadcastAll ;;
    h <- setTimer CbEliminateHolders ;;
    update (set_graceTimer (Some h)).

Definition strike (p : Player) : Player :=
  set_eliminated true (set_alive false p).

Definition sweepPlayer (p : Player) : Player :=
  if alive p && holding p then strike p else p.

Definition eliminateHolders : M unit :=
  ph <- gets phase ;;
  l <- gets light ;;
  if negb (Phase_eqb ph Playing) || negb (Light_eqb l Red) then ret tt
  else
    ps <- gets players ;;
    let batch := map (fun p => (id p, name p))
                     (filter (fun p => alive p && holding p) (values ps)) in
    update (set_players (forEach sweepPlayer ps)) ;;
    when (negb (Nat.eqb (List.length batch) 0))
         (emit TV (MsgEliminations batch) ;;
          emitAll (map (fun e => (Sock (fst e), MsgEliminated)) batch)) ;;
    broadcastAll ;;
    g <- gets (fun g => g) ;;
    match getAlivePlayers g with
    | [] => endGame None
    | [survivor] => endGame (Some survivor)
    | _ =>
        h <- setTimer CbSwitchToGreen ;;
        update (set_lightTimer (Some h))
    end.

(** ** Start and reset *)

Definition pristine (p : Player) : Player :=
  set_finishedAt None
    (set_eliminated false
       (set_holding false (set_alive true (set_progress 0%Q p)))).

Definition startGame : M unit :=
  ps <- gets players ;;
  if (List.length ps <? 1)%nat then ret tt
  else
    update (set_phase Countdown) ;;
    update (fun g => set_round (S (round g)) g) ;;
    update (set_light Red) ;;
    broadcastAll ;;
    emit TV (MsgCountdown 3) ;;
    emitAll (map (fun p => (Sock (id p), MsgCountdown 3)) (values ps)) ;;
    h <- setTimer (CbCountdown 3) ;;
    update (set_countdownTimer (Some h)).

(** One firing of the countdown interval [h]; [count] is the value the
    closure variable holds before the callback runs. *)
Definition countdownTick (h : Handle) (count : Z) : M unit :=
  let count := count - 1 in
  updateTimers (treplace h (CbCountdown count)) ;;
  if 0 <? count then
    ps <- gets players ;;
    emit TV (MsgCountdown count) ;;
    emitAll (map (fun p => (Sock (id p), MsgCountdown count)) (values ps))
  else
    ct <- gets countdownTimer ;;
    clearTimer ct ;;
    update (set_phase Playing) ;;
    startProgressTracking ;;
    switchToGreen.

Definition resetGame : M unit :=
  update (set_phase Lobby) ;;
  update (set_light Red) ;;
  update (set_round 0%nat) ;;
  lt <- gets lightTimer ;;
  clearTimer lt ;;
  gt <- gets graceTimer ;;
  clearTimer gt ;;
  ct <- gets countdownTimer ;;
  clearTimer ct ;;
  stopProgressTracking ;;
  ps <- gets players ;;
  update (set_players (forEach pristine ps)) ;;
  broadcastAll.

(** ** Socket handlers; [sid] is [socket.id] *)

Definition onJoinTV : M unit := broadcastGameState.

Definition onJoinGame (sid nm : string) : M unit :=
  ph <- gets phase ;;
  if negb (Phase_eqb ph Lobby) then
    emit (Sock sid) (MsgJoinError "Game already in progress. Wait for next round!")
  else if (String.length (trim nm) =? 0)%nat then
    emit (Sock sid) (MsgJoinError "Please enter a name!")
  else
    let player := createPlayer sid (trim nm) in
    update (fun g => set_players (pset sid player (players g)) g) ;;
    emit (Sock sid) (MsgJoined (id player) (name player)) ;;
    emit TV (MsgPlayerJoined (id player) (name player)) ;;
    broadcastGameState.

Definition onHoldStart (sid : string) : M unit :=
  g <- gets (fun g => g) ;;
  match pget sid (players g) with
  | None => ret tt
  | Some player =>
      if negb (alive player) || negb (Phase_eqb (phase g) Playing) then ret tt
      else
        let player := set_holding true player in
        update (fun g => set_players (pset sid player (players g)) g) ;;
        if Light_eqb (light g) Red && negb (eliminationPending g) then
          let player := strike player in
          update (fun g => set_players (pset sid player (players g)) g) ;;
          emit TV (MsgEliminations [(id player, name player)]) ;;
          emit (Sock sid) MsgEliminated ;;
          broadcastAll
        else ret tt
  end.

Definition onHoldEnd (sid : string) : M unit :=
  ps <- gets players ;;
  match pget sid ps with
  | None => ret tt
  | Some player =>
      update (fun g => set_players (pset sid (set_holding false player) (players g)) g)
  end.

Definition onStartGame : M unit :=
  ph <- gets phase ;;
  if Phase_eqb ph Lobby || Phase_eqb ph GameOver then
    ps <- gets players ;;
    update (set_players (forEach pristine ps)) ;;
    startGame
  else ret tt.

Definition onResetGame : M unit := resetGame.

Definition onKickPlayer (playerId : string) : M unit :=
  update (fun g => set_players (pdelete playerId (players g)) g) ;;
  emit (Sock playerId) MsgKicked ;;
  broadcastGameState.

Definition onDisconnect (sid : string) : M unit :=
  g <- gets (fun g => g) ;;
  match pget sid (players g) with
  | None => ret tt
  | Some player =>
      (if Phase_eqb (phase g) Lobby then
         update (fun g => set_players (pdelete sid (players g)) g)
       else
         update (fun g => set_players
                            (pset sid (set_holding false (set_alive false player))
                                  (players g)) g)) ;;
      broadcastAll
  end.

(** ** The event loop *)

(** A timer fires: a timeout leaves the table before its callback runs,
    an interval stays until it is cleared.  A handle that is not pending
    fires nothing. *)
Definition fire (h : Handle) (now : nat -> Z) : M unit :=
  ts <- (fun w => (timers w, w, [])) ;;
  match tget h ts with
  | None => ret tt
  | Some CbProgress => progressTick now
  | Some CbSwitchToRed => updateTimers (tremove h) ;; switchToRed
  | Some CbEliminateHolders => updateTimers (tremove h) ;; eliminateHolders
  | Some CbSwitchToGreen => updateTimers (tremove h) ;; switchToGreen
  | Some (CbCountdown count) => countdownTick h count
  end.

Inductive Event :=
| JoinTV (sid : string)
| JoinGame (sid nm : string)
| HoldStart (sid : string)
| HoldEnd (sid : string)
| StartGame (sid : string)
| ResetGame (sid : string)
| KickPlayer (sid playerId : string)
| Disconnect (sid : string)
| TimerFires (h : Handle) (now : nat -> Z).

Definition handle (e : Event) : M unit :=
  match e with
  | JoinTV _ => onJoinTV
  | JoinGame sid nm => onJoinGame sid nm
  | HoldStart sid => onHoldStart sid
  | HoldEnd sid => onHoldEnd sid
  | StartGame _ => onStartGame
  | ResetGame _ => onResetGame
  | KickPlayer _ playerId => onKickPlayer playerId
  | Disconnect sid => onDisconnect sid
  | TimerFires h now => fire h now
  end.

Definition step (w : World) (e : Event) : World := execM (handle e) w.
Definition output (w : World) (e : Event) : list Emit := outM (handle e) w.

Definition run (w : World) (tr : list Event) : World := fold_left step tr w.

(** The clock an event reads is the system clock: positive milliseconds
    since the epoch. *)
Definition admissible (e : Event) : Prop :=
  match e with
  | TimerFires _ now => forall k, 0 < now k
  | _ => True
  end.

Inductive reachable : World -> Prop :=
| reach_init : reachable initWorld
| reach_step w e : reachable w -> admissible e -> reachable (step w e).

(** ** Closed forms of what the handlers compute

    Abbreviations for the right-hand sides of the handler equations proved
    below ([endGame_eq], [switchToGreen_eq], ...). *)

(** [clearTimeout] of a handle that may be [null]. *)
Definition tremoveO (oh : option Handle) (ts : Timers) : Timers :=
  match oh with
  | Some h => tremove h ts
  | None => ts
  end.

(** The messages of [broadcastAll] in game state [g]. *)
Definition allMsgs (g : Game) : list Emit := gameStateMsg g :: phoneMsgs g.

(** The [game] object after [endGame]. *)
Definition endedGame (g : Game) : Game := set_light Red (set_phase GameOver g).

(** The [game] object after the [forEach] of a progress tick, and the
    flag the loop leaves in [someoneFinished]. *)
Definition ticked (now : nat -> Z) (g : Game) : Game :=
  set_players (fst (fst (tickPlayers now 0%nat (players g)))) g.

Definition someoneFinished (now : nat -> Z) (g : Game) : bool :=
  snd (tickPlayers now 0%nat (players g)).

(** The [game] object after [switchToGreen] and after [switchToRed], the
    new timer being [nh]. *)
Definition greened (nh : Handle) (g : Game) : Game :=
  set_lightTimer (Some nh) (set_eliminationPending false (set_light Green g)).

Definition reddened (nh : Handle) (g : Game) : Game :=
  set_graceTimer (Some nh) (set_eliminationPending true (set_light Red g)).

(** The [game] object after the [forEach] of [eliminateHolders], the batch
    it collects and the messages that announce it. *)
Definition swept (g : Game) : Game := set_players (forEach sweepPlayer (players g)) g.

Definition batchOf (g : Game) : list (string * string) :=
  map (fun p => (id p, name p))
      (filter (fun p => alive p && holding p) (values (players g))).

Definition batchMsgs (g : Game) : list Emit :=
  if negb (Nat.eqb (List.length (batchOf g)) 0)
  then (TV, MsgEliminations (batchOf g))
         :: map (fun e => (Sock (fst e), MsgEliminated)) (batchOf g)
  else [].

(** The [game] object after [startGame], and one countdown announcement. *)
Definition counting (nh : Handle) (g : Game) : Game :=
  set_countdownTimer (Some nh)
    (set_light Red (set_round (S (round g)) (set_phase Countdown g))).

Definition countdownMsgs (n : Z) (g : Game) : list Emit :=
  (TV, MsgCountdown n)
    :: map (fun p => (Sock (id p), MsgCountdown n)) (values (players g)).

(** The [game] object after [resetGame]. *)
Definition lobbied (g : Game) : Game :=
  set_players (forEach pristine (players g))
    (set_round 0%nat (set_light Red (set_phase Lobby g))).

(** What the disconnect handler does to a player during a match. *)
Definition forfeit (p : Player) : Player := set_holding false (set_alive false p).

(** ** The progress tick on one player *)

(** The guard of the tick, its assignment and its finish test. *)
Definition eligible (p : Player) : bool :=
  alive p && holding p && negb (truthy (finishedAt p)).

Definition advanced (p : Player) : Player :=
  set_progress (Qmin progressToWin (progress p + progressRate)) p.

Definition crosses (p : Player) : bool :=
  Qle_bool progressToWin (progress (advanced p)).

(** What one tick does to one entry of the Map. *)
Definition tickRel (now : nat -> Z) (kp kp' : string * Player) : Prop :=
  fst kp' = fst kp /\
  if eligible (snd kp) then
    if crosses (snd kp)
    then exists j, snd kp' = set_finishedAt (Some (now j)) (advanced (snd kp))
    else snd kp' = advanced (snd kp)
  else snd kp' = snd kp.

(** ** The invariant of the reachable states *)

(** A property of every entry of the Map. *)
Definition every (P : string -> Player -> Prop) (m : Registry) : Prop :=
  forall k p, In (k, p) m -> P k p.

(** The per-match fields as [createPlayer] and the resets leave them. *)
Definition isPristine (p : Player) : Prop :=
  progress p = 0%Q /\ alive p = true /\ holding p = false /\
  eliminated p = false /\ finishedAt p = None.

(** What holds of the entry [k -> p] of the Map while the phase is [ph]. *)
Definition okPlayer (ph : Phase) (k : string) (p : Player) : Prop :=
  id p = k /\
  (0 <= progress p <= progressToWin)%Q /\
  (forall t, finishedAt p = Some t -> 0 < t) /\
  (ph = Lobby -> isPristine p) /\
  (ph <> GameOver -> finishedAt p = None).

(** The invariant: every entry is well formed for the current phase, keys
    are unique, the light is red during play only with the grace flag up,
    and a countdown interval is pending only in phase countdown, under the
    handle stored in [countdownTimer]. *)
Record Inv (w : World) : Prop := mkInv {
  inv_players : every (okPlayer (phase (game w))) (players (game w));
  inv_nodup : NoDup (keys (players (game w)));
  inv_pending :
    phase (game w) = Playing -> light (game w) = Red ->
    eliminationPending (game w) = true;
  inv_countdown :
    forall h c, In (h, CbCountdown c) (timers w) ->
                phase (game w) = Countdown /\ countdownTimer (game w) = Some h
}.

(** ** One event, seen from one entry of the Map *)

(** How the entry [sid -> p] can have become [sid -> p'] in one event. *)
Inductive playerStep (w : World) (sid : string) (p : Player)
  : Event -> Player -> Prop :=
| ps_same e : playerStep w sid p e p
| ps_hold :
    playerStep w sid p (HoldStart sid) (set_holding true p)
| ps_strike :
    phase (game w) = Playing -> light (game w) = Red ->
    eliminationPending (game w) = false -> alive p = true ->
    playerStep w sid p (HoldStart sid) (strike (set_holding true p))
| ps_release :
    playerStep w sid p (HoldEnd sid) (set_holding false p)
| ps_join nm :
    phase (game w) = Lobby ->
    playerStep w sid p (JoinGame sid nm) (createPlayer sid (trim nm))
| ps_start s :
    playerStep w sid p (StartGame s) (pristine p)
| ps_reset s :
    playerStep w sid p (ResetGame s) (pristine p)
| ps_forfeit :
    phase (game w) <> Lobby ->
    playerStep w sid p (Disconnect sid) (forfeit p)
| ps_sweep h now :
    tget h (timers w) = Some CbEliminateHolders ->
    phase (game w) = Playing -> light (game w) = Red ->
    playerStep w sid p (TimerFires h now) (sweepPlayer p)
| ps_tick h now p' :
    tget h (timers w) = Some CbProgress ->
    phase (game w) = Playing -> light (game w) = Green ->
    tickRel now (sid, p) (sid, p') ->
    playerStep w sid p (TimerFires h now) p'.

(** ** Vocabulary of the statements *)

(** The events of a match in which nobody joins, leaves, starts or resets:
    begin-hold, end-hold and the timers. *)
Definition holdOrTimer (e : Event) : Prop :=
  match e with
  | HoldStart _ | HoldEnd _ => True
  | TimerFires _ now => forall k, 0 < now k
  | _ => False
  end.

(** A message that announces no elimination: neither a batch to the
    display nor [eliminated] to a player. *)
Definition noElimination (x : Emit) : Prop :=
  (forall batch, x <> (TV, MsgEliminations batch)) /\
  (forall s, x <> (Sock s, MsgEliminated)).

(** Some [gameOver] message is sent to the display. *)
Definition announcesGameOver (o : list Emit) : Prop :=
  exists winner roster, In (TV, MsgGameOver winner roster) o.

(** ** Concrete runs *)

(** A system clock: milliseconds since the epoch, one more per reading. *)
Definition clock : nat -> Z := fun k => 1700000000000 + Z.of_nat k.

(** A clock that does not advance within the tick. *)
Definition frozen : nat -> Z := fun _ => 1700000000000.

(** Three players join, the match starts and the countdown runs out:
    phase playing, light green, progress interval 2, red timer 3. *)
Definition traceStarted : list Event :=
  [JoinGame "a" "Ann"; JoinGame "b" "Bob"; JoinGame "c" "Cyd"; StartGame "tv";
   TimerFires 1%nat clock; TimerFires 1%nat clock; TimerFires 1%nat clock].

(** The light turns red: grace timer 4 is pending. *)
Definition traceRed : list Event := traceStarted ++ [TimerFires 3%nat clock].

(** The grace timer has fired with nobody holding: three players alive,
    light still red, green timer 5 pending. *)
Definition traceLateRed : list Event := traceRed ++ [TimerFires 4%nat clock].

(** Player a grabs during green and is still holding when the light turns red. *)
Definition traceHeld : list Event :=
  traceStarted ++ [HoldStart "a"; TimerFires 3%nat clock].

(** Player a was swept while holding and then released: not alive,
    holding flag down. *)
Definition traceSwept : list Event :=
  traceHeld ++ [TimerFires 4%nat clock; HoldEnd "a"].

(** Player a grabs while the light is green. *)
Definition traceHolding : list Event := traceStarted ++ [HoldStart "a"].

(** Three ticks, with a release and a grab in between. *)
Definition traceTicks : list Event :=
  [TimerFires 2%nat clock; HoldEnd "a"; TimerFires 2%nat clock; HoldStart "a";
   TimerFires 2%nat clock].

(** Players a and b hold from the start; after 39 ticks both stand at 97.5. *)
Definition traceAlmost : list Event :=
  traceStarted ++ [HoldStart "a"; HoldStart "b"]
    ++ repeat (TimerFires 2%nat clock) 39.

(** Player b one tick before the line. *)
Definition almostB : Player :=
  mkPlayer "b" "Bob" (53601191854080 # 549755813888) true true false None.

(** * Further notions, for the properties beyond the specification's claims *)

(** ** The timer discipline *)

(** The one timer of the light cycle that is pending during play: the
    callback [cb] under handle [hl] matches the light, and the field that
    remembers it is the one the callback's scheduler wrote. *)
Definition lightChain (g : Game) (hl : Handle) (cb : Callback) : Prop :=
  (cb = CbSwitchToRed /\ light g = Green /\ lightTimer g = Some hl) \/
  (cb = CbEliminateHolders /\ light g = Red /\ graceTimer g = Some hl) \/
  (cb = CbSwitchToGreen /\ light g = Red /\ lightTimer g = Some hl).

(** The whole timer table, phase by phase. *)
Definition timersOK (w : World) : Prop :=
  match phase (game w) with
  | Countdown =>
      progressInterval w = None /\
      exists h c,
        timers w = [(h, CbCountdown c)] /\
        countdownTimer (game w) = Some h /\
        (h < nextHandle w)%nat /\ 1 <= c <= 3
  | Playing =>
      exists hp hl cb,
        timers w = [(hp, CbProgress); (hl, cb)] /\
        progressInterval w = Some hp /\
        (hp < hl)%nat /\ (hl < nextHandle w)%nat /\
        lightChain (game w) hl cb
  | _ => timers w = [] /\ progressInterval w = None
  end.

(** ** Events inside one match *)

(** The events that neither start, reset nor join: what can happen to the
    players of a match while it runs. *)
Definition inMatch (e : Event) : Prop :=
  match e with
  | JoinGame _ _ | StartGame _ | ResetGame _ => False
  | TimerFires _ now => forall k, 0 < now k
  | _ => True
  end.

(** Player a is swept; then the light turns green, a grabs again and the
    progress interval ticks. *)
Definition traceAfterSweep : list Event :=
  [TimerFires 5%nat clock; HoldEnd "a"; HoldStart "a"; TimerFires 2%nat clock].

(** ** More that holds of every registered player *)

(** A name as [joinGame] stores it. *)
Definition nameOK (s : string) : Prop :=
  s <> "" /\ (String.length s <= 15)%nat.

(** What holds of a registered player while the phase is [ph]: the name is
    a stored name; a player marked eliminated is not alive; a finisher
    stands exactly at the threshold; before game over everybody is below
    it; and during the countdown nobody has progress, holds or is marked
    eliminated. *)
Definition okPlayer2 (ph : Phase) (p : Player) : Prop :=
  nameOK (name p) /\
  (eliminated p = true -> alive p = false) /\
  (finishedAt p <> None -> progress p = progressToWin) /\
  (ph <> GameOver -> (progress p < progressToWin)%Q) /\
  (ph = Countdown ->
   progress p = 0%Q /\ holding p = false /\ eliminated p = false).

Definition Inv2 (w : World) : Prop :=
  every (fun _ p => okPlayer2 (phase (game w)) p) (players (game w)).

(** ** Who is sent what *)

(** The name of the socket.io room behind a destination.  Room names
    live in one namespace: "tv" is the room a socket enters with [joinTV],
    and every socket is in the room named by its own id.  A destination
    [Sock "tv"] is therefore the room of [TV]. *)
Definition roomName (r : Room) : string :=
  match r with
  | TV => "tv"
  | Sock sid => sid
  end.

(** The messages meant for a player's phone, and those meant for the
    display. *)
Definition playerFacing (m : Message) : bool :=
  match m with
  | MsgPlayerState _ _ _ _ _ | MsgEliminated | MsgCountdown _
  | MsgJoinError _ | MsgJoined _ _ | MsgKicked => true
  | _ => false
  end.

Definition displayFacing (m : Message) : bool :=
  match m with
  | MsgGameState _ _ _ _ | MsgEliminations _ | MsgGameOver _ _
  | MsgCountdown _ | MsgPlayerJoined _ _ => true
  | _ => false
  end.

(** The kind of a message fits the way it is emitted: display-facing
    through [io.to("tv")], player-facing to a socket id. *)
Definition wellRouted (x : Emit) : Prop :=
  match fst x with
  | TV => displayFacing (snd x) = true
  | Sock _ => playerFacing (snd x) = true
  end.

(** The same by room name.  A message that is not player-facing is emitted
    through [io.to("tv")]; a room with another name gets player-facing
    messages only; the room "tv" gets display-facing messages and whatever
    is emitted to a socket id that reads "tv". *)
Definition routedByName (x : Emit) : Prop :=
  (playerFacing (snd x) = false -> fst x = TV) /\
  (roomName (fst x) <> "tv" -> playerFacing (snd x) = true) /\
  (roomName (fst x) = "tv" -> displayFacing (snd x) = true \/ fst x = Sock "tv").

(** A [playerState] message shows the socket it is sent to one of the
    players of the registry [ps]: the one with that id, with that player's
    progress, alive and holding flags. *)
Definition showsOwnState (ps : Registry) (x : Emit) : Prop :=
  forall s ph l pr al ho,
    x = (Sock s, MsgPlayerState ph l pr al ho) ->
    exists p, In p (values ps) /\ id p = s /\
              pr = progress p /\ al = alive p /\ ho = holding p.


(** One player starts a match alone and never grabs; the light turns red. *)
Definition traceSolo : list Event :=
  [JoinGame "a" "Ann"; StartGame "tv";
   TimerFires 1%nat clock; TimerFires 1%nat clock; TimerFires 1%nat clock;
   TimerFires 3%nat clock].

(** * Properties *)

(** ** Decidable equality of phases and lights *)

Lemma Phase_eqb_eq a b : Phase_eqb a b = true <-> a = b.
Proof. destruct a, b; simpl; split; congruence. Qed.

Lemma Light_eqb_eq a b : Light_eqb a b = true <-> a = b.
Proof. destruct a, b; simpl; split; congruence. Qed.

(** ** The player Map: lookup, update, removal *)

Section RegistryFacts.

Implicit Types (m : Registry) (k : string) (p v : Player).

Lemma pget_In k m p : pget k m = Some p -> In (k, p) m.
Proof.
  induction m as [|[k' q] r IH]; simpl; [discriminate|].
  destruct (String.eqb k k') eqn:E.
  - apply String.eqb_eq in E. intros [= ->]. subst. now left.
  - intros H. right. now apply IH.
Qed.

Lemma pget_pset_same k v m : pget k (pset k v m) = Some v.
Proof.
  induction m as [|[k' q] r IH]; simpl.
  - now rewrite String.eqb_refl.
  - destruct (String.eqb k k') eqn:E; simpl; rewrite E; auto.
Qed.

Lemma pget_pset_other k k' v m : k <> k' -> pget k' (pset k v m) = pget k' m.
Proof.
  intros N. induction m as [|[k2 q] r IH]; simpl.
  - destruct (String.eqb k' k) eqn:E; auto.
    apply String.eqb_eq in E. congruence.
  - destruct (String.eqb k k2) eqn:E; simpl.
    + apply String.eqb_eq in E. subst k2.
      destruct (String.eqb k' k) eqn:E2; auto.
      apply String.eqb_eq in E2. congruence.
    + now rewrite IH.
Qed.

Lemma pset_pset k v v' m : pset k v' (pset k v m) = pset k v' m.
Proof.
  induction m as [|[k' q] r IH]; simpl.
  - now rewrite String.eqb_refl.
  - destruct (String.eqb k k') eqn:E; simpl; rewrite E; congruence.
Qed.

Lemma In_pset k v m k' p' :
  In (k', p') (pset k v m) -> (k' = k /\ p' = v) \/ In (k', p') m.
Proof.
  induction m as [|[k2 q] r IH]; simpl.
  - intros [[= <- <-]|[]]. now left.
  - destruct (String.eqb k k2) eqn:E; simpl.
    + apply String.eqb_eq in E. subst k2.
      intros [[= <- <-]|H]; auto.
    + intros [H|H]; auto. destruct (IH H); auto.
Qed.

Lemma In_pdelete k m x : In x (pdelete k m) -> In x m.
Proof.
  induction m as [|[k2 q] r IH]; simpl; auto.
  destruct (String.eqb k k2); simpl; intuition.
Qed.

Lemma keys_pset_present k v m p : pget k m = Some p -> keys (pset k v m) = keys m.
Proof.
  induction m as [|[k2 q] r IH]; simpl; [discriminate|].
  destruct (String.eqb k k2); simpl; auto.
  intros H. f_equal. now apply IH.
Qed.

Lemma keys_pset_absent k v m : pget k m = None -> keys (pset k v m) = keys m ++ [k].
Proof.
  induction m as [|[k2 q] r IH]; simpl; auto.
  destruct (String.eqb k k2); simpl; [discriminate|].
  intros H. f_equal. now apply IH.
Qed.

Lemma pget_None_keys k m : pget k m = None -> ~ In k (keys m).
Proof.
  induction m as [|[k2 q] r IH]; simpl; auto.
  destruct (String.eqb k k2) eqn:E; [discriminate|].
  apply String.eqb_neq in E. intros H [F|F]; [congruence|]. now apply IH.
Qed.

Lemma NoDup_keys_pset k v m : NoDup (keys m) -> NoDup (keys (pset k v m)).
Proof.
  intros H. destruct (pget k m) eqn:E.
  - now rewrite (keys_pset_present _ _ _ _ E).
  - rewrite (keys_pset_absent _ _ _ E).
    apply NoDup_rev in H. rewrite <- (rev_involutive (keys m ++ [k])).
    apply NoDup_rev. rewrite rev_app_distr. simpl. constructor; auto.
    rewrite <- in_rev. now apply pget_None_keys.
Qed.

Lemma In_keys_pdelete k m x : In x (keys (pdelete k m)) -> In x (keys m).
Proof.
  unfold keys. rewrite !in_map_iff. intros [y [E H]].
  exists y. split; auto. eapply In_pdelete; eauto.
Qed.

Lemma NoDup_keys_pdelete k m : NoDup (keys m) -> NoDup (keys (pdelete k m)).
Proof.
  induction m as [|[k2 q] r IH]; simpl; auto.
  intros H. inversion H; subst.
  destruct (String.eqb k k2); simpl; auto.
  constructor; auto. intros F. apply In_keys_pdelete in F. contradiction.
Qed.

Lemma In_values p m : In p (values m) -> exists k, In (k, p) m.
Proof.
  unfold values. rewrite in_map_iff. intros [[k q] [E I]]. simpl in E. subst q. eauto.
Qed.

Lemma keys_forEach f m : keys (forEach f m) = keys m.
Proof. unfold keys, forEach. rewrite map_map. reflexivity. Qed.

Lemma pget_forEach f k m : pget k (forEach f m) = option_map f (pget k m).
Proof.
  induction m as [|[k2 q] r IH]; simpl; auto.
  destruct (String.eqb k k2); auto.
Qed.

Lemma In_forEach f m k p :
  In (k, p) (forEach f m) -> exists q, In (k, q) m /\ p = f q.
Proof.
  unfold forEach. rewrite in_map_iff. intros [[k2 q] [[= <- <-] H]].
  exists q. auto.
Qed.

End RegistryFacts.

Lemma every_pset P k v m : every P m -> P k v -> every P (pset k v m).
Proof.
  intros H Hv k' p' I. destruct (In_pset _ _ _ _ _ I) as [[-> ->]|]; auto.
Qed.

Lemma every_pdelete P k m : every P m -> every P (pdelete k m).
Proof. intros H k' p' I. apply H. eapply In_pdelete; eauto. Qed.

Lemma every_forEach (P R : string -> Player -> Prop) f m :
  (forall k p, P k p -> R k (f p)) -> every P m -> every R (forEach f m).
Proof.
  intros Hf H k p I. destruct (In_forEach _ _ _ _ I) as [q [Iq ->]]. auto.
Qed.

Lemma every_weaken (P R : string -> Player -> Prop) m :
  (forall k p, P k p -> R k p) -> every P m -> every R m.
Proof. intros Hf H k p I. auto. Qed.

(** ** Timer table facts *)

Lemma tget_In h ts cb : tget h ts = Some cb -> In (h, cb) ts.
Proof.
  induction ts as [|[h' c] r IH]; simpl; [discriminate|].
  destruct (Nat.eqb h h') eqn:E.
  - apply Nat.eqb_eq in E. intros [= ->]. subst. now left.
  - intros H. right. auto.
Qed.

Lemma In_tremove h ts x : In x (tremove h ts) <-> In x ts /\ fst x <> h.
Proof.
  unfold tremove. rewrite filter_In, negb_true_iff, Nat.eqb_neq.
  split; intros [H N]; split; auto.
Qed.

Lemma In_treplace h cb ts h' cb' :
  In (h', cb') (treplace h cb ts) ->
  (h' = h /\ cb' = cb) \/ (h' <> h /\ In (h', cb') ts).
Proof.
  unfold treplace. rewrite in_map_iff. intros [[h2 c2] [E I]]. simpl in E.
  destruct (Nat.eqb h h2) eqn:Eh.
  - apply Nat.eqb_eq in Eh. injection E as <- <-. left. auto.
  - apply Nat.eqb_neq in Eh. injection E as <- <-. right. split; auto.
Qed.

Lemma In_tremoveO oh ts x : In x (tremoveO oh ts) -> In x ts.
Proof. destruct oh; simpl; auto. rewrite In_tremove. tauto. Qed.

Lemma In_tremoveO_Some h ts x : In x (tremoveO (Some h) ts) -> fst x <> h.
Proof. simpl. rewrite In_tremove. tauto. Qed.

(** ** Equations of the handlers

    Each handler, run on an explicit process state, yields an explicit
    state and list of messages. *)

Ltac unfold_monad :=
  cbv [bind ret gets update emit emitAll when setTimer clearTimer updateTimers
       getProgressInterval setProgressInterval
       broadcastAll broadcastGameState broadcastToPhones stopProgressTracking
       startProgressTracking].

Ltac world_proj := cbv beta iota delta [game progressInterval timers nextHandle].
Ltac finish_eq := world_proj; simpl; rewrite ?app_nil_r; reflexivity.

Lemma endGame_eq winner g pi ts nh :
  endGame winner (mkWorld g pi ts nh) =
  (tt,
   mkWorld (endedGame g) None
           (tremoveO pi (tremoveO (graceTimer g) (tremoveO (lightTimer g) ts))) nh,
   gameOverMsg winner (endedGame g) :: phoneMsgs (endedGame g)).
Proof.
  unfold endGame. unfold_monad.
  destruct g as [ph l ps r lt gt ct ep]; destruct lt, gt, pi; reflexivity.
Qed.

Lemma checkForWinner_eq w :
  checkForWinner w =
  match sortByFinish (filter (fun p => truthy (finishedAt p))
                             (values (players (game w)))) with
  | first :: _ => endGame (Some first) w
  | [] => (tt, w, [])
  end.
Proof.
  unfold checkForWinner. unfold_monad. simpl.
  destruct (sortByFinish _); [reflexivity|].
  destruct (endGame (Some p) w) as [[[] w2] o2]. reflexivity.
Qed.

Lemma progressTick_eq now g pi ts nh :
  progressTick now (mkWorld g pi ts nh) =
  if negb (Phase_eqb (phase g) Playing) || negb (Light_eqb (light g) Green)
  then (tt, mkWorld g pi ts nh, [])
  else if someoneFinished now g then
    (tt, execM checkForWinner (mkWorld (ticked now g) pi ts nh),
     allMsgs (ticked now g) ++ outM checkForWinner (mkWorld (ticked now g) pi ts nh))
  else (tt, mkWorld (ticked now g) pi ts nh, allMsgs (ticked now g)).
Proof.
  unfold progressTick, someoneFinished, ticked, execM, outM. unfold_monad.
  cbv beta iota delta [game progressInterval timers nextHandle].
  destruct (negb (Phase_eqb (phase g) Playing) || negb (Light_eqb (light g) Green));
    [reflexivity|].
  destruct (tickPlayers now 0%nat (players g)) as [[ps' k'] f]. cbn [fst snd].
  destruct f; simpl.
  - destruct (checkForWinner _) as [[[] w2] o2]. reflexivity.
  - unfold allMsgs. rewrite app_nil_r. reflexivity.
Qed.

Lemma switchToGreen_eq g pi ts nh :
  switchToGreen (mkWorld g pi ts nh) =
  if negb (Phase_eqb (phase g) Playing) then (tt, mkWorld g pi ts nh, [])
  else (tt, mkWorld (greened nh g) pi (ts ++ [(nh, CbSwitchToRed)]) (S nh),
        allMsgs (set_eliminationPending false (set_light Green g))).
Proof.
  unfold switchToGreen. unfold_monad. world_proj.
  destruct (negb (Phase_eqb (phase g) Playing)); finish_eq.
Qed.

Lemma switchToRed_eq g pi ts nh :
  switchToRed (mkWorld g pi ts nh) =
  if negb (Phase_eqb (phase g) Playing) then (tt, mkWorld g pi ts nh, [])
  else (tt, mkWorld (reddened nh g) pi (ts ++ [(nh, CbEliminateHolders)]) (S nh),
        allMsgs (set_eliminationPending true (set_light Red g))).
Proof.
  unfold switchToRed. unfold_monad. world_proj.
  destruct (negb (Phase_eqb (phase g) Playing)); finish_eq.
Qed.

Lemma eliminateHolders_eq g pi ts nh :
  eliminateHolders (mkWorld g pi ts nh) =
  if negb (Phase_eqb (phase g) Playing) || negb (Light_eqb (light g) Red)
  then (tt, mkWorld g pi ts nh, [])
  else
    match getAlivePlayers (swept g) with
    | [] =>
        (tt, execM (endGame None) (mkWorld (swept g) pi ts nh),
         batchMsgs g ++ allMsgs (swept g)
           ++ outM (endGame None) (mkWorld (swept g) pi ts nh))
    | [survivor] =>
        (tt, execM (endGame (Some survivor)) (mkWorld (swept g) pi ts nh),
         batchMsgs g ++ allMsgs (swept g)
           ++ outM (endGame (Some survivor)) (mkWorld (swept g) pi ts nh))
    | _ =>
        (tt, mkWorld (set_lightTimer (Some nh) (swept g)) pi
                     (ts ++ [(nh, CbSwitchToGreen)]) (S nh),
         batchMsgs g ++ allMsgs (swept g))
    end.
Proof.
  unfold eliminateHolders, batchMsgs, batchOf, swept, execM, outM. unfold_monad.
  world_proj.
  destruct (negb (Phase_eqb (phase g) Playing) || negb (Light_eqb (light g) Red));
    [reflexivity|].
  set (b := map _ (filter _ (values (players g)))).
  destruct (negb (Nat.eqb (List.length b) 0)); world_proj;
    (destruct (getAlivePlayers _) as [|s [|s2 r]];
     [ rewrite !endGame_eq; finish_eq
     | rewrite !endGame_eq; finish_eq
     | finish_eq ]).
Qed.

Lemma startGame_eq g pi ts nh :
  startGame (mkWorld g pi ts nh) =
  if (List.length (players g) <? 1)%nat then (tt, mkWorld g pi ts nh, [])
  else (tt, mkWorld (counting nh g) pi (ts ++ [(nh, CbCountdown 3)]) (S nh),
        allMsgs (set_light Red (set_round (S (round g)) (set_phase Countdown g)))
          ++ countdownMsgs 3 g).
Proof.
  unfold startGame. unfold_monad. world_proj.
  destruct (List.length (players g) <? 1)%nat; finish_eq.
Qed.

Lemma startProgressTracking_eq g pi ts nh :
  startProgressTracking (mkWorld g pi ts nh) =
  (tt, mkWorld g (Some nh) (tremoveO pi ts ++ [(nh, CbProgress)]) (S nh), []).
Proof. unfold startProgressTracking. unfold_monad. destruct pi; reflexivity. Qed.

Lemma countdownTick_eq h count g pi ts nh :
  countdownTick h count (mkWorld g pi ts nh) =
  if 0 <? count - 1 then
    (tt, mkWorld g pi (treplace h (CbCountdown (count - 1)) ts) nh,
     countdownMsgs (count - 1) g)
  else
    let ts1 := tremoveO (countdownTimer g) (treplace h (CbCountdown (count - 1)) ts) in
    let g1 := set_phase Playing g in
    (tt,
     mkWorld (greened (S nh) g1) (Some nh)
             ((tremoveO pi ts1 ++ [(nh, CbProgress)]) ++ [(S nh, CbSwitchToRed)])
             (S (S nh)),
     allMsgs (set_eliminationPending false (set_light Green g1))).
Proof.
  unfold countdownTick. cbv [bind updateTimers gets clearTimer update]. world_proj.
  destruct (0 <? count - 1).
  - unfold_monad. finish_eq.
  - destruct (countdownTimer g); world_proj; rewrite startProgressTracking_eq; world_proj;
      rewrite switchToGreen_eq; simpl; reflexivity.
Qed.

Lemma resetGame_eq g pi ts nh :
  resetGame (mkWorld g pi ts nh) =
  (tt,
   mkWorld (lobbied g) None
           (tremoveO pi
              (tremoveO (countdownTimer g)
                 (tremoveO (graceTimer g) (tremoveO (lightTimer g) ts)))) nh,
   allMsgs (lobbied g)).
Proof.
  unfold resetGame. unfold_monad.
  destruct g as [ph l ps r lt gt ct ep]; destruct lt, gt, ct, pi; reflexivity.
Qed.

Lemma onJoinGame_eq sid nm g pi ts nh :
  onJoinGame sid nm (mkWorld g pi ts nh) =
  if negb (Phase_eqb (phase g) Lobby) then
    (tt, mkWorld g pi ts nh,
     [(Sock sid, MsgJoinError "Game already in progress. Wait for next round!")])
  else if (String.length (trim nm) =? 0)%nat then
    (tt, mkWorld g pi ts nh, [(Sock sid, MsgJoinError "Please enter a name!")])
  else
    let player := createPlayer sid (trim nm) in
    let g1 := set_players (pset sid player (players g)) g in
    (tt, mkWorld g1 pi ts nh,
     [(Sock sid, MsgJoined (id player) (name player));
      (TV, MsgPlayerJoined (id player) (name player));
      gameStateMsg g1]).
Proof.
  unfold onJoinGame. unfold_monad. world_proj.
  destruct (negb (Phase_eqb (phase g) Lobby)); [reflexivity|].
  destruct (String.length (trim nm) =? 0)%nat; reflexivity.
Qed.

Lemma onHoldStart_eq sid g pi ts nh :
  onHoldStart sid (mkWorld g pi ts nh) =
  match pget sid (players g) with
  | None => (tt, mkWorld g pi ts nh, [])
  | Some player =>
      if negb (alive player) || negb (Phase_eqb (phase g) Playing)
      then (tt, mkWorld g pi ts nh, [])
      else if Light_eqb (light g) Red && negb (eliminationPending g) then
        let struck := strike (set_holding true player) in
        let g1 := set_players (pset sid struck (players g)) g in
        (tt, mkWorld g1 pi ts nh,
         (TV, MsgEliminations [(id struck, name struck)])
           :: (Sock sid, MsgEliminated) :: allMsgs g1)
      else
        (tt, mkWorld (set_players (pset sid (set_holding true player) (players g)) g)
                     pi ts nh, [])
  end.
Proof.
  unfold onHoldStart. unfold_monad. world_proj.
  destruct (pget sid (players g)) as [player|]; [|reflexivity].
  destruct (negb (alive player) || negb (Phase_eqb (phase g) Playing)); [reflexivity|].
  destruct (Light_eqb (light g) Red && negb (eliminationPending g)).
  - world_proj. simpl. rewrite pset_pset. reflexivity.
  - reflexivity.
Qed.

Lemma onHoldEnd_eq sid g pi ts nh :
  onHoldEnd sid (mkWorld g pi ts nh) =
  match pget sid (players g) with
  | None => (tt, mkWorld g pi ts nh, [])
  | Some player =>
      (tt, mkWorld (set_players (pset sid (set_holding false player) (players g)) g)
                   pi ts nh, [])
  end.
Proof.
  unfold onHoldEnd. unfold_monad. world_proj.
  destruct (pget sid (players g)); reflexivity.
Qed.

Lemma onStartGame_eq g pi ts nh :
  onStartGame (mkWorld g pi ts nh) =
  if Phase_eqb (phase g) Lobby || Phase_eqb (phase g) GameOver then
    startGame (mkWorld (set_players (forEach pristine (players g)) g) pi ts nh)
  else (tt, mkWorld g pi ts nh, []).
Proof.
  unfold onStartGame. cbv [bind gets update]. world_proj.
  destruct (Phase_eqb (phase g) Lobby || Phase_eqb (phase g) GameOver); [|reflexivity].
  destruct (startGame _) as [[[] w2] o2]. reflexivity.
Qed.

Lemma onKickPlayer_eq playerId g pi ts nh :
  onKickPlayer playerId (mkWorld g pi ts nh) =
  let g1 := set_players (pdelete playerId (players g)) g in
  (tt, mkWorld g1 pi ts nh, [(Sock playerId, MsgKicked); gameStateMsg g1]).
Proof. reflexivity. Qed.

Lemma onDisconnect_eq sid g pi ts nh :
  onDisconnect sid (mkWorld g pi ts nh) =
  match pget sid (players g) with
  | None => (tt, mkWorld g pi ts nh, [])
  | Some player =>
      let g1 := if Phase_eqb (phase g) Lobby
                then set_players (pdelete sid (players g)) g
                else set_players (pset sid (forfeit player) (players g)) g in
      (tt, mkWorld g1 pi ts nh, allMsgs g1)
  end.
Proof.
  unfold onDisconnect. unfold_monad. world_proj.
  destruct (pget sid (players g)); [|reflexivity].
  destruct (Phase_eqb (phase g) Lobby); finish_eq.
Qed.

Lemma fire_eq h now g pi ts nh :
  fire h now (mkWorld g pi ts nh) =
  match tget h ts with
  | None => (tt, mkWorld g pi ts nh, [])
  | Some CbProgress => progressTick now (mkWorld g pi ts nh)
  | Some CbSwitchToRed => switchToRed (mkWorld g pi (tremove h ts) nh)
  | Some CbEliminateHolders => eliminateHolders (mkWorld g pi (tremove h ts) nh)
  | Some CbSwitchToGreen => switchToGreen (mkWorld g pi (tremove h ts) nh)
  | Some (CbCountdown count) => countdownTick h count (mkWorld g pi ts nh)
  end.
Proof.
  unfold fire. cbv [bind updateTimers]. world_proj.
  destruct (tget h ts) as [[| | | |c]|]; try reflexivity.
  - destruct (progressTick _ _) as [[[] w2] o2]. reflexivity.
  - destruct (switchToRed _) as [[[] w2] o2]. reflexivity.
  - destruct (eliminateHolders _) as [[[] w2] o2]. reflexivity.
  - destruct (switchToGreen _) as [[[] w2] o2]. reflexivity.
  - destruct (countdownTick _ _ _) as [[[] w2] o2]. reflexivity.
Qed.

(** ** The progress tick, player by player *)

Lemma tickPlayers_cons now k key p rest :
  tickPlayers now k ((key, p) :: rest) =
  if eligible p then
    if crosses p then
      let '(rest', k', _) := tickPlayers now (S k) rest in
      ((key, set_finishedAt (Some (now k)) (advanced p)) :: rest', k', true)
    else
      let '(rest', k', f) := tickPlayers now k rest in
      ((key, advanced p) :: rest', k', f)
  else
    let '(rest', k', f) := tickPlayers now k rest in
    ((key, p) :: rest', k', f).
Proof. reflexivity. Qed.

Lemma tickPlayers_rel now ps :
  forall k, Forall2 (tickRel now) ps (fst (fst (tickPlayers now k ps))).
Proof.
  induction ps as [|[key p] rest IH]; intros k; [constructor|].
  rewrite tickPlayers_cons.
  destruct (eligible p) eqn:E; [destruct (crosses p) eqn:C|].
  - specialize (IH (S k)). destruct (tickPlayers now (S k) rest) as [[r' k'] f].
    simpl in *. constructor; auto. split; simpl; auto. rewrite E, C. eauto.
  - specialize (IH k). destruct (tickPlayers now k rest) as [[r' k'] f].
    simpl in *. constructor; auto. split; simpl; auto. now rewrite E, C.
  - specialize (IH k). destruct (tickPlayers now k rest) as [[r' k'] f].
    simpl in *. constructor; auto. split; simpl; auto. now rewrite E.
Qed.

Lemma tickPlayers_flag now ps :
  forall k, snd (tickPlayers now k ps)
            = existsb (fun kp => eligible (snd kp) && crosses (snd kp)) ps.
Proof.
  induction ps as [|[key p] rest IH]; intros k; [reflexivity|].
  rewrite tickPlayers_cons. cbn [existsb snd].
  destruct (eligible p) eqn:E; [destruct (crosses p) eqn:C|]; cbn [andb orb].
  - destruct (tickPlayers now (S k) rest) as [[r' k'] f]. reflexivity.
  - rewrite <- (IH k). destruct (tickPlayers now k rest) as [[r' k'] f]. reflexivity.
  - rewrite <- (IH k). destruct (tickPlayers now k rest) as [[r' k'] f]. reflexivity.
Qed.

Lemma Forall2_In_r {A B} (R : A -> B -> Prop) l l' y :
  Forall2 R l l' -> In y l' -> exists x, In x l /\ R x y.
Proof.
  induction 1 as [|a b l l' Hab H IH]; simpl; [tauto|].
  intros [<-|I].
  - exists a. auto.
  - destruct (IH I) as [x [Ix Rx]]. exists x. auto.
Qed.

Lemma Forall2_In_l {A B} (R : A -> B -> Prop) l l' x :
  Forall2 R l l' -> In x l -> exists y, In y l' /\ R x y.
Proof.
  induction 1 as [|a b l l' Hab H IH]; simpl; [tauto|].
  intros [<-|I].
  - exists b. auto.
  - destruct (IH I) as [y [Iy Ry]]. exists y. auto.
Qed.

Lemma tickRel_keys now ps ps' : Forall2 (tickRel now) ps ps' -> keys ps' = keys ps.
Proof.
  induction 1 as [|a b l l' [Hk _] H IH]; simpl; [reflexivity|]. now f_equal.
Qed.

Lemma tickRel_pget now ps ps' sid p :
  Forall2 (tickRel now) ps ps' -> pget sid ps = Some p ->
  exists p', pget sid ps' = Some p' /\ tickRel now (sid, p) (sid, p').
Proof.
  induction 1 as [|[k q] [k' q'] l l' Hab H IH]; simpl; [discriminate|].
  destruct Hab as [Hk Hr]. simpl in Hk, Hr. subst k'.
  destruct (String.eqb sid k) eqn:E.
  - intros [= <-]. exists q'. split; auto. split; auto.
  - auto.
Qed.

(** ** Arithmetic of one increment *)

Lemma advanced_le p : (progress (advanced p) <= progressToWin)%Q.
Proof. simpl. apply Q.le_min_l. Qed.

Lemma advanced_ge p :
  (progress p <= progressToWin)%Q -> (progress p <= progress (advanced p))%Q.
Proof.
  intros H. simpl. apply Q.min_glb; auto.
  rewrite <- (Qplus_0_r (progress p)) at 1.
  apply Qplus_le_compat; [apply Qle_refl | discriminate].
Qed.

(** ** The invariant of the reachable states *)

Lemma okPlayer_phase ph ph' k p :
  okPlayer ph k p ->
  (ph' = Lobby -> ph = Lobby) -> (ph' <> GameOver -> ph <> GameOver) ->
  okPlayer ph' k p.
Proof. unfold okPlayer. intuition. Qed.

Lemma okPlayer_pristine ph ph' k p : okPlayer ph k p -> okPlayer ph' k (pristine p).
Proof.
  unfold okPlayer, isPristine. simpl. intros [Hid _].
  repeat split; auto; try discriminate.
Qed.

Lemma okPlayer_create ph sid nm : okPlayer ph sid (createPlayer sid nm).
Proof. unfold okPlayer, isPristine. simpl. repeat split; auto; discriminate. Qed.

Lemma okPlayer_holding ph k p b :
  okPlayer ph k p -> (ph = Lobby -> b = false) -> okPlayer ph k (set_holding b p).
Proof.
  unfold okPlayer, isPristine. simpl. intros (Hid & Hb & Ht & Hl & Hf) Hph.
  repeat split; auto; try apply Hb; try (apply Hl; assumption).
Qed.

Lemma okPlayer_dead ph k p (f : Player -> Player) :
  ph <> Lobby ->
  id (f p) = id p -> progress (f p) = progress p -> finishedAt (f p) = finishedAt p ->
  okPlayer ph k p -> okPlayer ph k (f p).
Proof.
  unfold okPlayer. intros N E1 E2 E3 (Hid & Hb & Ht & Hl & Hf).
  rewrite E1, E2, E3. repeat split; auto; try apply Hb; intros; contradiction.
Qed.

Lemma okPlayer_sweep ph k p : ph <> Lobby -> okPlayer ph k p -> okPlayer ph k (sweepPlayer p).
Proof.
  intros N H. unfold sweepPlayer. destruct (alive p && holding p); auto.
  apply (okPlayer_dead ph k p strike); auto.
Qed.

Lemma okPlayer_tick now k p kp' :
  (forall j, 0 < now j) ->
  okPlayer Playing k p -> tickRel now (k, p) kp' ->
  okPlayer GameOver (fst kp') (snd kp') /\
  (eligible p && crosses p = false -> okPlayer Playing (fst kp') (snd kp')).
Proof.
  intros Hnow (Hid & Hb & Ht & Hl & Hf) [Hk Hr]. simpl in Hk, Hr. rewrite Hk.
  assert (Hadv : (0 <= progress (advanced p) <= progressToWin)%Q).
  { split; [|apply advanced_le].
    eapply Qle_trans; [apply Hb|]. apply advanced_ge, Hb. }
  unfold okPlayer.
  destruct (eligible p); [destruct (crosses p)|].
  - destruct Hr as [j ->]. simpl. split; [|discriminate].
    repeat split; auto; try apply Hadv; try discriminate.
    + intros t [= <-]. apply Hnow.
    + intros N. now elim N.
  - rewrite Hr. simpl. split; intros; repeat split; auto; try apply Hadv;
      try discriminate; intros; try (now apply Hf); congruence.
  - rewrite Hr. split; intros; repeat split; auto; try apply Hb; try discriminate;
      intros; try (now apply Hf); congruence.
Qed.

Lemma insertBy_not_nil x l : insertBy x l <> [].
Proof. destruct l; simpl; [discriminate|]. destruct (_ <=? _); discriminate. Qed.

Lemma sortByFinish_nil l : sortByFinish l = [] -> l = [].
Proof.
  destruct l; auto. simpl. intros H. now apply insertBy_not_nil in H.
Qed.

(** A tick in which a player crossed the line leaves a finisher for
    [checkForWinner] to find. *)
Lemma tick_finisher now g :
  (forall j, 0 < now j) -> someoneFinished now g = true ->
  filter (fun p => truthy (finishedAt p)) (values (players (ticked now g))) <> [].
Proof.
  intros Hnow F. unfold someoneFinished in F. rewrite tickPlayers_flag in F.
  apply existsb_exists in F. destruct F as [[k p] [I EC]]. simpl in EC.
  apply andb_true_iff in EC. destruct EC as [E C].
  destruct (Forall2_In_l _ _ _ _ (tickPlayers_rel now (players g) 0%nat) I)
    as [[k' p'] [I' [_ R]]].
  simpl in R. rewrite E, C in R. destruct R as [j ->].
  intros Hnil.
  assert (Hin : In (set_finishedAt (Some (now j)) (advanced p))
                   (filter (fun p => truthy (finishedAt p))
                           (values (players (ticked now g))))).
  { apply filter_In. split.
    - unfold values. apply in_map_iff. eexists. split; [|exact I']. reflexivity.
    - simpl. specialize (Hnow j). destruct (now j =? 0) eqn:Z0; auto.
      apply Z.eqb_eq in Z0. lia. }
  rewrite Hnil in Hin. exact Hin.
Qed.

(** ** The invariant is established and preserved *)

Lemma Inv_init : Inv initWorld.
Proof.
  split; simpl.
  - intros k p [].
  - constructor.
  - discriminate.
  - intros h c [].
Qed.

Lemma Inv_set_players g pi ts nh ps' :
  Inv (mkWorld g pi ts nh) ->
  every (okPlayer (phase g)) ps' -> NoDup (keys ps') ->
  Inv (mkWorld (set_players ps' g) pi ts nh).
Proof. intros [Hp Hn Hd Hc] Hp' Hn'. split; simpl in *; auto. Qed.

Lemma Inv_endGame winner g pi ts nh :
  every (okPlayer GameOver) (players g) -> NoDup (keys (players g)) ->
  (forall h c, ~ In (h, CbCountdown c) ts) ->
  Inv (execM (endGame winner) (mkWorld g pi ts nh)).
Proof.
  intros Hp Hn Hc. unfold execM. rewrite endGame_eq. split; simpl; auto.
  - discriminate.
  - intros h c I. do 3 apply In_tremoveO in I. now apply Hc in I.
Qed.

Lemma Inv_no_countdown g pi ts nh :
  Inv (mkWorld g pi ts nh) -> phase g <> Countdown ->
  forall h c, ~ In (h, CbCountdown c) ts.
Proof. intros [_ _ _ Hc] N h c I. destruct (Hc h c I). contradiction. Qed.

Lemma Inv_timers g pi pi' ts ts' nh nh' :
  Inv (mkWorld g pi ts nh) ->
  (forall h c, In (h, CbCountdown c) ts' -> In (h, CbCountdown c) ts) ->
  Inv (mkWorld g pi' ts' nh').
Proof.
  intros [Hp Hn Hd Hc] Hsub. split; simpl in *; auto.
  intros h c I. apply (Hc h c), Hsub, I.
Qed.

Lemma In_app_single {A} (x y : A) l : In x (l ++ [y]) -> In x l \/ x = y.
Proof. rewrite in_app_iff. simpl. intuition. Qed.

Lemma Inv_switchToGreen g pi ts nh :
  Inv (mkWorld g pi ts nh) -> Inv (execM switchToGreen (mkWorld g pi ts nh)).
Proof.
  intros H. unfold execM. rewrite switchToGreen_eq.
  destruct (negb (Phase_eqb (phase g) Playing)); simpl; auto.
  destruct H as [Hp Hn Hd Hc]. split; simpl in *; auto.
  - discriminate.
  - intros h c I. apply In_app_single in I. destruct I as [I|[=]]. eauto.
Qed.

Lemma Inv_switchToRed g pi ts nh :
  Inv (mkWorld g pi ts nh) -> Inv (execM switchToRed (mkWorld g pi ts nh)).
Proof.
  intros H. unfold execM. rewrite switchToRed_eq.
  destruct (negb (Phase_eqb (phase g) Playing)); simpl; auto.
  destruct H as [Hp Hn Hd Hc]. split; simpl in *; auto.
  intros h c I. apply In_app_single in I. destruct I as [I|[=]]. eauto.
Qed.

Lemma Inv_eliminateHolders g pi ts nh :
  Inv (mkWorld g pi ts nh) -> Inv (execM eliminateHolders (mkWorld g pi ts nh)).
Proof.
  intros H. unfold execM. rewrite eliminateHolders_eq.
  destruct (Phase_eqb (phase g) Playing) eqn:Eph; simpl; auto.
  destruct (Light_eqb (light g) Red) eqn:El; simpl; auto.
  apply Phase_eqb_eq in Eph. apply Light_eqb_eq in El.
  assert (Hsw : every (okPlayer Playing) (players (swept g))).
  { destruct H as [Hp _ _ _]. simpl in *. rewrite Eph in Hp.
    eapply every_forEach; [|exact Hp]. intros k p. apply okPlayer_sweep. discriminate. }
  assert (Hnd : NoDup (keys (players (swept g)))).
  { simpl. rewrite keys_forEach. apply H. }
  assert (Hno : forall h c, ~ In (h, CbCountdown c) ts).
  { eapply Inv_no_countdown; eauto. rewrite Eph. discriminate. }
  assert (Hgo : every (okPlayer GameOver) (players (swept g))).
  { eapply every_weaken; [|exact Hsw]. intros k p Hk.
    eapply okPlayer_phase; eauto; discriminate. }
  destruct (getAlivePlayers (swept g)) as [|s [|s2 r]]; simpl.
  - apply Inv_endGame; auto.
  - apply Inv_endGame; auto.
  - destruct H as [Hp Hn Hd Hc]. split; simpl in *; auto.
    + rewrite Eph. exact Hsw.
    + intros h c I. apply In_app_single in I. destruct I as [I|[=]].
      now apply Hno in I.
Qed.

Lemma Inv_progressTick now g pi ts nh :
  (forall j, 0 < now j) ->
  Inv (mkWorld g pi ts nh) -> Inv (execM (progressTick now) (mkWorld g pi ts nh)).
Proof.
  intros Hnow H. unfold execM at 1. rewrite progressTick_eq.
  destruct (Phase_eqb (phase g) Playing) eqn:Eph; simpl; auto.
  destruct (Light_eqb (light g) Green) eqn:El; simpl; auto.
  apply Phase_eqb_eq in Eph. apply Light_eqb_eq in El.
  pose proof (tickPlayers_rel now (players g) 0%nat) as HR.
  assert (Hnd : NoDup (keys (players (ticked now g)))).
  { simpl. rewrite (tickRel_keys _ _ _ HR). apply H. }
  assert (Hgo : every (okPlayer GameOver) (players (ticked now g))).
  { intros k p' I. simpl in I.
    destruct (Forall2_In_r _ _ _ _ HR I) as [[k0 p] [I0 R]].
    destruct H as [Hp _ _ _]. simpl in Hp. rewrite Eph in Hp.
    destruct (okPlayer_tick now k0 p (k, p') Hnow (Hp _ _ I0) R) as [G _]. exact G. }
  destruct (someoneFinished now g) eqn:F; simpl.
  - unfold execM. rewrite checkForWinner_eq. simpl game.
    destruct (sortByFinish _) as [|first rest] eqn:Es.
    + apply sortByFinish_nil in Es. exfalso. revert Es. now apply tick_finisher.
    + apply (Inv_endGame (Some first)); auto.
      eapply Inv_no_countdown; eauto. rewrite Eph. discriminate.
  - apply Inv_set_players; auto.
    intros k p' I. rewrite Eph.
    destruct (Forall2_In_r _ _ _ _ HR I) as [[k0 p] [I0 R]].
    destruct H as [Hp _ _ _]. simpl in Hp. rewrite Eph in Hp.
    destruct (okPlayer_tick now k0 p (k, p') Hnow (Hp _ _ I0) R) as [_ G].
    apply G. unfold someoneFinished in F. rewrite tickPlayers_flag in F.
    destruct (eligible p && crosses p) eqn:EC; auto.
    assert (existsb (fun kp => eligible (snd kp) && crosses (snd kp)) (players g) = true).
    { apply existsb_exists. exists (k0, p). auto. }
    congruence.
Qed.

Lemma Inv_countdownTick h count g pi ts nh :
  tget h ts = Some (CbCountdown count) ->
  Inv (mkWorld g pi ts nh) ->
  Inv (execM (countdownTick h count) (mkWorld g pi ts nh)).
Proof.
  intros Hget H. apply tget_In in Hget.
  destruct (inv_countdown _ H h count Hget) as [Eph Ect]. simpl in Eph, Ect.
  unfold execM. rewrite countdownTick_eq.
  destruct H as [Hp Hn Hd Hc]. simpl in *.
  destruct (0 <? count - 1); simpl.
  - split; simpl; auto.
    intros h' c' I. apply In_treplace in I. destruct I as [[-> _]|[_ I]]; eauto.
  - split; simpl; auto.
    + rewrite Eph in Hp. eapply every_weaken; [|exact Hp].
      intros k p Hk. eapply okPlayer_phase; eauto; discriminate.
    + discriminate.
    + intros h' c' I.
      apply In_app_single in I. destruct I as [I|[=]].
      apply In_app_single in I. destruct I as [I|[=]].
      apply In_tremoveO in I. rewrite Ect in I.
      pose proof (In_tremoveO_Some _ _ _ I) as N. simpl in N.
      apply In_tremoveO in I. apply In_treplace in I.
      destruct I as [[-> _]|[_ I]]; [congruence|].
      destruct (Hc _ _ I) as [_ E]. congruence.
Qed.

Lemma Inv_startGame g pi ts nh :
  Inv (mkWorld g pi ts nh) -> phase g <> Countdown ->
  every (okPlayer Countdown) (players g) ->
  Inv (execM startGame (mkWorld g pi ts nh)).
Proof.
  intros H N Hok. unfold execM. rewrite startGame_eq.
  destruct (List.length (players g) <? 1)%nat; simpl; auto.
  pose proof (Inv_no_countdown _ _ _ _ H N) as Hno.
  destruct H as [Hp Hn Hd Hc]. split; simpl in *; auto.
  - discriminate.
  - intros h c I. apply In_app_single in I. destruct I as [I|[= -> _]]; auto.
    now apply Hno in I.
Qed.

Lemma Inv_onStartGame g pi ts nh :
  Inv (mkWorld g pi ts nh) -> Inv (execM onStartGame (mkWorld g pi ts nh)).
Proof.
  intros H. unfold execM. rewrite onStartGame_eq.
  destruct (Phase_eqb (phase g) Lobby || Phase_eqb (phase g) GameOver) eqn:E; auto.
  assert (N : phase g <> Countdown).
  { intros F. rewrite F in E. discriminate. }
  assert (Hpr : forall ph, every (okPlayer ph) (forEach pristine (players g))).
  { intros ph. eapply every_forEach; [|apply H]. intros k p.
    apply okPlayer_pristine. }
  apply Inv_startGame; auto.
  apply Inv_set_players; auto. simpl. rewrite keys_forEach. apply H.
Qed.

Lemma Inv_resetGame g pi ts nh :
  Inv (mkWorld g pi ts nh) -> Inv (execM resetGame (mkWorld g pi ts nh)).
Proof.
  intros H. unfold execM. rewrite resetGame_eq.
  destruct H as [Hp Hn Hd Hc]. split; simpl in *.
  - eapply every_forEach; [|exact Hp]. intros k p. apply okPlayer_pristine.
  - now rewrite keys_forEach.
  - discriminate.
  - intros h c I. exfalso. apply In_tremoveO in I.
    destruct (countdownTimer g) as [ct|] eqn:Ect.
    + pose proof (In_tremoveO_Some _ _ _ I) as N. simpl in N.
      do 3 apply In_tremoveO in I. destruct (Hc _ _ I) as [_ E]. congruence.
    + do 3 apply In_tremoveO in I. destruct (Hc _ _ I) as [_ E]. congruence.
Qed.

Lemma Inv_onJoinGame sid nm g pi ts nh :
  Inv (mkWorld g pi ts nh) -> Inv (execM (onJoinGame sid nm) (mkWorld g pi ts nh)).
Proof.
  intros H. unfold execM. rewrite onJoinGame_eq.
  destruct (negb (Phase_eqb (phase g) Lobby)); simpl; auto.
  destruct (String.length (trim nm) =? 0)%nat; simpl; auto.
  apply Inv_set_players; auto.
  - apply every_pset; [apply H|]. apply okPlayer_create.
  - apply NoDup_keys_pset, H.
Qed.

Lemma Inv_onHoldStart sid g pi ts nh :
  Inv (mkWorld g pi ts nh) -> Inv (execM (onHoldStart sid) (mkWorld g pi ts nh)).
Proof.
  intros H. unfold execM. rewrite onHoldStart_eq.
  destruct (pget sid (players g)) as [player|] eqn:G; simpl; auto.
  destruct (alive player); simpl; auto.
  destruct (Phase_eqb (phase g) Playing) eqn:Eph; simpl; auto.
  apply Phase_eqb_eq in Eph.
  assert (Hok : okPlayer (phase g) sid (set_holding true player)).
  { apply okPlayer_holding; [|rewrite Eph; discriminate].
    apply (inv_players _ H). simpl. now apply pget_In. }
  destruct (Light_eqb (light g) Red && negb (eliminationPending g)); simpl.
  - apply Inv_set_players; auto.
    + apply every_pset; [apply H|].
      apply (okPlayer_dead _ _ _ strike); auto. rewrite Eph. discriminate.
    + apply NoDup_keys_pset, H.
  - apply Inv_set_players; auto.
    + apply every_pset; [apply H|]. exact Hok.
    + apply NoDup_keys_pset, H.
Qed.

Lemma Inv_onHoldEnd sid g pi ts nh :
  Inv (mkWorld g pi ts nh) -> Inv (execM (onHoldEnd sid) (mkWorld g pi ts nh)).
Proof.
  intros H. unfold execM. rewrite onHoldEnd_eq.
  destruct (pget sid (players g)) as [player|] eqn:G; simpl; auto.
  apply Inv_set_players; auto.
  - apply every_pset; [apply H|]. apply okPlayer_holding; auto.
    apply (inv_players _ H). simpl. now apply pget_In.
  - apply NoDup_keys_pset, H.
Qed.

Lemma Inv_onKickPlayer playerId g pi ts nh :
  Inv (mkWorld g pi ts nh) -> Inv (execM (onKickPlayer playerId) (mkWorld g pi ts nh)).
Proof.
  intros H. unfold execM. rewrite onKickPlayer_eq. simpl.
  apply Inv_set_players; auto.
  - apply every_pdelete, H.
  - apply NoDup_keys_pdelete, H.
Qed.

Lemma Inv_onDisconnect sid g pi ts nh :
  Inv (mkWorld g pi ts nh) -> Inv (execM (onDisconnect sid) (mkWorld g pi ts nh)).
Proof.
  intros H. unfold execM. rewrite onDisconnect_eq.
  destruct (pget sid (players g)) as [player|] eqn:G; simpl; auto.
  destruct (Phase_eqb (phase g) Lobby) eqn:Eph.
  - apply Inv_set_players; auto.
    + apply every_pdelete, H.
    + apply NoDup_keys_pdelete, H.
  - apply Inv_set_players; auto.
    + apply every_pset; [apply H|].
      apply (okPlayer_dead _ _ _ forfeit); auto.
      * intros F. rewrite F in Eph. discriminate.
      * apply (inv_players _ H). simpl. now apply pget_In.
    + apply NoDup_keys_pset, H.
Qed.

Lemma Inv_fire h now g pi ts nh :
  (forall j, 0 < now j) ->
  Inv (mkWorld g pi ts nh) -> Inv (execM (fire h now) (mkWorld g pi ts nh)).
Proof.
  intros Hnow H. unfold execM. rewrite fire_eq.
  assert (Hrm : Inv (mkWorld g pi (tremove h ts) nh)).
  { eapply Inv_timers; eauto. intros h' c I. apply In_tremove in I. tauto. }
  destruct (tget h ts) as [[| | | |count]|] eqn:G; simpl; auto.
  - now apply Inv_progressTick.
  - now apply Inv_switchToRed.
  - now apply Inv_eliminateHolders.
  - now apply Inv_switchToGreen.
  - now apply Inv_countdownTick.
Qed.

Theorem Inv_step w e : Inv w -> admissible e -> Inv (step w e).
Proof.
  destruct w as [g pi ts nh]. intros H A. unfold step.
  destruct e; simpl handle.
  - exact H.
  - now apply Inv_onJoinGame.
  - now apply Inv_onHoldStart.
  - now apply Inv_onHoldEnd.
  - now apply Inv_onStartGame.
  - now apply Inv_resetGame.
  - now apply Inv_onKickPlayer.
  - now apply Inv_onDisconnect.
  - now apply Inv_fire.
Qed.

Theorem reachable_Inv w : reachable w -> Inv w.
Proof.
  induction 1 as [|w e _ IH A]; [apply Inv_init | now apply Inv_step].
Qed.

(** ** One event, seen from one entry of the Map *)

Lemma pget_pdelete_other k sid m : k <> sid -> pget sid (pdelete k m) = pget sid m.
Proof.
  intros N. induction m as [|[k2 q] r IH]; simpl; auto.
  destruct (String.eqb k k2) eqn:E; simpl.
  - apply String.eqb_eq in E. subst k2.
    destruct (String.eqb sid k) eqn:E2; auto.
    apply String.eqb_eq in E2. congruence.
  - now rewrite IH.
Qed.

Lemma pget_pdelete_same k m : NoDup (keys m) -> pget k (pdelete k m) = None.
Proof.
  induction m as [|[k2 q] r IH]; simpl; auto.
  intros H. inversion H as [|? ? Hnin Hnd]; subst.
  destruct (String.eqb k k2) eqn:E; simpl.
  - apply String.eqb_eq in E. subst k2.
    destruct (pget k r) eqn:G; auto.
    apply pget_In in G. exfalso. apply Hnin.
    unfold keys. apply in_map_iff. exists (k, p). auto.
  - rewrite E. auto.
Qed.

Lemma players_endGame winner w :
  players (game (execM (endGame winner) w)) = players (game w).
Proof. destruct w. unfold execM. now rewrite endGame_eq. Qed.

Lemma players_checkForWinner w :
  players (game (execM checkForWinner w)) = players (game w).
Proof.
  unfold execM. rewrite checkForWinner_eq.
  destruct (sortByFinish _); auto. apply players_endGame.
Qed.

Lemma players_progressTick now g pi ts nh :
  players (game (execM (progressTick now) (mkWorld g pi ts nh))) =
  if Phase_eqb (phase g) Playing && Light_eqb (light g) Green
  then players (ticked now g) else players g.
Proof.
  unfold execM at 1. rewrite progressTick_eq.
  destruct (Phase_eqb (phase g) Playing); simpl; auto.
  destruct (Light_eqb (light g) Green); simpl; auto.
  destruct (someoneFinished now g); simpl; auto.
  apply players_checkForWinner.
Qed.

Lemma players_eliminateHolders g pi ts nh :
  players (game (execM eliminateHolders (mkWorld g pi ts nh))) =
  if Phase_eqb (phase g) Playing && Light_eqb (light g) Red
  then forEach sweepPlayer (players g) else players g.
Proof.
  unfold execM at 1. rewrite eliminateHolders_eq.
  destruct (Phase_eqb (phase g) Playing); simpl; auto.
  destruct (Light_eqb (light g) Red); simpl; auto.
  destruct (getAlivePlayers (swept g)) as [|s [|s2 r]]; simpl; auto;
    apply players_endGame.
Qed.

Lemma players_switchToGreen w : players (game (execM switchToGreen w)) = players (game w).
Proof.
  destruct w. unfold execM. rewrite switchToGreen_eq.
  destruct (negb _); reflexivity.
Qed.

Lemma players_switchToRed w : players (game (execM switchToRed w)) = players (game w).
Proof.
  destruct w. unfold execM. rewrite switchToRed_eq.
  destruct (negb _); reflexivity.
Qed.

Lemma players_countdownTick h c w :
  players (game (execM (countdownTick h c) w)) = players (game w).
Proof.
  destruct w. unfold execM. rewrite countdownTick_eq.
  destruct (0 <? c - 1); reflexivity.
Qed.

Lemma players_startGame w : players (game (execM startGame w)) = players (game w).
Proof.
  destruct w. unfold execM. rewrite startGame_eq.
  destruct (_ <? _)%nat; reflexivity.
Qed.

Theorem step_playerStep w e sid p p' :
  NoDup (keys (players (game w))) ->
  pget sid (players (game w)) = Some p ->
  pget sid (players (game (step w e))) = Some p' ->
  playerStep w sid p e p'.
Proof.
  destruct w as [g pi ts nh]. simpl. intros Hnd G. unfold step.
  destruct e as [s|s nm|s|s|s|s|s k|s|h now]; simpl handle.
  - simpl. rewrite G. intros [= <-]. constructor.
  - unfold execM. rewrite onJoinGame_eq.
    destruct (Phase_eqb (phase g) Lobby) eqn:Eph; simpl;
      [|rewrite G; intros [= <-]; constructor].
    destruct (String.length (trim nm) =? 0)%nat; simpl;
      [rewrite G; intros [= <-]; constructor|].
    destruct (String.eqb s sid) eqn:E.
    + apply String.eqb_eq in E. subst s. rewrite pget_pset_same. intros [= <-].
      apply ps_join. now apply Phase_eqb_eq.
    + apply String.eqb_neq in E. rewrite pget_pset_other by auto.
      rewrite G; intros [= <-]; constructor.
  - unfold execM. rewrite onHoldStart_eq.
    destruct (pget s (players g)) as [pl|] eqn:Gs; simpl;
      [|rewrite G; intros [= <-]; constructor].
    destruct (alive pl) eqn:Al; simpl; [|rewrite G; intros [= <-]; constructor].
    destruct (Phase_eqb (phase g) Playing) eqn:Eph; simpl;
      [|rewrite G; intros [= <-]; constructor].
    destruct (String.eqb s sid) eqn:E.
    + apply String.eqb_eq in E. subst s. assert (pl = p) by congruence. subst pl.
      destruct (Light_eqb (light g) Red) eqn:El; simpl;
        [destruct (eliminationPending g) eqn:Ep; simpl|];
        rewrite pget_pset_same; intros [= <-]; try apply ps_hold.
      apply ps_strike; simpl; auto.
      * now apply Phase_eqb_eq.
      * now apply Light_eqb_eq.
    + apply String.eqb_neq in E.
      destruct (Light_eqb (light g) Red && negb (eliminationPending g)); simpl;
        rewrite pget_pset_other by auto; rewrite G; intros [= <-]; constructor.
  - unfold execM. rewrite onHoldEnd_eq.
    destruct (pget s (players g)) as [pl|] eqn:Gs; simpl;
      [|rewrite G; intros [= <-]; constructor].
    destruct (String.eqb s sid) eqn:E.
    + apply String.eqb_eq in E. subst s. assert (pl = p) by congruence. subst pl.
      rewrite pget_pset_same; intros [= <-]. apply ps_release.
    + apply String.eqb_neq in E.
      rewrite pget_pset_other by auto; rewrite G; intros [= <-]; constructor.
  - unfold execM. rewrite onStartGame_eq.
    destruct (Phase_eqb (phase g) Lobby || Phase_eqb (phase g) GameOver); simpl;
      [|rewrite G; intros [= <-]; constructor].
    pose proof (players_startGame
                  (mkWorld (set_players (forEach pristine (players g)) g) pi ts nh)) as E.
    unfold execM in E. rewrite E. simpl. rewrite pget_forEach, G. simpl.
    intros [= <-]. apply ps_start.
  - unfold execM. rewrite resetGame_eq. simpl. rewrite pget_forEach, G. simpl.
    intros [= <-]. apply ps_reset.
  - unfold execM. rewrite onKickPlayer_eq. simpl.
    destruct (String.eqb k sid) eqn:E.
    + apply String.eqb_eq in E. subst k. rewrite pget_pdelete_same by auto. discriminate.
    + apply String.eqb_neq in E. rewrite pget_pdelete_other by auto.
      rewrite G; intros [= <-]; constructor.
  - unfold execM. rewrite onDisconnect_eq.
    destruct (pget s (players g)) as [pl|] eqn:Gs; simpl;
      [|rewrite G; intros [= <-]; constructor].
    destruct (String.eqb s sid) eqn:E.
    + apply String.eqb_eq in E. subst s. assert (pl = p) by congruence. subst pl.
      destruct (Phase_eqb (phase g) Lobby) eqn:Eph; simpl.
      * rewrite pget_pdelete_same by auto. discriminate.
      * rewrite pget_pset_same. intros [= <-]. apply ps_forfeit. simpl.
        intros F. rewrite F in Eph. discriminate.
    + apply String.eqb_neq in E.
      destruct (Phase_eqb (phase g) Lobby); simpl.
      * rewrite pget_pdelete_other by auto. rewrite G; intros [= <-]; constructor.
      * rewrite pget_pset_other by auto. rewrite G; intros [= <-]; constructor.
  - unfold execM. rewrite fire_eq.
    destruct (tget h ts) as [[| | | |count]|] eqn:T.
    + pose proof (players_progressTick now g pi ts nh) as E. unfold execM in E.
      rewrite E.
      destruct (Phase_eqb (phase g) Playing) eqn:Eph; simpl;
        [|rewrite G; intros [= <-]; constructor].
      destruct (Light_eqb (light g) Green) eqn:El; simpl;
        [|rewrite G; intros [= <-]; constructor].
      intros G'.
      destruct (tickRel_pget now _ _ sid p (tickPlayers_rel now (players g) 0%nat) G)
        as [q [Gq R]].
      assert (q = p') by congruence. subst q.
      apply (ps_tick _ _ _ h now p'); simpl; auto.
      * now apply Phase_eqb_eq.
      * now apply Light_eqb_eq.
    + pose proof (players_switchToRed (mkWorld g pi (tremove h ts) nh)) as E.
      unfold execM in E. rewrite E. simpl. rewrite G; intros [= <-]; constructor.
    + pose proof (players_eliminateHolders g pi (tremove h ts) nh) as E.
      unfold execM in E. rewrite E.
      destruct (Phase_eqb (phase g) Playing) eqn:Eph; simpl;
        [|rewrite G; intros [= <-]; constructor].
      destruct (Light_eqb (light g) Red) eqn:El; simpl;
        [|rewrite G; intros [= <-]; constructor].
      rewrite pget_forEach, G. simpl. intros [= <-].
      apply ps_sweep; simpl; auto.
      * now apply Phase_eqb_eq.
      * now apply Light_eqb_eq.
    + pose proof (players_switchToGreen (mkWorld g pi (tremove h ts) nh)) as E.
      unfold execM in E. rewrite E. simpl. rewrite G; intros [= <-]; constructor.
    + pose proof (players_countdownTick h count (mkWorld g pi ts nh)) as E.
      unfold execM in E. rewrite E. simpl. rewrite G; intros [= <-]; constructor.
    + simpl. rewrite G; intros [= <-]; constructor.
Qed.

(** ** Concrete runs *)

Lemma clock_positive k : 0 < clock k.
Proof. unfold clock. lia. Qed.

Lemma run_reachable tr : forall w,
  reachable w -> Forall admissible tr -> reachable (run w tr).
Proof.
  induction tr as [|e tr IH]; intros w Hw Ha; simpl; auto.
  inversion Ha; subst. apply IH; auto. now apply reach_step.
Qed.

Ltac admissible_trace :=
  repeat (apply Forall_cons; [first [exact I | exact clock_positive]|]);
  apply Forall_nil.

Lemma reachable_started : reachable (run initWorld traceStarted).
Proof. apply run_reachable; [apply reach_init|]. unfold traceStarted. admissible_trace. Qed.

Lemma reachable_red : reachable (run initWorld traceRed).
Proof.
  apply run_reachable; [apply reach_init|]. unfold traceRed, traceStarted. simpl app.
  admissible_trace.
Qed.

Lemma reachable_held : reachable (run initWorld traceHeld).
Proof.
  apply run_reachable; [apply reach_init|]. unfold traceHeld, traceStarted. simpl app.
  admissible_trace.
Qed.

(** ** C1: the immediate strike *)

(** The branch of [holdStart] that its comment describes ("If they start
    holding during red (after grace period), eliminate immediately"): where
    its guard holds, that is with phase playing, light red and
    [eliminationPending] false, the begin-hold of a registered, alive
    player marks that player not-alive before the handler returns, and
    announces the elimination. *)
Lemma holdStart_strike_branch w sid p :
  phase (game w) = Playing ->
  light (game w) = Red ->
  eliminationPending (game w) = false ->
  pget sid (players (game w)) = Some p ->
  alive p = true ->
  exists p',
    pget sid (players (game (step w (HoldStart sid)))) = Some p' /\
    alive p' = false /\ eliminated p' = true /\
    In (TV, MsgEliminations [(id p, name p)]) (output w (HoldStart sid)) /\
    In (Sock sid, MsgEliminated) (output w (HoldStart sid)).
Proof.
  destruct w as [g pi ts nh]. simpl. intros Eph El Ep G Al.
  unfold step, output, execM, outM. simpl handle. rewrite onHoldStart_eq.
  rewrite G, Al, Eph, El, Ep. simpl.
  exists (strike (set_holding true p)). rewrite pget_pset_same.
  repeat split; auto.
Qed.

(** But on every run of the server the light is red during play only
    while the grace flag is up: [switchToRed] raises [eliminationPending],
    [eliminateHolders] leaves it as it is when the grace period is over,
    and only [switchToGreen] lowers it.  The guard of the strike branch is
    never true. *)
Theorem playing_red_pending w :
  reachable w -> phase (game w) = Playing -> light (game w) = Red ->
  eliminationPending (game w) = true.
Proof. intros H. apply (inv_pending _ (reachable_Inv _ H)). Qed.

Lemma reachable_lateRed : reachable (run initWorld traceLateRed).
Proof.
  apply run_reachable; [apply reach_init|].
  unfold traceLateRed, traceRed, traceStarted. simpl app. admissible_trace.
Qed.

Lemma lateRed_state :
  let w := run initWorld traceLateRed in
  let w' := step w (HoldStart "b") in
  (phase (game w) = Playing /\ light (game w) = Red /\
   tget 4%nat (timers w) = None /\
   timers w = [(2%nat, CbProgress); (5%nat, CbSwitchToGreen)] /\
   eliminationPending (game w) = true /\
   pget "b" (players (game w)) = Some (mkPlayer "b" "Bob" 0 true false false None)) /\
  (pget "b" (players (game w')) = Some (mkPlayer "b" "Bob" 0 true true false None) /\
   players (game w')
   = pset "b" (mkPlayer "b" "Bob" 0 true true false None) (players (game w)) /\
   phase (game w') = Playing /\ light (game w') = Red /\
   output w (HoldStart "b") = []).
Proof. vm_compute. repeat split. Qed.

(** C1. A grab made while the light is red and the grace period is over
    is not struck: the immediate strike does not happen.  In the run
    [traceLateRed] the light has turned red and the grace timer (handle 4)
    has fired with nobody holding, so the grace period is over: that timer
    is no longer pending and the next [switchToGreen] (handle 5) is
    scheduled.  The phase is playing, the light is red, and player b is
    registered and alive.  Yet [eliminationPending] is still true, and the
    begin-hold that b sends now is not fatal: it raises b's holding flag
    and nothing else, b stays alive and not eliminated, nobody else
    changes, and no message is sent. *)
Theorem C1_late_grab_is_not_struck :
  let w := run initWorld traceLateRed in
  let w' := step w (HoldStart "b") in
  reachable w /\
  phase (game w) = Playing /\ light (game w) = Red /\
  tget 4%nat (timers w) = None /\
  timers w = [(2%nat, CbProgress); (5%nat, CbSwitchToGreen)] /\
  eliminationPending (game w) = true /\
  pget "b" (players (game w)) = Some (mkPlayer "b" "Bob" 0 true false false None) /\
  pget "b" (players (game w')) = Some (mkPlayer "b" "Bob" 0 true true false None) /\
  (forall sid, sid <> "b" ->
     pget sid (players (game w')) = pget sid (players (game w))) /\
  phase (game w') = Playing /\ light (game w') = Red /\
  output w (HoldStart "b") = [].
Proof.
  pose proof lateRed_state as H. cbv zeta in H |- *.
  destruct H as [(A1 & A2 & A3 & A4 & A5 & A6) (B1 & B2 & B3 & B4 & B5)].
  split; [exact reachable_lateRed|].
  split; [exact A1|]. split; [exact A2|]. split; [exact A3|]. split; [exact A4|].
  split; [exact A5|]. split; [exact A6|]. split; [exact B1|].
  split; [|split; [exact B3|split; [exact B4|exact B5]]].
  intros sid N. rewrite B2. apply pget_pset_other. congruence.
Qed.

(** ** C2: a hold begun inside the grace window *)

Lemma sweepPlayer_alive p : alive (sweepPlayer p) = alive p && negb (holding p).
Proof.
  unfold sweepPlayer.
  destruct (alive p) eqn:A, (holding p) eqn:H; simpl; rewrite ?A; reflexivity.
Qed.

Lemma tickRel_alive now k p p' : tickRel now (k, p) (k, p') -> alive p' = alive p.
Proof.
  intros [_ R]. simpl in R.
  destruct (eligible p); [destruct (crosses p)|].
  - destruct R as [j ->]. reflexivity.
  - now rewrite R.
  - now rewrite R.
Qed.

(** C2 as stated fails on the code: b grabs inside the grace window and
    then disconnects.  The disconnect marks b not-alive while the grace
    timer (handle 4) is still pending: b was not marked by the sweep. *)
Lemma C2_counterexample :
  let w := run initWorld traceRed in
  let w1 := step w (HoldStart "b") in
  let w2 := step w1 (Disconnect "b") in
  phase (game w) = Playing /\ light (game w) = Red /\
  eliminationPending (game w) = true /\
  option_map alive (pget "b" (players (game w))) = Some true /\
  option_map alive (pget "b" (players (game w1))) = Some true /\
  tget 4%nat (timers w1) = Some CbEliminateHolders /\
  option_map alive (pget "b" (players (game w2))) = Some false /\
  tget 4%nat (timers w2) = Some CbEliminateHolders.
Proof. vm_compute. repeat split. Qed.

(** C2, amended.  In a reachable state with phase playing, light red and
    the grace flag up, a begin-hold of a registered player p changes
    nobody's alive flag and announces nothing: it only raises p's holding
    flag when p is alive, and does nothing when p is not.  Whatever happens
    next, an event that makes an alive p not-alive is either p's own
    disconnect outside the lobby, which also lowers p's holding flag, or
    the grace-period sweep, and then p is holding when it fires. *)
Theorem C2_hold_in_grace_window w sid p :
  reachable w ->
  phase (game w) = Playing ->
  light (game w) = Red ->
  eliminationPending (game w) = true ->
  pget sid (players (game w)) = Some p ->
  pget sid (players (game (step w (HoldStart sid))))
  = Some (if alive p then set_holding true p else p) /\
  alive (if alive p then set_holding true p else p) = alive p /\
  output w (HoldStart sid) = [] /\
  (forall sid', sid' <> sid ->
     pget sid' (players (game (step w (HoldStart sid)))) = pget sid' (players (game w))) /\
  (forall w2 e q q',
     reachable w2 -> admissible e ->
     pget sid (players (game w2)) = Some q -> alive q = true ->
     pget sid (players (game (step w2 e))) = Some q' -> alive q' = false ->
     (e = Disconnect sid /\ phase (game w2) <> Lobby /\ holding q' = false) \/
     (exists h now,
        e = TimerFires h now /\
        tget h (timers w2) = Some CbEliminateHolders /\
        phase (game w2) = Playing /\ light (game w2) = Red /\
        holding q = true)).
Proof.
  intros Hr Eph El Ep G. split; [|split; [|split; [|split]]].
  - destruct w as [g pi ts nh]. simpl in *.
    unfold step, execM. simpl handle. rewrite onHoldStart_eq.
    rewrite G, Eph, El, Ep. destruct (alive p); simpl; auto.
    apply pget_pset_same.
  - destruct (alive p) eqn:A; auto.
  - destruct w as [g pi ts nh]. simpl in *.
    unfold output, outM. simpl handle. rewrite onHoldStart_eq.
    rewrite G, Eph, El, Ep. destruct (alive p); reflexivity.
  - intros sid' N. destruct w as [g pi ts nh]. simpl in *.
    unfold step, execM. simpl handle. rewrite onHoldStart_eq.
    rewrite G, Eph, El, Ep. destruct (alive p); simpl; auto.
    apply pget_pset_other. congruence.
  - intros w2 e q q' Hr2 Ha Gq Alq Gq' Alq'.
    pose proof (reachable_Inv _ Hr2) as Hinv.
    pose proof (step_playerStep w2 e sid q q' (inv_nodup _ Hinv) Gq Gq') as PS.
    inversion PS; subst; simpl in *; try congruence.
    + match goal with
      | A : phase (game w2) = Playing, B : light (game w2) = Red |- _ =>
          pose proof (inv_pending _ Hinv A B)
      end. congruence.
    + left. repeat split; auto.
    + right. exists h, now. repeat split; auto.
      rewrite sweepPlayer_alive, Alq in Alq'. simpl in Alq'.
      now apply negb_false_iff in Alq'.
    + match goal with R : tickRel _ _ _ |- _ => apply tickRel_alive in R end.
      congruence.
Qed.

Lemma red_state :
  phase (game (run initWorld traceRed)) = Playing /\
  light (game (run initWorld traceRed)) = Red /\
  eliminationPending (game (run initWorld traceRed)) = true /\
  pget "a" (players (game (run initWorld traceRed)))
  = Some (mkPlayer "a" "Ann" 0 true false false None).
Proof. vm_compute. repeat split. Qed.

Lemma grabbed_then_swept :
  let w1 := step (run initWorld traceRed) (HoldStart "a") in
  pget "a" (players (game w1)) = Some (mkPlayer "a" "Ann" 0 true true false None) /\
  pget "a" (players (game (step w1 (TimerFires 4%nat clock))))
  = Some (mkPlayer "a" "Ann" 0 false true true None).
Proof. vm_compute. repeat split. Qed.

Lemma C2_hold_in_grace_window_witness :
  let w1 := step (run initWorld traceRed) (HoldStart "a") in
  (pget "a" (players (game w1)) = Some (mkPlayer "a" "Ann" 0 true true false None) /\
   output (run initWorld traceRed) (HoldStart "a") = []) /\
  ((TimerFires 4%nat clock = Disconnect "a" /\
    phase (game w1) <> Lobby /\
    holding (mkPlayer "a" "Ann" 0 false true true None) = false) \/
   (exists h now,
      TimerFires 4%nat clock = TimerFires h now /\
      tget h (timers w1) = Some CbEliminateHolders /\
      phase (game w1) = Playing /\ light (game w1) = Red /\
      holding (mkPlayer "a" "Ann" 0 true true false None) = true)).
Proof.
  cbv zeta.
  destruct red_state as (H1 & H2 & H3 & H4).
  pose proof grabbed_then_swept as K. cbv zeta in K. destruct K as (K1 & K2).
  destruct (C2_hold_in_grace_window (run initWorld traceRed) "a" _
              reachable_red H1 H2 H3 H4) as (A & _ & B & _ & C).
  split.
  - split; [exact A | exact B].
  - exact (C (step (run initWorld traceRed) (HoldStart "a")) (TimerFires 4%nat clock)
             (mkPlayer "a" "Ann" 0 true true false None)
             (mkPlayer "a" "Ann" 0 false true true None)
             (reach_step _ (HoldStart "a") reachable_red I) clock_positive
             K1 eq_refl K2 eq_refl).
Defined.

(** ** C9: finishing and being swept exclude each other *)

(** C9. On every run, when the grace-period sweep marks a player
    not-alive, that player's [finishedAt] is null before and after the
    sweep; indeed no registered player has a non-null [finishedAt] in any
    state in which the sweep acts, because the tick in which a player
    finishes ends the match. *)
Theorem C9_swept_never_finished w h now sid p p' :
  reachable w ->
  tget h (timers w) = Some CbEliminateHolders ->
  pget sid (players (game w)) = Some p ->
  alive p = true ->
  pget sid (players (game (step w (TimerFires h now)))) = Some p' ->
  alive p' = false ->
  finishedAt p = None /\ finishedAt p' = None /\
  (forall k q, In (k, q) (players (game w)) -> finishedAt q = None).
Proof.
  intros Hr T G Al G' Al'.
  pose proof (reachable_Inv _ Hr) as Hinv.
  pose proof (step_playerStep w _ sid p p' (inv_nodup _ Hinv) G G') as PS.
  assert (Eph : phase (game w) = Playing).
  { inversion PS; subst; congruence. }
  assert (Hall : forall k q, In (k, q) (players (game w)) -> finishedAt q = None).
  { intros k q I. destruct (inv_players _ Hinv k q I) as (_ & _ & _ & _ & F).
    apply F. rewrite Eph. discriminate. }
  assert (Hp : finishedAt p = None) by (apply (Hall sid), pget_In, G).
  repeat split; auto.
  inversion PS; subst; try congruence.
  unfold sweepPlayer. destruct (alive p && holding p); simpl; auto.
Qed.

Lemma C9_swept_never_finished_witness :
  finishedAt (mkPlayer "a" "Ann" 0 true true false None) = None /\
  finishedAt (mkPlayer "a" "Ann" 0 false true true None) = None /\
  (forall k q, In (k, q) (players (game (run initWorld traceHeld))) ->
               finishedAt q = None).
Proof.
  apply (C9_swept_never_finished (run initWorld traceHeld) 4%nat clock "a"
           (mkPlayer "a" "Ann" 0 true true false None)
           (mkPlayer "a" "Ann" 0 false true true None)
           reachable_held); reflexivity.
Defined.

(** ** C3: progress never decreases and never passes the threshold *)

Lemma holdOrTimer_admissible e : holdOrTimer e -> admissible e.
Proof. destruct e; simpl; auto. Qed.

Lemma pget_Some_keys sid m p : pget sid m = Some p -> In sid (keys m).
Proof.
  intros H. apply pget_In in H. unfold keys. apply in_map_iff.
  exists (sid, p). auto.
Qed.

Lemma keys_pget sid m : In sid (keys m) -> exists p, pget sid m = Some p.
Proof.
  induction m as [|[k q] r IH]; simpl; [tauto|].
  destruct (String.eqb sid k) eqn:E; [eauto|].
  apply String.eqb_neq in E. intros [F|F]; [congruence|auto].
Qed.

Lemma keys_step_holdOrTimer w e :
  holdOrTimer e -> keys (players (game (step w e))) = keys (players (game w)).
Proof.
  destruct w as [g pi ts nh]. unfold step.
  destruct e as [s|s nm|s|s|s|s|s k|s|h now]; simpl; try tauto; intros _.
  - unfold execM. rewrite onHoldStart_eq.
    destruct (pget s (players g)) as [pl|] eqn:G; auto.
    destruct (negb (alive pl) || negb (Phase_eqb (phase g) Playing)); auto.
    destruct (Light_eqb (light g) Red && negb (eliminationPending g)); simpl;
      eapply keys_pset_present; eauto.
  - unfold execM. rewrite onHoldEnd_eq.
    destruct (pget s (players g)) as [pl|] eqn:G; auto.
    simpl. eapply keys_pset_present; eauto.
  - unfold execM. rewrite fire_eq.
    destruct (tget h ts) as [[| | | |count]|] eqn:T; auto.
    + pose proof (players_progressTick now g pi ts nh) as E. unfold execM in E.
      rewrite E. destruct (_ && _); auto.
      apply (tickRel_keys now), tickPlayers_rel.
    + pose proof (players_switchToRed (mkWorld g pi (tremove h ts) nh)) as E.
      unfold execM in E. now rewrite E.
    + pose proof (players_eliminateHolders g pi (tremove h ts) nh) as E.
      unfold execM in E. rewrite E. destruct (_ && _); auto. apply keys_forEach.
    + pose proof (players_switchToGreen (mkWorld g pi (tremove h ts) nh)) as E.
      unfold execM in E. now rewrite E.
    + pose proof (players_countdownTick h count (mkWorld g pi ts nh)) as E.
      unfold execM in E. now rewrite E.
Qed.

Lemma sweepPlayer_progress p : progress (sweepPlayer p) = progress p.
Proof. unfold sweepPlayer. destruct (alive p && holding p); reflexivity. Qed.

Lemma tickRel_progress now k p p' :
  tickRel now (k, p) (k, p') ->
  progress p' = if eligible p then progress (advanced p) else progress p.
Proof.
  intros [_ R]. simpl in R.
  destruct (eligible p); [destruct (crosses p)|].
  - destruct R as [j ->]. reflexivity.
  - now rewrite R.
  - now rewrite R.
Qed.

Lemma step_progress w e sid p :
  reachable w -> holdOrTimer e -> pget sid (players (game w)) = Some p ->
  exists p',
    pget sid (players (game (step w e))) = Some p' /\
    (progress p <= progress p')%Q /\ (progress p' <= progressToWin)%Q.
Proof.
  intros Hr He G.
  pose proof (reachable_Inv _ Hr) as Hinv.
  assert (Hr' : reachable (step w e)).
  { apply reach_step; auto. now apply holdOrTimer_admissible. }
  pose proof (reachable_Inv _ Hr') as Hinv'.
  destruct (keys_pget sid (players (game (step w e)))) as [p' G'].
  { rewrite keys_step_holdOrTimer by auto. eapply pget_Some_keys; eauto. }
  exists p'. split; auto.
  destruct (inv_players _ Hinv' sid p' (pget_In _ _ _ G')) as (_ & [_ B'] & _).
  destruct (inv_players _ Hinv sid p (pget_In _ _ _ G)) as (_ & [_ B] & _).
  split; auto.
  pose proof (step_playerStep w e sid p p' (inv_nodup _ Hinv) G G') as PS.
  inversion PS; subst; simpl in He; try tauto; simpl; try apply Qle_refl.
  - rewrite sweepPlayer_progress. apply Qle_refl.
  - match goal with R : tickRel _ _ _ |- _ => rewrite (tickRel_progress _ _ _ _ R) end.
    destruct (eligible p); [now apply advanced_ge | apply Qle_refl].
Qed.

(** C3. From any reachable state, along any sequence of begin-hold and
    end-hold events and timer firings, a registered player stays
    registered, the player's progress never decreases and never exceeds
    [progressToWin].  A firing of the progress interval sets the progress
    to min(progressToWin, progress + progressRate) exactly when the phase
    is playing, the light is green and the player is alive, holding and not
    finished, and leaves it alone otherwise; no other such event changes
    it. *)
Theorem C3_progress_monotone_bounded w tr sid p :
  reachable w ->
  Forall holdOrTimer tr ->
  pget sid (players (game w)) = Some p ->
  (exists p',
     pget sid (players (game (run w tr))) = Some p' /\
     (progress p <= progress p')%Q /\ (progress p' <= progressToWin)%Q) /\
  (forall h now,
     tget h (timers w) = Some CbProgress ->
     exists p',
       pget sid (players (game (step w (TimerFires h now)))) = Some p' /\
       progress p' =
         if Phase_eqb (phase (game w)) Playing && Light_eqb (light (game w)) Green
            && (alive p && holding p && negb (truthy (finishedAt p)))
         then Qmin progressToWin (progress p + progressRate)
         else progress p) /\
  (forall e p',
     holdOrTimer e ->
     (forall h now, e = TimerFires h now -> tget h (timers w) <> Some CbProgress) ->
     pget sid (players (game (step w e))) = Some p' ->
     progress p' = progress p).
Proof.
  intros Hr Htr G. split; [|split].
  - revert w p Hr G. induction Htr as [|e tr He Htr IH]; intros w p Hr G; simpl.
    + exists p. split; auto. split; [apply Qle_refl|].
      apply (inv_players _ (reachable_Inv _ Hr) sid p (pget_In _ _ _ G)).
    + destruct (step_progress w e sid p Hr He G) as [p1 [G1 [L1 _]]].
      destruct (IH (step w e) p1) as [p' [G' [L' B']]]; auto.
      { apply reach_step; auto. now apply holdOrTimer_admissible. }
      exists p'. split; auto. split; auto. eapply Qle_trans; eauto.
  - intros h now T. destruct w as [g pi ts nh]. simpl in *.
    unfold step, execM. simpl handle. rewrite fire_eq, T.
    pose proof (players_progressTick now g pi ts nh) as E. unfold execM in E.
    rewrite E.
    destruct (Phase_eqb (phase g) Playing && Light_eqb (light g) Green); simpl; eauto.
    destruct (tickRel_pget now _ _ sid p (tickPlayers_rel now (players g) 0%nat) G)
      as [q [Gq R]].
    exists q. split; auto. rewrite (tickRel_progress _ _ _ _ R).
    unfold eligible. destruct (alive p && holding p && negb (truthy (finishedAt p)));
      reflexivity.
  - intros e p' He Hnt G'.
    pose proof (step_playerStep w e sid p p'
                  (inv_nodup _ (reachable_Inv _ Hr)) G G') as PS.
    inversion PS; subst; simpl in He; try tauto; auto.
    + apply sweepPlayer_progress.
    + exfalso. eapply Hnt; eauto.
Qed.

Lemma reachable_holding : reachable (run initWorld traceHolding).
Proof.
  apply run_reachable; [apply reach_init|]. unfold traceHolding, traceStarted.
  simpl app. admissible_trace.
Qed.

Lemma traceTicks_ok : Forall holdOrTimer traceTicks.
Proof.
  unfold traceTicks.
  repeat (apply Forall_cons; [first [exact I | exact clock_positive]|]).
  apply Forall_nil.
Qed.

Lemma holding_lookup :
  pget "a" (players (game (run initWorld traceHolding)))
  = Some (mkPlayer "a" "Ann" 0 true true false None).
Proof. vm_compute. reflexivity. Qed.

Lemma C3_progress_monotone_bounded_witness :
  exists p',
    pget "a" (players (game (run (run initWorld traceHolding) traceTicks))) = Some p' /\
    (progress (mkPlayer "a" "Ann" 0 true true false None) <= progress p')%Q /\
    (progress p' <= progressToWin)%Q.
Proof.
  destruct (C3_progress_monotone_bounded (run initWorld traceHolding) traceTicks "a"
              (mkPlayer "a" "Ann" 0 true true false None)
              reachable_holding traceTicks_ok holding_lookup) as [H _].
  exact H.
Defined.

(** ** C4: the grace-period sweep and the end of the match *)

Lemma In_phoneMsgs g x : In x (phoneMsgs g) -> exists s m, x = (Sock s, m).
Proof.
  unfold phoneMsgs. rewrite in_map_iff. intros [p [<- _]]. eauto.
Qed.

Lemma no_gameOver_allMsgs g : ~ announcesGameOver (allMsgs g).
Proof.
  intros [win [r [H|H]]]; [discriminate|].
  apply In_phoneMsgs in H. destruct H as [s [m H]]. discriminate.
Qed.

Lemma no_gameOver_batchMsgs g : ~ announcesGameOver (batchMsgs g).
Proof.
  unfold batchMsgs. intros [win [r H]].
  destruct (negb _); [|destruct H].
  destruct H as [H|H]; [discriminate|].
  apply in_map_iff in H. destruct H as [e [H _]]. discriminate.
Qed.

(** What [eliminateHolders] does when the grace timer fires, by the number
    of players [getAlivePlayers] returns after the sweep. *)
Lemma eliminateHolders_resolution w h now :
  phase (game w) = Playing ->
  light (game w) = Red ->
  tget h (timers w) = Some CbEliminateHolders ->
  let w' := step w (TimerFires h now) in
  let o := output w (TimerFires h now) in
  players (game w') = forEach sweepPlayer (players (game w)) /\
  (forall p, sweepPlayer p =
             if alive p && holding p then set_eliminated true (set_alive false p) else p) /\
  match getAlivePlayers (game w') with
  | [] =>
      phase (game w') = GameOver /\
      (forall winner roster, In (TV, MsgGameOver winner roster) o -> winner = None) /\
      announcesGameOver o
  | [survivor] =>
      phase (game w') = GameOver /\
      (forall winner roster, In (TV, MsgGameOver winner roster) o ->
                             winner = Some (id survivor, name survivor)) /\
      announcesGameOver o
  | _ :: _ :: _ =>
      phase (game w') = Playing /\
      ~ announcesGameOver o /\
      exists h', lightTimer (game w') = Some h' /\
                 In (h', CbSwitchToGreen) (timers w')
  end.
Proof.
  destruct w as [g pi ts nh]. simpl. intros Eph El T.
  unfold step, output, execM, outM. simpl handle. rewrite fire_eq, T.
  rewrite eliminateHolders_eq, Eph, El. simpl negb. simpl orb. cbv iota.
  assert (Hplayers : forall win,
            players (game (execM (endGame win) (mkWorld (swept g) pi (tremove h ts) nh)))
            = forEach sweepPlayer (players g)).
  { intros win. now rewrite players_endGame. }
  assert (Hover : forall win,
            let o := batchMsgs g ++ allMsgs (swept g)
                       ++ outM (endGame win) (mkWorld (swept g) pi (tremove h ts) nh) in
            (forall winner roster,
               In (TV, MsgGameOver winner roster) o ->
               winner = match win with Some p => Some (id p, name p) | None => None end)
            /\ announcesGameOver o).
  { intros win. unfold outM. rewrite endGame_eq. simpl. split.
    - intros winner roster I.
      apply in_app_or in I. destruct I as [I|I].
      { exfalso. apply (no_gameOver_batchMsgs g). red. eauto. }
      destruct I as [I|I]; [discriminate|].
      apply in_app_or in I. destruct I as [I|I].
      { apply In_phoneMsgs in I. destruct I as [s [m I]]. discriminate. }
      destruct I as [I|I]; [injection I; auto|].
      apply In_phoneMsgs in I. destruct I as [s [m I]]. discriminate.
    - exists (match win with Some p => Some (id p, name p) | None => None end).
      eexists. apply in_or_app. right. right. apply in_or_app. right. left.
      reflexivity. }
  destruct (getAlivePlayers (swept g)) as [|s [|s2 r]] eqn:A.
  - cbn [fst snd]. rewrite Hplayers.
    change (set_players (forEach sweepPlayer (players g)) g) with (swept g) in A.
    split; auto. split; [reflexivity|].
    unfold getAlivePlayers in *. rewrite Hplayers.
    change (players (swept g)) with (forEach sweepPlayer (players g)) in A.
    rewrite A. split; [unfold execM; rewrite endGame_eq; reflexivity|].
    apply (Hover None).
  - cbn [fst snd]. rewrite Hplayers.
    split; auto. split; [reflexivity|].
    unfold getAlivePlayers in *. rewrite Hplayers.
    change (players (swept g)) with (forEach sweepPlayer (players g)) in A.
    rewrite A. split; [unfold execM; rewrite endGame_eq; reflexivity|].
    apply (Hover (Some s)).
  - cbn [fst snd game players set_lightTimer swept set_players].
    split; auto. split; [reflexivity|].
    unfold getAlivePlayers in *. simpl in A. simpl. rewrite A.
    split; auto. split.
    + intros [win [ro I]]. apply in_app_or in I. destruct I as [I|I].
      * apply (no_gameOver_batchMsgs g). red. eauto.
      * apply (no_gameOver_allMsgs (swept g)). red. eauto.
    + exists nh. split; auto. apply in_or_app. right. now left.
Qed.

(** The survivors that [getAlivePlayers] returns, read off the Map. *)
Lemma nobody_alive ps :
  (forall k p, In (k, p) ps -> alive p = false) -> filter alive (values ps) = [].
Proof.
  induction ps as [|[k p] r IH]; simpl; intros H; auto.
  rewrite (H k p) by now left. apply IH. intros k' p' I. apply (H k' p'). now right.
Qed.

Lemma values_app (m1 m2 : Registry) : values (m1 ++ m2) = values m1 ++ values m2.
Proof. unfold values. apply map_app. Qed.

Lemma one_alive m1 k s m2 :
  alive s = true ->
  (forall k' p', In (k', p') (m1 ++ m2) -> alive p' = false) ->
  filter alive (values (m1 ++ (k, s) :: m2)) = [s].
Proof.
  intros A H. rewrite values_app, filter_app. simpl. rewrite A.
  rewrite !nobody_alive; auto.
  - intros k' p' I. apply (H k' p'). apply in_or_app. now right.
  - intros k' p' I. apply (H k' p'). apply in_or_app. now left.
Qed.

Lemma two_alive m1 k1 p1 m2 k2 p2 m3 :
  alive p1 = true -> alive p2 = true ->
  exists x y r,
    filter alive (values (m1 ++ (k1, p1) :: m2 ++ (k2, p2) :: m3)) = x :: y :: r.
Proof.
  intros A1 A2. rewrite values_app, filter_app. simpl. rewrite A1.
  rewrite values_app, filter_app. simpl. rewrite A2.
  destruct (filter alive (values m1)) as [|x [|y r]]; simpl; eauto.
  destruct (filter alive (values m2)) as [|y r]; simpl; eauto.
Qed.

(** The projections of a swept player. *)
Lemma sweepPlayer_fields p :
  alive (sweepPlayer p) = alive p && negb (holding p) /\
  eliminated (sweepPlayer p) = eliminated p || (alive p && holding p) /\
  id (sweepPlayer p) = id p /\ name (sweepPlayer p) = name p /\
  progress (sweepPlayer p) = progress p /\ holding (sweepPlayer p) = holding p /\
  finishedAt (sweepPlayer p) = finishedAt p.
Proof.
  unfold sweepPlayer.
  destruct p as [i n pr al ho el fa]; destruct al, ho, el; simpl; repeat split.
Qed.

(** The elimination batch and its messages. *)
Lemma In_batchOf g i n :
  In (i, n) (batchOf g) <->
  exists k p, In (k, p) (players g) /\ id p = i /\ name p = n /\
              alive p = true /\ holding p = true.
Proof.
  unfold batchOf. rewrite in_map_iff. split.
  - intros [p [[= <- <-] I]]. apply filter_In in I. destruct I as [I B].
    apply andb_true_iff in B. apply In_values in I. destruct I as [k I].
    exists k, p. tauto.
  - intros (k & p & I & <- & <- & A & H). exists p. split; auto.
    apply filter_In. split; [|now rewrite A, H].
    unfold values. apply in_map_iff. exists (k, p). auto.
Qed.

Lemma In_batchMsgs g x :
  In x (batchMsgs g) <->
  batchOf g <> [] /\
  (x = (TV, MsgEliminations (batchOf g)) \/
   exists i n, In (i, n) (batchOf g) /\ x = (Sock i, MsgEliminated)).
Proof.
  unfold batchMsgs. destruct (batchOf g) as [|b r] eqn:E; simpl.
  - split; [tauto | intros [N _]; congruence].
  - split.
    + intros [<-|[<-|I]]; (split; [discriminate|]); auto.
      * right. exists (fst b), (snd b). destruct b; auto.
      * right. apply in_map_iff in I. destruct I as [[i n] [<- I]]. eauto.
    + intros [_ [->|(i & n & I & ->)]]; [now left|].
      destruct I as [->|I]; [right; left; reflexivity|].
      right. right. apply in_map_iff. exists (i, n). auto.
Qed.

Lemma noElimination_phoneMsgs g : Forall noElimination (phoneMsgs g).
Proof.
  unfold phoneMsgs. apply Forall_forall. intros x I.
  apply in_map_iff in I. destruct I as [p [<- _]]. split; intros; discriminate.
Qed.

Lemma noElimination_allMsgs g : Forall noElimination (allMsgs g).
Proof.
  constructor; [split; intros; discriminate | apply noElimination_phoneMsgs].
Qed.

Lemma noElimination_endGame winner w : Forall noElimination (outM (endGame winner) w).
Proof.
  destruct w. unfold outM. rewrite endGame_eq. simpl.
  constructor; [split; intros; discriminate | apply noElimination_phoneMsgs].
Qed.

Lemma eliminateHolders_output w h now :
  phase (game w) = Playing ->
  light (game w) = Red ->
  tget h (timers w) = Some CbEliminateHolders ->
  exists rest,
    output w (TimerFires h now) = batchMsgs (game w) ++ rest /\
    Forall noElimination rest.
Proof.
  destruct w as [g pi ts nh]. simpl. intros Eph El T.
  unfold output, outM. simpl handle. rewrite fire_eq, T.
  rewrite eliminateHolders_eq, Eph, El. simpl negb. simpl orb. cbv iota.
  destruct (getAlivePlayers (swept g)) as [|s [|s2 r]]; cbn [fst snd];
    eexists; (split; [reflexivity|]).
  - apply Forall_app. split; [apply noElimination_allMsgs | apply noElimination_endGame].
  - apply Forall_app. split; [apply noElimination_allMsgs | apply noElimination_endGame].
  - apply noElimination_allMsgs.
Qed.

Lemma eliminateHolders_light w h now :
  phase (game w) = Playing ->
  light (game w) = Red ->
  tget h (timers w) = Some CbEliminateHolders ->
  light (game (step w (TimerFires h now))) = Red.
Proof.
  destruct w as [g pi ts nh]. simpl. intros Eph El T.
  unfold step, execM. simpl handle. rewrite fire_eq, T.
  rewrite eliminateHolders_eq, Eph, El. simpl negb. simpl orb. cbv iota.
  destruct (getAlivePlayers (swept g)) as [|s [|s2 r]]; cbn [fst snd].
  - unfold execM. rewrite endGame_eq. reflexivity.
  - unfold execM. rewrite endGame_eq. reflexivity.
  - exact El.
Qed.

(** C4. When the grace timer fires in phase playing with the light red:

    - the sweep: the Map keeps its keys, and the player under each key
      becomes not-alive exactly when alive and holding ([alive] goes to
      [alive && not holding]); such a player is also marked eliminated; id,
      name, progress, holding flag and [finishedAt] of everybody are
      untouched;
    - the batch: every alive, holding player is listed in an eliminations
      message to the display and is sent [eliminated]; nobody else is
      listed or sent that;
    - no player alive afterwards: the match is over and the winner
      announced is null;
    - exactly one player alive afterwards: the match is over and that
      player is the winner announced;
    - two or more alive afterwards: the phase stays playing, the light
      stays red, no game over is announced, and a [switchToGreen] timeout
      is pending under [lightTimer]. *)
Theorem C4_sweep_and_resolution w h now :
  phase (game w) = Playing ->
  light (game w) = Red ->
  tget h (timers w) = Some CbEliminateHolders ->
  let w' := step w (TimerFires h now) in
  let o := output w (TimerFires h now) in
  keys (players (game w')) = keys (players (game w)) /\
  (forall sid p,
     pget sid (players (game w)) = Some p ->
     exists p',
       pget sid (players (game w')) = Some p' /\
       alive p' = alive p && negb (holding p) /\
       eliminated p' = eliminated p || (alive p && holding p) /\
       id p' = id p /\ name p' = name p /\ progress p' = progress p /\
       holding p' = holding p /\ finishedAt p' = finishedAt p) /\
  (forall k p,
     In (k, p) (players (game w)) -> alive p = true -> holding p = true ->
     In (Sock (id p), MsgEliminated) o /\
     exists batch, In (TV, MsgEliminations batch) o /\ In (id p, name p) batch) /\
  (forall batch i n,
     In (TV, MsgEliminations batch) o -> In (i, n) batch ->
     exists k p, In (k, p) (players (game w)) /\ id p = i /\ name p = n /\
                 alive p = true /\ holding p = true) /\
  (forall s,
     In (Sock s, MsgEliminated) o ->
     exists k p, In (k, p) (players (game w)) /\ id p = s /\
                 alive p = true /\ holding p = true) /\
  ((forall k p', In (k, p') (players (game w')) -> alive p' = false) ->
   phase (game w') = GameOver /\
   announcesGameOver o /\
   (forall winner roster, In (TV, MsgGameOver winner roster) o -> winner = None)) /\
  (forall m1 k survivor m2,
     players (game w') = m1 ++ (k, survivor) :: m2 ->
     alive survivor = true ->
     (forall k' p', In (k', p') (m1 ++ m2) -> alive p' = false) ->
     phase (game w') = GameOver /\
     announcesGameOver o /\
     (forall winner roster, In (TV, MsgGameOver winner roster) o ->
                            winner = Some (id survivor, name survivor))) /\
  (forall m1 k1 p1 m2 k2 p2 m3,
     players (game w') = m1 ++ (k1, p1) :: m2 ++ (k2, p2) :: m3 ->
     alive p1 = true -> alive p2 = true ->
     phase (game w') = Playing /\ light (game w') = Red /\
     ~ announcesGameOver o /\
     exists h', lightTimer (game w') = Some h' /\
                In (h', CbSwitchToGreen) (timers w')).
Proof.
  intros Eph El T w' o.
  pose proof (eliminateHolders_resolution w h now Eph El T) as R.
  cbv zeta in R. fold w' o in R. destruct R as (Hp & _ & M).
  destruct (eliminateHolders_output w h now Eph El T) as (rest & Ho & Hrest).
  fold o in Ho. rewrite Forall_forall in Hrest.
  unfold getAlivePlayers in M.
  split; [rewrite Hp; apply keys_forEach|].
  split.
  { intros sid p G. exists (sweepPlayer p). split.
    - rewrite Hp, pget_forEach, G. reflexivity.
    - apply sweepPlayer_fields. }
  split.
  { intros k p I A H.
    assert (B : In (id p, name p) (batchOf (game w)))
      by (apply In_batchOf; exists k, p; auto).
    assert (N : batchOf (game w) <> []) by (intros E; rewrite E in B; destruct B).
    rewrite Ho. split.
    - apply in_or_app. left. apply In_batchMsgs. split; auto.
      right. exists (id p), (name p). auto.
    - exists (batchOf (game w)). split; auto.
      apply in_or_app. left. apply In_batchMsgs. auto. }
  split.
  { intros batch i n I B. rewrite Ho in I. apply in_app_or in I. destruct I as [I|I].
    - apply In_batchMsgs in I. destruct I as [_ [[= ->]|(i' & n' & _ & F)]];
        [|discriminate]. now apply In_batchOf.
    - exfalso. apply (proj1 (Hrest _ I) batch). reflexivity. }
  split.
  { intros s I. rewrite Ho in I. apply in_app_or in I. destruct I as [I|I].
    - apply In_batchMsgs in I. destruct I as [_ [F|(i & n & B & [= ->])]];
        [discriminate|].
      apply In_batchOf in B. destruct B as (k & p & B & E & _ & A & H).
      exists k, p. auto.
    - exfalso. apply (proj2 (Hrest _ I) s). reflexivity. }
  split.
  { intros H. rewrite (nobody_alive _ H) in M. tauto. }
  split.
  { intros m1 k survivor m2 E A H. rewrite E, (one_alive m1 k survivor m2 A H) in M.
    tauto. }
  intros m1 k1 p1 m2 k2 p2 m3 E A1 A2.
  destruct (two_alive m1 k1 p1 m2 k2 p2 m3 A1 A2) as (x & y & r & F).
  rewrite E, F in M. destruct M as (M1 & M2 & M3).
  repeat split; auto.
  now apply eliminateHolders_light.
Qed.

Lemma held_state :
  phase (game (run initWorld traceHeld)) = Playing /\
  light (game (run initWorld traceHeld)) = Red /\
  tget 4%nat (timers (run initWorld traceHeld)) = Some CbEliminateHolders.
Proof. vm_compute. repeat split. Qed.

Lemma swept_state :
  players (game (step (run initWorld traceHeld) (TimerFires 4%nat clock)))
  = [("a", mkPlayer "a" "Ann" 0 false true true None)]
      ++ ("b", mkPlayer "b" "Bob" 0 true false false None)
      :: [] ++ ("c", mkPlayer "c" "Cyd" 0 true false false None) :: [].
Proof. vm_compute. reflexivity. Qed.

Lemma ann_holds : pget "a" (players (game (run initWorld traceHeld)))
                  = Some (mkPlayer "a" "Ann" 0 true true false None).
Proof. vm_compute. reflexivity. Qed.

Lemma C4_sweep_and_resolution_witness :
  let w := run initWorld traceHeld in
  let w' := step w (TimerFires 4%nat clock) in
  let o := output w (TimerFires 4%nat clock) in
  (exists p',
     pget "a" (players (game w')) = Some p' /\
     alive p' = false /\ eliminated p' = true) /\
  (phase (game w') = Playing /\ light (game w') = Red /\
   ~ announcesGameOver o /\
   exists h', lightTimer (game w') = Some h' /\
              In (h', CbSwitchToGreen) (timers w')).
Proof.
  cbv zeta.
  destruct held_state as [H1 [H2 H3]].
  pose proof (C4_sweep_and_resolution (run initWorld traceHeld) 4%nat clock H1 H2 H3) as H.
  cbv zeta in H. destruct H as (_ & S & _ & _ & _ & _ & _ & R).
  split.
  - destruct (S "a" _ ann_holds) as (p' & G & A & E & _). exists p'. auto.
  - exact (R _ _ _ _ _ _ _ swept_state eq_refl eq_refl).
Defined.

(** ** C5: the winner is the first earliest finisher *)

Lemma sortByFinish_first l x rest :
  sortByFinish l = x :: rest ->
  exists l1 l2,
    l = l1 ++ x :: l2 /\
    (forall y, In y l1 -> stamp x < stamp y) /\
    (forall y, In y l2 -> stamp x <= stamp y).
Proof.
  revert x rest. induction l as [|a l IH]; intros x rest; simpl; [discriminate|].
  destruct (sortByFinish l) as [|y ys] eqn:S.
  - apply sortByFinish_nil in S. subst l. simpl. intros [= <- <-].
    exists [], []. repeat split; auto; intros z [].
  - destruct (IH y ys eq_refl) as [l1 [l2 [E [H1 H2]]]].
    simpl. destruct (stamp a - stamp y <=? 0) eqn:C.
    + apply Z.leb_le in C. intros [= <- <-].
      exists [], l. repeat split; auto; [intros z []|].
      intros z Iz. rewrite E in Iz. apply in_app_or in Iz.
      destruct Iz as [Iz|[<-|Iz]].
      * specialize (H1 z Iz). lia.
      * lia.
      * specialize (H2 z Iz). lia.
    + apply Z.leb_gt in C. intros [= <- <-].
      exists (a :: l1), l2. rewrite E. repeat split; auto.
      intros z [<-|Iz]; [lia|auto].
Qed.

Lemma filter_values_split (P : Player -> bool) ps :
  forall l1 x l2,
    filter P (values ps) = l1 ++ x :: l2 ->
    exists m1 k m2,
      ps = m1 ++ (k, x) :: m2 /\
      filter P (values m1) = l1 /\ filter P (values m2) = l2.
Proof.
  induction ps as [|[k0 p0] r IH]; intros l1 x l2; simpl.
  - destruct l1; discriminate.
  - destruct (P p0) eqn:E.
    + destruct l1 as [|y l1]; simpl.
      * intros [= <- <-]. exists [], k0, r. auto.
      * intros [= <- F]. destruct (IH _ _ _ F) as [m1 [k [m2 [-> [F1 F2]]]]].
        exists ((k0, p0) :: m1), k, m2. simpl. rewrite E, F1. auto.
    + intros F. destruct (IH _ _ _ F) as [m1 [k [m2 [-> [F1 F2]]]]].
      exists ((k0, p0) :: m1), k, m2. simpl. rewrite E, F1. auto.
Qed.

Lemma crosses_iff p :
  crosses p = true <-> (progressToWin <= progress p + progressRate)%Q.
Proof.
  unfold crosses. rewrite Qle_bool_iff. simpl. split; intros H.
  - eapply Qle_trans; [exact H|]. apply Q.le_min_r.
  - apply Q.min_glb; [apply Qle_refl | exact H].
Qed.

(** C5. On a progress tick (phase playing, light green) in which some
    alive, holding player reaches [progressToWin], the match ends and
    exactly one winner is announced: the first player, in the order of the
    registry, whose [finishedAt] is minimal among the non-null ones.  Every
    finisher before the winner in the registry has a strictly later
    timestamp; every finisher after has a later or equal one. *)
Theorem C5_first_earliest_finisher_wins w h now k0 p0 :
  reachable w ->
  (forall j, 0 < now j) ->
  phase (game w) = Playing ->
  light (game w) = Green ->
  tget h (timers w) = Some CbProgress ->
  In (k0, p0) (players (game w)) ->
  alive p0 = true -> holding p0 = true ->
  (progressToWin <= progress p0 + progressRate)%Q ->
  let w' := step w (TimerFires h now) in
  let o := output w (TimerFires h now) in
  exists m1 kw pw m2 t,
    players (game w') = m1 ++ (kw, pw) :: m2 /\
    finishedAt pw = Some t /\
    (forall k q t', In (k, q) m1 -> finishedAt q = Some t' -> t < t') /\
    (forall k q t', In (k, q) m2 -> finishedAt q = Some t' -> t <= t') /\
    phase (game w') = GameOver /\
    (forall winner roster, In (TV, MsgGameOver winner roster) o ->
                           winner = Some (id pw, name pw)) /\
    announcesGameOver o.
Proof.
  intros Hr Hnow Eph El T I0 Al Ho Cr w' o.
  assert (Hr' : reachable w') by (apply reach_step; auto).
  pose proof (reachable_Inv _ Hr) as Hinv.
  pose proof (reachable_Inv _ Hr') as Hinv'.
  assert (Hfin : someoneFinished now (game w) = true).
  { unfold someoneFinished. rewrite tickPlayers_flag. apply existsb_exists.
    exists (k0, p0). split; auto. simpl. apply andb_true_iff. split.
    - unfold eligible. rewrite Al, Ho. simpl.
      destruct (inv_players _ Hinv k0 p0 I0) as (_ & _ & _ & _ & F).
      rewrite F; [reflexivity | rewrite Eph; discriminate].
    - now apply crosses_iff. }
  subst w' o. destruct w as [g pi ts nh]. simpl in *.
  unfold step, output, execM, outM in *. simpl handle in *.
  rewrite fire_eq, T in *. rewrite progressTick_eq in *.
  rewrite Eph, El, Hfin in *. simpl negb in *. simpl orb in *. cbv iota in *.
  cbn [fst snd] in *. unfold execM, outM in *.
  rewrite checkForWinner_eq in *. simpl game in *.
  destruct (sortByFinish _) as [|first rest] eqn:S.
  { apply sortByFinish_nil in S. exfalso. revert S. now apply tick_finisher. }
  destruct (sortByFinish_first _ _ _ S) as [l1 [l2 [E [H1 H2]]]].
  destruct (filter_values_split _ _ _ _ _ E) as [m1 [kw [m2 [Eps [F1 F2]]]]].
  rewrite endGame_eq in *. cbn [fst snd game] in *.
  assert (Hfirst : truthy (finishedAt first) = true).
  { assert (In first (filter (fun p => truthy (finishedAt p))
                             (values (players (ticked now g))))).
    { rewrite E. apply in_or_app. right. now left. }
    apply filter_In in H. apply H. }
  destruct (finishedAt first) as [t|] eqn:Ft; [|discriminate].
  assert (Hstamp : stamp first = t) by (unfold stamp; now rewrite Ft).
  assert (Hin : forall m k q t',
            In (k, q) m -> (forall x, In x m -> In x (players (ticked now g))) ->
            finishedAt q = Some t' ->
            In q (filter (fun p => truthy (finishedAt p)) (values m)) /\ stamp q = t').
  { intros m k q t' Iq Sub Fq. split; [|unfold stamp; now rewrite Fq].
    apply filter_In. split.
    - unfold values. apply in_map_iff. exists (k, q). auto.
    - rewrite Fq. simpl.
      destruct (inv_players _ Hinv' k q) as (_ & _ & P & _).
      { simpl. apply Sub, Iq. }
      specialize (P t' Fq). destruct (t' =? 0) eqn:Z0; auto.
      apply Z.eqb_eq in Z0. lia. }
  exists m1, kw, first, m2, t.
  change (players (endedGame (ticked now g))) with (players (ticked now g)).
  repeat split; auto.
  - intros k q t' Iq Fq.
    destruct (Hin m1 k q t' Iq) as [Iq' Sq]; auto.
    { intros x Ix. rewrite Eps. apply in_or_app. now left. }
    rewrite F1 in Iq'. specialize (H1 q Iq'). lia.
  - intros k q t' Iq Fq.
    destruct (Hin m2 k q t' Iq) as [Iq' Sq]; auto.
    { intros x Ix. rewrite Eps. apply in_or_app. right. now right. }
    rewrite F2 in Iq'. specialize (H2 q Iq'). lia.
  - intros winner roster I.
    apply in_app_or in I. destruct I as [I|I].
    { exfalso. apply (no_gameOver_allMsgs (ticked now g)). red. eauto. }
    destruct I as [I|I]; [injection I; auto|].
    apply In_phoneMsgs in I. destruct I as [s [m I]]. discriminate.
  - exists (Some (id first, name first)). eexists.
    apply in_or_app. right. left. reflexivity.
Qed.

Lemma reachable_almost : reachable (run initWorld traceAlmost).
Proof.
  apply run_reachable; [apply reach_init|].
  unfold traceAlmost, traceStarted. simpl app.
  repeat (apply Forall_cons; [first [exact I | exact clock_positive]|]).
  apply Forall_nil.
Qed.

Lemma almost_state :
  phase (game (run initWorld traceAlmost)) = Playing /\
  light (game (run initWorld traceAlmost)) = Green /\
  tget 2%nat (timers (run initWorld traceAlmost)) = Some CbProgress /\
  In ("b", almostB) (players (game (run initWorld traceAlmost))) /\
  (progressToWin <= progress almostB + progressRate)%Q.
Proof.
  vm_compute. repeat split; try discriminate. right. left. reflexivity.
Qed.

Lemma frozen_positive j : 0 < frozen j.
Proof. reflexivity. Qed.

Lemma C5_first_earliest_finisher_wins_witness :
  exists m1 kw pw m2 t,
    players (game (step (run initWorld traceAlmost) (TimerFires 2%nat frozen)))
    = m1 ++ (kw, pw) :: m2 /\
    finishedAt pw = Some t /\
    (forall k q t', In (k, q) m1 -> finishedAt q = Some t' -> t < t') /\
    (forall k q t', In (k, q) m2 -> finishedAt q = Some t' -> t <= t') /\
    phase (game (step (run initWorld traceAlmost) (TimerFires 2%nat frozen))) = GameOver /\
    (forall winner roster,
       In (TV, MsgGameOver winner roster)
          (output (run initWorld traceAlmost) (TimerFires 2%nat frozen)) ->
       winner = Some (id pw, name pw)) /\
    announcesGameOver (output (run initWorld traceAlmost) (TimerFires 2%nat frozen)).
Proof.
  destruct almost_state as (H1 & H2 & H3 & H4 & H5).
  exact (C5_first_earliest_finisher_wins (run initWorld traceAlmost) 2%nat frozen
           "b" almostB reachable_almost frozen_positive H1 H2 H3 H4 eq_refl eq_refl H5).
Defined.

(** Both cross the line in the same tick with equal timestamps: the one
    registered first is announced. *)
Example tie_goes_to_first_registered :
  In (TV, MsgGameOver (Some ("a", "Ann"))
            [mkView "a" "Ann" 100 true true (Some 1700000000000);
             mkView "b" "Bob" 100 true true (Some 1700000000000);
             mkView "c" "Cyd" 0 true false None])
     (output (run initWorld traceAlmost) (TimerFires 2%nat frozen)).
Proof. vm_compute. do 4 right. left. reflexivity. Qed.

(** ** C6: events of a player that is no longer alive *)

Lemma pset_same sid p m : pget sid m = Some p -> pset sid p m = m.
Proof.
  induction m as [|[k q] r IH]; simpl; [discriminate|].
  destruct (String.eqb sid k) eqn:E.
  - intros [= ->]. reflexivity.
  - intros H. now rewrite IH.
Qed.

Lemma set_holding_same p : set_holding (holding p) p = p.
Proof. destruct p; reflexivity. Qed.

(** C6 as stated fails on the code: the sweep marks player a not-alive and
    leaves a's holding flag up, and the end-hold that a sends afterwards
    changes the state. *)
Lemma C6_counterexample :
  let w := run initWorld traceHeld in
  let w1 := step w (TimerFires 4%nat clock) in
  option_map alive (pget "a" (players (game w))) = Some true /\
  option_map alive (pget "a" (players (game w1))) = Some false /\
  option_map holding (pget "a" (players (game w1))) = Some true /\
  output w1 (HoldEnd "a") = [] /\
  step w1 (HoldEnd "a") <> w1.
Proof. vm_compute. repeat split. discriminate. Qed.

(** C6, amended.  A disconnect outside the lobby marks the player
    not-alive and forces the holding flag down.  For a registered player
    that is not alive, a begin-hold is ignored: no message and no change of
    state.  An end-hold sends no message and changes nothing but that
    player's holding flag, which it sets to false; when the flag is already
    down the state is unchanged. *)
Theorem C6_events_of_a_dead_player w sid p :
  pget sid (players (game w)) = Some p ->
  (phase (game w) <> Lobby ->
   exists p',
     pget sid (players (game (step w (Disconnect sid)))) = Some p' /\
     alive p' = false /\ holding p' = false) /\
  (alive p = false ->
   step w (HoldStart sid) = w /\ output w (HoldStart sid) = []) /\
  (alive p = false ->
   output w (HoldEnd sid) = [] /\
   step w (HoldEnd sid) =
     mkWorld (set_players (pset sid (set_holding false p) (players (game w))) (game w))
             (progressInterval w) (timers w) (nextHandle w) /\
   (holding p = false -> step w (HoldEnd sid) = w)).
Proof.
  destruct w as [g pi ts nh]. simpl. intros G. split; [|split].
  - intros N. unfold step, execM. simpl handle. rewrite onDisconnect_eq, G.
    destruct (Phase_eqb (phase g) Lobby) eqn:E.
    { apply Phase_eqb_eq in E. contradiction. }
    simpl. rewrite pget_pset_same. exists (forfeit p). auto.
  - intros D. unfold step, output, execM, outM. simpl handle.
    rewrite onHoldStart_eq, G, D. auto.
  - intros D. unfold step, output, execM, outM. simpl handle.
    rewrite onHoldEnd_eq, G. simpl. repeat split.
    intros Hf. rewrite <- Hf, set_holding_same, (pset_same _ _ _ G).
    destruct g; reflexivity.
Qed.

Lemma C6_events_of_a_dead_player_witness :
  step (run initWorld traceSwept) (HoldStart "a") = run initWorld traceSwept /\
  output (run initWorld traceSwept) (HoldStart "a") = [].
Proof.
  assert (G : pget "a" (players (game (run initWorld traceSwept)))
              = Some (mkPlayer "a" "Ann" 0 false false true None)).
  { vm_compute. reflexivity. }
  destruct (C6_events_of_a_dead_player (run initWorld traceSwept) "a" _ G)
    as [_ [H _]].
  exact (H eq_refl).
Defined.

(** ** C7: joining with an id that is already registered *)

Lemma length_zero_iff (s : string) : (String.length s =? 0)%nat = true <-> s = "".
Proof. destruct s; simpl; split; intros; congruence. Qed.

(** C7 as stated fails on the code: the second join of socket a is
    accepted, and it renames the registered player. *)
Lemma C7_counterexample :
  let w := run initWorld [JoinGame "a" "Ann"] in
  phase (game w) = Lobby /\
  players (game w) = [("a", mkPlayer "a" "Ann" 0 true false false None)] /\
  players (game (step w (JoinGame "a" "Bob")))
  = [("a", mkPlayer "a" "Bob" 0 true false false None)] /\
  output w (JoinGame "a" "Bob")
  = [(Sock "a", MsgJoined "a" "Bob"); (TV, MsgPlayerJoined "a" "Bob");
     (TV, MsgGameState Lobby Red [mkView "a" "Bob" 0 true false None] 0%nat)].
Proof. vm_compute. repeat split. Qed.

(** C7, amended.  In a reachable lobby state, a join whose id is already
    registered and whose name is not blank is accepted, not refused: no
    error is sent, no entry is created and no other entry changes; the
    existing entry keeps its place, its id and its per-match fields
    (progress, alive, holding, finishedAt), and takes the new name,
    trimmed and cut to 15 characters.  With a blank name the join is
    refused with the name error and the state is unchanged. *)
Theorem C7_rejoin_replaces_in_place w sid nm p :
  reachable w ->
  phase (game w) = Lobby ->
  pget sid (players (game w)) = Some p ->
  let w' := step w (JoinGame sid nm) in
  let o := output w (JoinGame sid nm) in
  (trim nm = "" ->
   w' = w /\ o = [(Sock sid, MsgJoinError "Please enter a name!")]) /\
  (trim nm <> "" ->
   keys (players (game w')) = keys (players (game w)) /\
   pget sid (players (game w'))
   = Some (mkPlayer (id p) (substring 0 15 (trim nm)) (progress p) (alive p)
                    (holding p) (eliminated p) (finishedAt p)) /\
   (forall sid', sid' <> sid ->
      pget sid' (players (game w')) = pget sid' (players (game w))) /\
   o = [(Sock sid, MsgJoined sid (substring 0 15 (trim nm)));
        (TV, MsgPlayerJoined sid (substring 0 15 (trim nm)));
        gameStateMsg (game w')]).
Proof.
  intros Hr Eph G w' o. subst w' o.
  pose proof (reachable_Inv _ Hr) as Hinv.
  destruct (inv_players _ Hinv sid p (pget_In _ _ _ G)) as (Hid & _ & _ & Hl & _).
  destruct (Hl Eph) as (P1 & P2 & P3 & P4 & P5).
  destruct w as [g pi ts nh]. simpl in *.
  unfold step, output, execM, outM. simpl handle. rewrite onJoinGame_eq, Eph.
  simpl negb. cbv iota. split.
  - intros E. rewrite E. simpl. auto.
  - intros N. destruct (String.length (trim nm) =? 0)%nat eqn:L.
    { apply length_zero_iff in L. contradiction. }
    simpl. repeat split.
    + eapply keys_pset_present; eauto.
    + rewrite pget_pset_same. unfold createPlayer.
      rewrite Hid, P1, P2, P3, P4, P5. reflexivity.
    + intros sid' N'. apply pget_pset_other. congruence.
Qed.

Lemma C7_rejoin_replaces_in_place_witness :
  pget "a" (players (game (step (run initWorld [JoinGame "a" "Ann"])
                                (JoinGame "a" "  Bob "))))
  = Some (mkPlayer "a" "Bob" 0 true false false None).
Proof.
  assert (Hr : reachable (run initWorld [JoinGame "a" "Ann"])).
  { apply run_reachable; [apply reach_init|]. admissible_trace. }
  assert (G : pget "a" (players (game (run initWorld [JoinGame "a" "Ann"])))
              = Some (mkPlayer "a" "Ann" 0 true false false None)).
  { vm_compute. reflexivity. }
  pose proof (C7_rejoin_replaces_in_place _ "a" "  Bob " _ Hr eq_refl G) as H.
  cbv zeta in H. destruct H as [_ H].
  assert (N : trim "  Bob " <> "") by (vm_compute; discriminate).
  destruct (H N) as [_ [H2 _]]. exact H2.
Defined.

(** ** C8: reset *)

(** C8. From every state, [resetGame] leaves the phase at lobby and the
    round counter at 0; the registry keeps its keys and their order, and
    every registered player keeps id and name and gets progress 0, alive
    true, holding false and a null [finishedAt]. *)
Theorem C8_reset_restores_players w s :
  let w' := step w (ResetGame s) in
  phase (game w') = Lobby /\
  round (game w') = 0%nat /\
  keys (players (game w')) = keys (players (game w)) /\
  (forall sid, pget sid (players (game w'))
               = option_map pristine (pget sid (players (game w)))) /\
  (forall p,
     id (pristine p) = id p /\ name (pristine p) = name p /\
     progress (pristine p) = 0%Q /\ alive (pristine p) = true /\
     holding (pristine p) = false /\ finishedAt (pristine p) = None).
Proof.
  destruct w as [g pi ts nh]. unfold step, execM. simpl handle.
  unfold onResetGame. rewrite resetGame_eq. simpl.
  repeat split.
  - apply keys_forEach.
  - intros sid. apply pget_forEach.
Qed.

(** ** C10: leaving a running match does not end it *)

Lemma phase_endGame winner w : phase (game (execM (endGame winner) w)) = GameOver.
Proof. destruct w. unfold execM. now rewrite endGame_eq. Qed.

Lemma phase_step_gameOver w e :
  phase (game w) = Playing ->
  phase (game (step w e)) = GameOver ->
  exists h now,
    e = TimerFires h now /\
    (tget h (timers w) = Some CbEliminateHolders \/
     tget h (timers w) = Some CbProgress).
Proof.
  destruct w as [g pi ts nh]. simpl. intros Eph. unfold step, execM.
  destruct e as [s|s nm|s|s|s|s|s k|s|h now]; simpl handle.
  - simpl. congruence.
  - rewrite onJoinGame_eq, Eph. simpl. congruence.
  - rewrite onHoldStart_eq. destruct (pget s (players g)); simpl; [|congruence].
    destruct (negb (alive p) || negb (Phase_eqb (phase g) Playing)); simpl;
      [congruence|].
    destruct (Light_eqb (light g) Red && negb (eliminationPending g)); simpl; congruence.
  - rewrite onHoldEnd_eq. destruct (pget s (players g)); simpl; congruence.
  - rewrite onStartGame_eq, Eph. simpl. congruence.
  - unfold onResetGame. rewrite resetGame_eq. simpl. discriminate.
  - rewrite onKickPlayer_eq. simpl. congruence.
  - rewrite onDisconnect_eq. destruct (pget s (players g)); simpl; [|congruence].
    rewrite Eph. simpl. congruence.
  - rewrite fire_eq. destruct (tget h ts) as [[| | | |count]|] eqn:T.
    + intros _. exists h, now. auto.
    + rewrite switchToRed_eq, Eph. simpl. congruence.
    + intros _. exists h, now. auto.
    + rewrite switchToGreen_eq, Eph. simpl. congruence.
    + rewrite countdownTick_eq. destruct (0 <? count - 1); simpl; congruence.
    + simpl. congruence.
Qed.

(** C10. While the phase is playing, neither the kick handler (which
    deletes the player) nor the disconnect handler (which marks the player
    not-alive and not-holding) changes the phase, the light or the pending
    timers, however few players they leave alive.  The only events that
    take a playing match to game over are firings of the grace timer
    ([eliminateHolders]) and of the progress interval. *)
Theorem C10_leaving_never_ends_the_match w :
  phase (game w) = Playing ->
  (forall s k,
     let w' := step w (KickPlayer s k) in
     phase (game w') = Playing /\ light (game w') = light (game w) /\
     timers w' = timers w /\
     players (game w') = pdelete k (players (game w))) /\
  (forall s,
     let w' := step w (Disconnect s) in
     phase (game w') = Playing /\ light (game w') = light (game w) /\
     timers w' = timers w /\
     (forall p, pget s (players (game w)) = Some p ->
                pget s (players (game w')) = Some (forfeit p))) /\
  (forall e,
     phase (game (step w e)) = GameOver ->
     exists h now,
       e = TimerFires h now /\
       (tget h (timers w) = Some CbEliminateHolders \/
        tget h (timers w) = Some CbProgress)).
Proof.
  intros Eph. split; [|split].
  - intros s k w'. subst w'. destruct w as [g pi ts nh]. simpl in Eph.
    unfold step, execM. simpl handle. rewrite onKickPlayer_eq. simpl. auto.
  - intros s w'. subst w'. destruct w as [g pi ts nh]. simpl in Eph.
    unfold step, execM. simpl handle. rewrite onDisconnect_eq.
    destruct (pget s (players g)) as [pl|] eqn:G; simpl.
    + rewrite Eph. simpl. repeat split; auto.
      intros p Gp. simpl in Gp. rewrite G in Gp. injection Gp as ->.
      apply pget_pset_same.
    + repeat split; auto. intros p Gp. simpl in Gp. congruence.
  - intros e. now apply phase_step_gameOver.
Qed.

(** Players b and c leave a running three-player match: one player is
    left alive and the match is still being played. *)
Lemma C10_leaving_never_ends_the_match_witness :
  let w := step (run initWorld traceStarted) (KickPlayer "tv" "c") in
  phase (game (step w (Disconnect "b"))) = Playing /\
  map id (getAlivePlayers (game (step w (Disconnect "b")))) = ["a"].
Proof.
  assert (E : phase (game (step (run initWorld traceStarted) (KickPlayer "tv" "c")))
              = Playing) by (vm_compute; reflexivity).
  destruct (C10_leaving_never_ends_the_match _ E) as [_ [H _]].
  split.
  - apply (H "b").
  - vm_compute. reflexivity.
Defined.

(** * Further properties of the handlers *)

(** ** Joining *)

Lemma pset_absent k v m : pget k m = None -> pset k v m = m ++ [(k, v)].
Proof.
  induction m as [|[k2 q] r IH]; simpl; auto.
  destruct (String.eqb k k2); [discriminate|].
  intros H. now rewrite IH.
Qed.

Lemma pdelete_absent k m : pget k m = None -> pdelete k m = m.
Proof.
  induction m as [|[k2 q] r IH]; simpl; auto.
  destruct (String.eqb k k2); [discriminate|].
  intros H. now rewrite IH.
Qed.

Lemma length_substring_0 n s :
  String.length (substring 0 n s) = Nat.min n (String.length s).
Proof.
  revert s. induction n as [|n IH]; intros s; destruct s; simpl; auto.
Qed.

Lemma substring_0_nonempty n s : s <> "" -> substring 0 (S n) s <> "".
Proof. destruct s; simpl; congruence. Qed.

(** X1. A join outside the lobby, or with a name that is blank after
    trimming, is refused: the state is unchanged and the caller alone gets
    one [joinError]; the wrong-phase error takes precedence over the
    blank-name error. *)
Theorem join_refused w sid nm :
  phase (game w) <> Lobby \/ trim nm = "" ->
  step w (JoinGame sid nm) = w /\
  output w (JoinGame sid nm) =
    [(Sock sid,
      MsgJoinError (if Phase_eqb (phase (game w)) Lobby
                    then "Please enter a name!"
                    else "Game already in progress. Wait for next round!"))].
Proof.
  destruct w as [g pi ts nh]. simpl. intros H.
  unfold step, output, execM, outM. simpl handle. rewrite onJoinGame_eq.
  destruct (Phase_eqb (phase g) Lobby) eqn:E; simpl; auto.
  apply Phase_eqb_eq in E. destruct H as [H|H]; [contradiction|].
  rewrite H. simpl. auto.
Qed.

Lemma join_refused_witness :
  step (run initWorld traceStarted) (JoinGame "d" "Dan") = run initWorld traceStarted /\
  output (run initWorld traceStarted) (JoinGame "d" "Dan") =
    [(Sock "d", MsgJoinError "Game already in progress. Wait for next round!")].
Proof.
  assert (H : phase (game (run initWorld traceStarted)) <> Lobby \/ trim "Dan" = "").
  { left. vm_compute. discriminate. }
  destruct (join_refused (run initWorld traceStarted) "d" "Dan" H) as [A B].
  split; [exact A|].
  rewrite B. vm_compute. reflexivity.
Defined.

(** X2. In the lobby, a join with a non-blank name from a socket that is
    not registered appends one entry at the end of the registry and changes
    nothing else: the new player has the socket id, the trimmed name cut to
    15 code units (so a non-empty name of at most 15), progress 0, alive,
    not holding, not finished; the caller gets [joined], the display gets
    [playerJoined] and the new state. *)
Theorem join_appends w sid nm :
  phase (game w) = Lobby ->
  trim nm <> "" ->
  pget sid (players (game w)) = None ->
  let w' := step w (JoinGame sid nm) in
  let player := mkPlayer sid (substring 0 15 (trim nm)) 0 true false false None in
  w' = mkWorld (set_players (players (game w) ++ [(sid, player)]) (game w))
               (progressInterval w) (timers w) (nextHandle w) /\
  pget sid (players (game w')) = Some player /\
  (forall sid', sid' <> sid ->
     pget sid' (players (game w')) = pget sid' (players (game w))) /\
  name player <> "" /\
  String.length (name player) = Nat.min 15 (String.length (trim nm)) /\
  output w (JoinGame sid nm) =
    [(Sock sid, MsgJoined sid (name player));
     (TV, MsgPlayerJoined sid (name player));
     gameStateMsg (game w')].
Proof.
  destruct w as [g pi ts nh]. simpl. intros Eph N G.
  unfold step, output, execM, outM. simpl handle. rewrite onJoinGame_eq, Eph.
  simpl negb. cbv iota.
  destruct (String.length (trim nm) =? 0)%nat eqn:L.
  { apply length_zero_iff in L. contradiction. }
  simpl. unfold createPlayer. rewrite (pset_absent _ _ _ G).
  repeat split.
  - rewrite <- (pset_absent _ _ _ G). apply pget_pset_same.
  - intros sid' N'. rewrite <- (pset_absent _ _ _ G).
    apply pget_pset_other. congruence.
  - now apply substring_0_nonempty.
  - apply length_substring_0.
Qed.

Lemma join_appends_witness :
  pget "d" (players (game (step (run initWorld [JoinGame "a" "Ann"])
                                (JoinGame "d" " Bartholomew the Bold "))))
  = Some (mkPlayer "d" "Bartholomew the" 0 true false false None).
Proof.
  assert (H1 : phase (game (run initWorld [JoinGame "a" "Ann"])) = Lobby)
    by (vm_compute; reflexivity).
  assert (H2 : trim " Bartholomew the Bold " <> "") by (vm_compute; discriminate).
  assert (H3 : pget "d" (players (game (run initWorld [JoinGame "a" "Ann"]))) = None)
    by (vm_compute; reflexivity).
  pose proof (join_appends _ "d" " Bartholomew the Bold " H1 H2 H3) as H.
  cbv zeta in H. destruct H as (_ & H & _).
  rewrite H. vm_compute. reflexivity.
Defined.

(** ** Leaving: kick and disconnect *)

(** X3. A kick deletes the named entry and nothing else: every other
    player is found as before, phase, light, round and timers are
    unchanged, and on a reachable state the kicked id is no longer
    registered.  Kicking an id that is not registered changes no state,
    yet [kicked] is still sent to that id and the display still gets the
    state. *)
Theorem kick_removes_one w s k :
  reachable w ->
  let w' := step w (KickPlayer s k) in
  w' = mkWorld (set_players (pdelete k (players (game w))) (game w))
               (progressInterval w) (timers w) (nextHandle w) /\
  pget k (players (game w')) = None /\
  (forall sid, sid <> k ->
     pget sid (players (game w')) = pget sid (players (game w))) /\
  (pget k (players (game w)) = None -> w' = w) /\
  output w (KickPlayer s k) = [(Sock k, MsgKicked); gameStateMsg (game w')].
Proof.
  intros Hr. pose proof (inv_nodup _ (reachable_Inv _ Hr)) as Hn.
  destruct w as [g pi ts nh]. simpl in *.
  unfold step, output, execM, outM. simpl handle. rewrite onKickPlayer_eq. simpl.
  repeat split.
  - now apply pget_pdelete_same.
  - intros sid N. apply pget_pdelete_other. congruence.
  - intros G. rewrite (pdelete_absent _ _ G). destruct g; reflexivity.
Qed.

Lemma kick_removes_one_witness :
  pget "b" (players (game (step (run initWorld traceStarted) (KickPlayer "tv" "b"))))
  = None.
Proof.
  pose proof (kick_removes_one (run initWorld traceStarted) "tv" "b" reachable_started)
    as H.
  cbv zeta in H. destruct H as (_ & H & _). exact H.
Defined.

(** X4. A disconnect of a socket that has no player does nothing and sends
    nothing.  In the lobby the disconnect of a registered player removes
    the entry; in any other phase the entry stays, with alive and holding
    false and every other field as it was.  In both cases nobody else
    changes, nor do phase, light, round and timers. *)
Theorem disconnect_cases w sid :
  reachable w ->
  let w' := step w (Disconnect sid) in
  match pget sid (players (game w)) with
  | None => w' = w /\ output w (Disconnect sid) = []
  | Some p =>
      w' = mkWorld (set_players
                      (if Phase_eqb (phase (game w)) Lobby
                       then pdelete sid (players (game w))
                       else pset sid (mkPlayer (id p) (name p) (progress p) false false
                                               (eliminated p) (finishedAt p))
                                 (players (game w)))
                      (game w))
                   (progressInterval w) (timers w) (nextHandle w) /\
      pget sid (players (game w')) =
        (if Phase_eqb (phase (game w)) Lobby then None
         else Some (mkPlayer (id p) (name p) (progress p) false false
                             (eliminated p) (finishedAt p))) /\
      (forall sid', sid' <> sid ->
         pget sid' (players (game w')) = pget sid' (players (game w))) /\
      output w (Disconnect sid) = allMsgs (game w')
  end.
Proof.
  intros Hr. pose proof (inv_nodup _ (reachable_Inv _ Hr)) as Hn.
  destruct w as [g pi ts nh]. simpl in *.
  unfold step, output, execM, outM. simpl handle. rewrite onDisconnect_eq.
  destruct (pget sid (players g)) as [p|] eqn:G; [|auto].
  destruct (Phase_eqb (phase g) Lobby); simpl; repeat split.
  - now apply pget_pdelete_same.
  - intros sid' N. apply pget_pdelete_other. congruence.
  - apply pget_pset_same.
  - intros sid' N. apply pget_pset_other. congruence.
Qed.

Lemma disconnect_cases_witness :
  pget "b" (players (game (step (run initWorld traceStarted) (Disconnect "b"))))
  = Some (mkPlayer "b" "Bob" 0 false false false None).
Proof.
  pose proof (disconnect_cases (run initWorld traceStarted) "b" reachable_started) as H.
  cbv zeta in H.
  assert (G : pget "b" (players (game (run initWorld traceStarted)))
              = Some (mkPlayer "b" "Bob" 0 true false false None))
    by (vm_compute; reflexivity).
  rewrite G in H. destruct H as (_ & H & _). rewrite H. vm_compute. reflexivity.
Defined.

(** ** Hold events that are ignored *)

(** X5. A begin-hold or end-hold from a socket that has no player does
    nothing and sends nothing; so does a begin-hold in any phase other
    than playing.  An end-hold of a registered player is honoured in every
    phase, alive or not: it sets the holding flag to false, sends nothing
    and changes nothing else. *)
Theorem hold_events_edge_cases w sid :
  (pget sid (players (game w)) = None ->
   step w (HoldStart sid) = w /\ output w (HoldStart sid) = [] /\
   step w (HoldEnd sid) = w /\ output w (HoldEnd sid) = []) /\
  (phase (game w) <> Playing ->
   step w (HoldStart sid) = w /\ output w (HoldStart sid) = []) /\
  (forall p, pget sid (players (game w)) = Some p ->
     step w (HoldEnd sid) =
       mkWorld (set_players
                  (pset sid (mkPlayer (id p) (name p) (progress p) (alive p) false
                                      (eliminated p) (finishedAt p))
                        (players (game w)))
                  (game w))
               (progressInterval w) (timers w) (nextHandle w) /\
     output w (HoldEnd sid) = []).
Proof.
  destruct w as [g pi ts nh]. simpl. unfold step, output, execM, outM. simpl handle.
  rewrite onHoldStart_eq, onHoldEnd_eq. repeat split.
  - rewrite H. reflexivity.
  - rewrite H. reflexivity.
  - rewrite H. reflexivity.
  - rewrite H. reflexivity.
  - destruct (pget sid (players g)); auto.
    destruct (Phase_eqb (phase g) Playing) eqn:E.
    + apply Phase_eqb_eq in E. contradiction.
    + rewrite orb_true_r. reflexivity.
  - destruct (pget sid (players g)); auto.
    destruct (Phase_eqb (phase g) Playing) eqn:E.
    + apply Phase_eqb_eq in E. contradiction.
    + rewrite orb_true_r. reflexivity.
  - rewrite H. reflexivity.
  - rewrite H. reflexivity.
Qed.

Lemma hold_events_edge_cases_witness :
  step (run initWorld [JoinGame "a" "Ann"]) (HoldStart "a")
  = run initWorld [JoinGame "a" "Ann"] /\
  output (run initWorld [JoinGame "a" "Ann"]) (HoldStart "a") = [].
Proof.
  destruct (hold_events_edge_cases (run initWorld [JoinGame "a" "Ann"]) "a")
    as (_ & H & _).
  apply H. vm_compute. discriminate.
Defined.

(** ** Starting a match *)

(** X6. The start handler does nothing and sends nothing when the phase is
    countdown or playing, and when the registry is empty. *)
Theorem start_refused w s :
  phase (game w) = Countdown \/ phase (game w) = Playing \/ players (game w) = [] ->
  step w (StartGame s) = w /\ output w (StartGame s) = [].
Proof.
  destruct w as [g pi ts nh]. simpl. intros H.
  unfold step, output, execM, outM. simpl handle. rewrite onStartGame_eq.
  destruct (Phase_eqb (phase g) Lobby || Phase_eqb (phase g) GameOver) eqn:E; auto.
  destruct H as [H|[H|H]]; try (rewrite H in E; discriminate).
  rewrite startGame_eq. simpl. rewrite H. simpl.
  destruct g; simpl in *; subst; auto.
Qed.

Lemma start_refused_witness :
  step (run initWorld traceStarted) (StartGame "tv") = run initWorld traceStarted /\
  output (run initWorld traceStarted) (StartGame "tv") = [].
Proof.
  apply (start_refused (run initWorld traceStarted) "tv").
  right. left. vm_compute. reflexivity.
Defined.



(** ** The round counter *)

Lemma round_endGame winner w :
  round (game (execM (endGame winner) w)) = round (game w).
Proof. destruct w. unfold execM. now rewrite endGame_eq. Qed.

(** X8. The round counter changes only in two ways: a start that is
    accepted raises it by exactly one, and a reset sets it to zero.  No
    other event, and no timer, touches it. *)
Theorem round_changes w e :
  round (game (step w e)) = round (game w) \/
  (exists s, e = StartGame s /\ phase (game (step w e)) = Countdown /\
             round (game (step w e)) = S (round (game w))) \/
  (exists s, e = ResetGame s /\ round (game (step w e)) = 0%nat).
Proof.
  destruct w as [g pi ts nh]. unfold step, execM.
  destruct e as [s|s nm|s|s|s|s|s k|s|h now]; simpl handle.
  - left. reflexivity.
  - left. rewrite onJoinGame_eq. destruct (negb _); [reflexivity|].
    destruct (_ =? _)%nat; reflexivity.
  - left. rewrite onHoldStart_eq. destruct (pget s (players g)); [|reflexivity].
    destruct (_ || _); [reflexivity|]. destruct (_ && _); reflexivity.
  - left. rewrite onHoldEnd_eq. destruct (pget s (players g)); reflexivity.
  - rewrite onStartGame_eq. destruct (_ || _); [|left; reflexivity].
    rewrite startGame_eq. destruct (_ <? _)%nat; [left; reflexivity|].
    right. left. exists s. auto.
  - right. right. exists s. unfold onResetGame. rewrite resetGame_eq. auto.
  - left. reflexivity.
  - left. rewrite onDisconnect_eq. destruct (pget s (players g)); [|reflexivity].
    destruct (Phase_eqb _ _); reflexivity.
  - left. rewrite fire_eq. destruct (tget h ts) as [[| | | |count]|].
    + rewrite progressTick_eq. destruct (_ || _); [reflexivity|].
      destruct (someoneFinished now g); [|reflexivity]. cbn [fst snd].
      unfold execM. rewrite checkForWinner_eq. destruct (sortByFinish _); [reflexivity|].
      pose proof (round_endGame (Some p) (mkWorld (ticked now g) pi ts nh)) as R.
      unfold execM in R. rewrite R. reflexivity.
    + rewrite switchToRed_eq. destruct (negb _); reflexivity.
    + rewrite eliminateHolders_eq. destruct (_ || _); [reflexivity|].
      destruct (getAlivePlayers (swept g)) as [|x [|y r]]; cbn [fst snd];
        try reflexivity;
        match goal with
        | |- context [execM (endGame ?win) ?w0] =>
            rewrite (round_endGame win w0); reflexivity
        end.
    + rewrite switchToGreen_eq. destruct (negb _); reflexivity.
    + rewrite countdownTick_eq. destruct (0 <? count - 1); reflexivity.
    + reflexivity.
Qed.

(** ** Reset *)

Lemma tremove_absent h ts : (forall x, In x ts -> fst x <> h) -> tremove h ts = ts.
Proof.
  intros H. unfold tremove. induction ts as [|[h' cb] r IH]; simpl; auto.
  destruct (Nat.eqb h h') eqn:E; simpl.
  - apply Nat.eqb_eq in E. exfalso. apply (H (h', cb)); [now left | auto].
  - f_equal. apply IH. intros y I. apply H. now right.
Qed.

Lemma tremoveO_absent oh ts :
  (forall x h, oh = Some h -> In x ts -> fst x <> h) -> tremoveO oh ts = ts.
Proof.
  destruct oh as [h|]; simpl; auto.
  intros H. apply tremove_absent. intros x I. now apply (H x h).
Qed.

Lemma forEach_pristine_idem m : forEach pristine (forEach pristine m) = forEach pristine m.
Proof.
  unfold forEach. rewrite map_map. apply map_ext. intros [k p]. reflexivity.
Qed.

(** X9. Reset is idempotent: a second reset right after a reset changes
    nothing. *)
Theorem reset_idempotent w s s' :
  step (step w (ResetGame s)) (ResetGame s') = step w (ResetGame s).
Proof.
  destruct w as [g pi ts nh]. unfold step, execM. simpl handle.
  unfold onResetGame. rewrite resetGame_eq. cbn [fst snd]. rewrite resetGame_eq.
  cbn [fst snd]. f_equal.
  - unfold lobbied. simpl. rewrite forEach_pristine_idem. reflexivity.
  - simpl.
    set (T := tremoveO pi (tremoveO (countdownTimer g)
                 (tremoveO (graceTimer g) (tremoveO (lightTimer g) ts)))).
    rewrite (tremoveO_absent (lightTimer g) T).
    2:{ intros x h E I. unfold T in I. do 3 apply In_tremoveO in I.
        rewrite E in I. now apply In_tremoveO_Some in I. }
    rewrite (tremoveO_absent (graceTimer g) T).
    2:{ intros x h E I. unfold T in I. do 2 apply In_tremoveO in I.
        rewrite E in I. now apply In_tremoveO_Some in I. }
    rewrite (tremoveO_absent (countdownTimer g) T).
    2:{ intros x h E I. unfold T in I. apply In_tremoveO in I.
        rewrite E in I. now apply In_tremoveO_Some in I. }
    reflexivity.
Qed.

(** ** The timer discipline is an invariant *)

Lemma timersOK_players g pi ts nh ps :
  timersOK (mkWorld g pi ts nh) -> timersOK (mkWorld (set_players ps g) pi ts nh).
Proof. unfold timersOK, lightChain. simpl. auto. Qed.

Lemma no_entries {A} (l : list A) : (forall x, ~ In x l) -> l = [].
Proof. destruct l as [|x r]; auto. intros H. exfalso. apply (H x). now left. Qed.

(** What [endGame] and [resetGame] leave of a table all of whose handles
    they clear. *)
Lemma cleared_table pi lt gt ct ts :
  (forall x, In x ts ->
     pi = Some (fst x) \/ lt = Some (fst x) \/ gt = Some (fst x) \/ ct = Some (fst x)) ->
  tremoveO pi (tremoveO ct (tremoveO gt (tremoveO lt ts))) = [].
Proof.
  intros H. apply no_entries. intros x I.
  assert (I0 : In x ts) by (do 4 apply In_tremoveO in I; exact I).
  destruct (H x I0) as [E|[E|[E|E]]]; rewrite E in I.
  - now apply In_tremoveO_Some in I.
  - do 3 apply In_tremoveO in I. now apply In_tremoveO_Some in I.
  - do 2 apply In_tremoveO in I. now apply In_tremoveO_Some in I.
  - apply In_tremoveO in I. now apply In_tremoveO_Some in I.
Qed.

Lemma cleared_table_end pi lt gt ts :
  (forall x, In x ts -> pi = Some (fst x) \/ lt = Some (fst x) \/ gt = Some (fst x)) ->
  tremoveO pi (tremoveO gt (tremoveO lt ts)) = [].
Proof.
  intros H. apply no_entries. intros x I.
  assert (I0 : In x ts) by (do 3 apply In_tremoveO in I; exact I).
  destruct (H x I0) as [E|[E|E]]; rewrite E in I.
  - now apply In_tremoveO_Some in I.
  - do 2 apply In_tremoveO in I. now apply In_tremoveO_Some in I.
  - apply In_tremoveO in I. now apply In_tremoveO_Some in I.
Qed.

Lemma timersOK_endGame winner g pi ts nh :
  (forall x, In x ts ->
     pi = Some (fst x) \/ lightTimer g = Some (fst x) \/ graceTimer g = Some (fst x)) ->
  timersOK (execM (endGame winner) (mkWorld g pi ts nh)).
Proof.
  intros H. unfold execM. rewrite endGame_eq. unfold timersOK. simpl.
  split; auto. now apply cleared_table_end.
Qed.

Lemma timersOK_resetGame g pi ts nh :
  timersOK (mkWorld g pi ts nh) -> timersOK (execM resetGame (mkWorld g pi ts nh)).
Proof.
  intros H. unfold execM. rewrite resetGame_eq. unfold timersOK in *. simpl in *.
  split; auto. apply cleared_table.
  destruct (phase g).
  - destruct H as [-> _]. intros x [].
  - destruct H as [_ (h & c & -> & Ect & _)]. intros x [<-|[]]. simpl. auto.
  - destruct H as (hp & hl & cb & -> & -> & _ & _ & L).
    intros x [<-|[<-|[]]]; simpl; auto.
    destruct L as [(_ & _ & E)|[(_ & _ & E)|(_ & _ & E)]]; auto.
  - destruct H as [-> _]. intros x [].
  - destruct H as [-> _]. intros x [].
Qed.

Lemma timersOK_onStartGame g pi ts nh :
  timersOK (mkWorld g pi ts nh) -> timersOK (execM onStartGame (mkWorld g pi ts nh)).
Proof.
  intros H. unfold execM. rewrite onStartGame_eq.
  destruct (Phase_eqb (phase g) Lobby || Phase_eqb (phase g) GameOver) eqn:E; auto.
  rewrite startGame_eq. simpl.
  destruct (_ <? _)%nat.
  - now apply timersOK_players.
  - unfold timersOK in *. simpl in *.
    assert (T : ts = [] /\ pi = None).
    { destruct (phase g); try discriminate; auto. }
    destruct T as [-> ->]. split; auto.
    exists nh, 3. repeat split; auto; lia.
Qed.

Lemma timersOK_countdownTick h count g pi ts nh :
  tget h ts = Some (CbCountdown count) ->
  timersOK (mkWorld g pi ts nh) ->
  timersOK (execM (countdownTick h count) (mkWorld g pi ts nh)).
Proof.
  intros T H. unfold execM. rewrite countdownTick_eq.
  unfold timersOK in H. simpl in H.
  destruct (phase g) eqn:Eph.
  - destruct H as [-> _]. discriminate.
  - destruct H as [-> (h0 & c & -> & Ect & Hlt & Hc)].
    simpl in T. destruct (Nat.eqb h h0) eqn:Eh; [|discriminate].
    injection T as <-. apply Nat.eqb_eq in Eh. subst h0.
    destruct (0 <? c - 1) eqn:Ec.
    + apply Z.ltb_lt in Ec. unfold timersOK. simpl. rewrite Eph.
      rewrite Nat.eqb_refl. split; auto.
      exists h, (c - 1). repeat split; auto; lia.
    + unfold timersOK. simpl. rewrite Ect. simpl. rewrite !Nat.eqb_refl. simpl.
      exists nh, (S nh), CbSwitchToRed. repeat split; auto.
      left. auto.
  - destruct H as (hp & hl & cb & -> & _ & Hlt & _ & L).
    simpl in T. destruct (Nat.eqb h hp); [discriminate|].
    destruct (Nat.eqb h hl); [|discriminate]. injection T as ->.
    destruct L as [(F & _)|[(F & _)|(F & _)]]; discriminate.
  - destruct H as [-> _]. discriminate.
  - destruct H as [-> _]. discriminate.
Qed.

(** During play the table holds the progress interval and one timer of
    the light cycle. *)
Lemma timersOK_playing g pi ts nh :
  timersOK (mkWorld g pi ts nh) -> phase g = Playing ->
  exists hp hl cb,
    ts = [(hp, CbProgress); (hl, cb)] /\ pi = Some hp /\
    (hp < hl)%nat /\ (hl < nh)%nat /\ lightChain g hl cb.
Proof. unfold timersOK. simpl. intros H E. rewrite E in H. exact H. Qed.

Lemma timersOK_progressTick now g pi ts nh :
  timersOK (mkWorld g pi ts nh) ->
  timersOK (execM (progressTick now) (mkWorld g pi ts nh)).
Proof.
  intros H. unfold execM at 1. rewrite progressTick_eq.
  destruct (Phase_eqb (phase g) Playing) eqn:Eph; simpl; auto.
  destruct (Light_eqb (light g) Green) eqn:El; simpl; auto.
  apply Phase_eqb_eq in Eph. apply Light_eqb_eq in El.
  destruct (someoneFinished now g); simpl.
  - unfold execM. rewrite checkForWinner_eq.
    destruct (sortByFinish _) as [|first rest].
    + now apply (timersOK_players g).
    + apply (timersOK_endGame (Some first)).
      destruct (timersOK_playing _ _ _ _ H Eph) as (hp & hl & cb & -> & -> & _ & _ & L).
      intros x [<-|[<-|[]]]; simpl; auto.
      destruct L as [(_ & _ & E)|[(_ & F & _)|(_ & F & _)]]; auto; congruence.
  - now apply (timersOK_players g).
Qed.

Lemma tget_pair h hp hl cb :
  (hp < hl)%nat ->
  tget h [(hp, CbProgress); (hl, cb)] =
  if Nat.eqb h hp then Some CbProgress else if Nat.eqb h hl then Some cb else None.
Proof. reflexivity. Qed.

Lemma tremove_second hp hl cb :
  (hp < hl)%nat -> tremove hl [(hp, CbProgress); (hl, cb)] = [(hp, CbProgress)].
Proof.
  intros H. unfold tremove. simpl. rewrite Nat.eqb_refl.
  destruct (Nat.eqb hl hp) eqn:E; [apply Nat.eqb_eq in E; lia | reflexivity].
Qed.

Lemma timersOK_fire h now g pi ts nh :
  timersOK (mkWorld g pi ts nh) -> timersOK (execM (fire h now) (mkWorld g pi ts nh)).
Proof.
  intros H. unfold execM. rewrite fire_eq.
  destruct (tget h ts) as [cb0|] eqn:T; [|exact H].
  destruct cb0 as [| | | |count].
  - now apply timersOK_progressTick.
  - (* switchToRed *)
    assert (Eph : phase g = Playing).
    { unfold timersOK in H. simpl in H. destruct (phase g); auto;
        try (destruct H as [-> _]; discriminate).
      destruct H as [_ (h0 & c & -> & _)]. simpl in T.
      destruct (Nat.eqb h h0); discriminate. }
    destruct (timersOK_playing _ _ _ _ H Eph) as (hp & hl & cb & -> & -> & Hlt & Hnh & L).
    simpl in T. destruct (Nat.eqb h hp) eqn:E1; [discriminate|].
    destruct (Nat.eqb h hl) eqn:E2; [|discriminate].
    apply Nat.eqb_eq in E2. subst h. injection T as ->.
    rewrite tremove_second by auto. rewrite switchToRed_eq, Eph. simpl.
    unfold timersOK. simpl. rewrite Eph.
    exists hp, nh, CbEliminateHolders. repeat split; auto; try lia.
    right. left. auto.
  - (* eliminateHolders *)
    assert (Eph : phase g = Playing).
    { unfold timersOK in H. simpl in H. destruct (phase g); auto;
        try (destruct H as [-> _]; discriminate).
      destruct H as [_ (h0 & c & -> & _)]. simpl in T.
      destruct (Nat.eqb h h0); discriminate. }
    destruct (timersOK_playing _ _ _ _ H Eph) as (hp & hl & cb & -> & -> & Hlt & Hnh & L).
    simpl in T. destruct (Nat.eqb h hp) eqn:E1; [discriminate|].
    destruct (Nat.eqb h hl) eqn:E2; [|discriminate].
    apply Nat.eqb_eq in E2. subst h. injection T as ->.
    rewrite tremove_second by auto.
    destruct L as [(F & _)|[(_ & El & _)|(F & _)]]; try discriminate.
    rewrite eliminateHolders_eq, Eph, El. simpl negb. simpl orb. cbv iota.
    destruct (getAlivePlayers (swept g)) as [|x [|y r]]; cbn [fst snd].
    + apply (timersOK_endGame None). intros z [<-|[]]. simpl. auto.
    + apply (timersOK_endGame (Some x)). intros z [<-|[]]. simpl. auto.
    + unfold timersOK. simpl. rewrite Eph.
      exists hp, nh, CbSwitchToGreen. repeat split; auto; try lia.
      right. right. auto.
  - (* switchToGreen *)
    assert (Eph : phase g = Playing).
    { unfold timersOK in H. simpl in H. destruct (phase g); auto;
        try (destruct H as [-> _]; discriminate).
      destruct H as [_ (h0 & c & -> & _)]. simpl in T.
      destruct (Nat.eqb h h0); discriminate. }
    destruct (timersOK_playing _ _ _ _ H Eph) as (hp & hl & cb & -> & -> & Hlt & Hnh & L).
    simpl in T. destruct (Nat.eqb h hp) eqn:E1; [discriminate|].
    destruct (Nat.eqb h hl) eqn:E2; [|discriminate].
    apply Nat.eqb_eq in E2. subst h. injection T as ->.
    rewrite tremove_second by auto. rewrite switchToGreen_eq, Eph. simpl.
    unfold timersOK. simpl. rewrite Eph.
    exists hp, nh, CbSwitchToRed. repeat split; auto; try lia.
    left. auto.
  - now apply timersOK_countdownTick.
Qed.

Lemma timersOK_init : timersOK initWorld.
Proof. unfold timersOK. simpl. auto. Qed.

Lemma timersOK_step w e : timersOK w -> timersOK (step w e).
Proof.
  destruct w as [g pi ts nh]. intros H. unfold step.
  destruct e as [s|s nm|s|s|s|s|s k|s|h now]; simpl handle.
  - exact H.
  - unfold execM. rewrite onJoinGame_eq. destruct (negb _); [exact H|].
    destruct (_ =? _)%nat; [exact H|]. now apply timersOK_players.
  - unfold execM. rewrite onHoldStart_eq. destruct (pget s (players g)); [|exact H].
    destruct (_ || _); [exact H|]. destruct (_ && _); now apply timersOK_players.
  - unfold execM. rewrite onHoldEnd_eq. destruct (pget s (players g)); [|exact H].
    now apply timersOK_players.
  - now apply timersOK_onStartGame.
  - now apply timersOK_resetGame.
  - unfold execM. rewrite onKickPlayer_eq. now apply timersOK_players.
  - unfold execM. rewrite onDisconnect_eq. destruct (pget s (players g)); [|exact H].
    destruct (Phase_eqb _ _); now apply timersOK_players.
  - now apply timersOK_fire.
Qed.

Lemma reachable_timersOK w : reachable w -> timersOK w.
Proof.
  induction 1 as [|w e _ IH _]; [apply timersOK_init | now apply timersOK_step].
Qed.

(** X10. On every run the timer table is exactly this: empty in the lobby
    and after game over (and no progress interval is remembered); in
    countdown, the one countdown interval, remembered in [countdownTimer],
    with 1 to 3 seconds left; during play, the progress interval and
    exactly one timer of the light cycle: [switchToRed] when the light is
    green, and when it is red either the grace check or the next
    [switchToGreen], each remembered in the field its scheduler wrote. *)
Theorem timer_discipline w :
  reachable w ->
  match phase (game w) with
  | Countdown =>
      progressInterval w = None /\
      exists h c,
        timers w = [(h, CbCountdown c)] /\
        countdownTimer (game w) = Some h /\
        (h < nextHandle w)%nat /\ 1 <= c <= 3
  | Playing =>
      exists hp hl cb,
        timers w = [(hp, CbProgress); (hl, cb)] /\
        progressInterval w = Some hp /\
        (hp < hl)%nat /\ (hl < nextHandle w)%nat /\
        ((cb = CbSwitchToRed /\ light (game w) = Green /\
          lightTimer (game w) = Some hl) \/
         (cb = CbEliminateHolders /\ light (game w) = Red /\
          graceTimer (game w) = Some hl) \/
         (cb = CbSwitchToGreen /\ light (game w) = Red /\
          lightTimer (game w) = Some hl))
  | _ => timers w = [] /\ progressInterval w = None
  end.
Proof. intros Hr. exact (reachable_timersOK w Hr). Qed.

Lemma timer_discipline_witness :
  exists hp hl cb,
    timers (run initWorld traceRed) = [(hp, CbProgress); (hl, cb)] /\
    progressInterval (run initWorld traceRed) = Some hp /\
    (hp < hl)%nat /\ (hl < nextHandle (run initWorld traceRed))%nat /\
    ((cb = CbSwitchToRed /\ light (game (run initWorld traceRed)) = Green /\
      lightTimer (game (run initWorld traceRed)) = Some hl) \/
     (cb = CbEliminateHolders /\ light (game (run initWorld traceRed)) = Red /\
      graceTimer (game (run initWorld traceRed)) = Some hl) \/
     (cb = CbSwitchToGreen /\ light (game (run initWorld traceRed)) = Red /\
      lightTimer (game (run initWorld traceRed)) = Some hl)).
Proof. exact (timer_discipline (run initWorld traceRed) reachable_red). Defined.

Lemma idle_outside_a_match w :
  reachable w ->
  phase (game w) = Lobby \/ phase (game w) = GameOver ->
  timers w = [] /\ progressInterval w = None.
Proof.
  intros Hr Hph. pose proof (reachable_timersOK _ Hr) as T.
  unfold timersOK in T. destruct Hph as [E|E]; rewrite E in T; exact T.
Qed.

(** X11. Stale timers are inert: on every run, once the phase is lobby or
    game over no timer is pending, so the firing of any handle changes
    nothing and sends nothing. *)
Theorem no_timer_outside_a_match w h now :
  reachable w ->
  phase (game w) = Lobby \/ phase (game w) = GameOver ->
  timers w = [] /\ progressInterval w = None /\
  step w (TimerFires h now) = w /\ output w (TimerFires h now) = [].
Proof.
  intros Hr Hph. destruct (idle_outside_a_match w Hr Hph) as [T P].
  destruct w as [g pi ts nh]. simpl in *. subst ts pi. repeat split.
Qed.

(** A match played to its end: a and b cross the line on the 40th tick. *)
Lemma reachable_finished :
  reachable (step (run initWorld traceAlmost) (TimerFires 2%nat frozen)).
Proof. apply reach_step; [apply reachable_almost | exact frozen_positive]. Qed.

Lemma no_timer_outside_a_match_witness :
  timers (step (run initWorld traceAlmost) (TimerFires 2%nat frozen)) = [] /\
  step (step (run initWorld traceAlmost) (TimerFires 2%nat frozen))
       (TimerFires 3%nat clock)
  = step (run initWorld traceAlmost) (TimerFires 2%nat frozen).
Proof.
  assert (E : phase (game (step (run initWorld traceAlmost) (TimerFires 2%nat frozen)))
              = GameOver) by (vm_compute; reflexivity).
  destruct (no_timer_outside_a_match _ 3%nat clock reachable_finished (or_intror E))
    as (A & _ & B & _).
  split; [exact A | exact B].
Defined.

(** ** The countdown *)

Lemma countdown_fire_start g nh s :
  Phase_eqb (phase g) Lobby || Phase_eqb (phase g) GameOver = true ->
  (List.length (players (set_players (forEach pristine (players g)) g)) <? 1)%nat = false ->
  step (mkWorld g None [] nh) (StartGame s) =
  mkWorld (counting nh (set_players (forEach pristine (players g)) g)) None
          [(nh, CbCountdown 3)] (S nh).
Proof.
  intros E L. unfold step, execM. simpl handle. rewrite onStartGame_eq, E.
  rewrite startGame_eq, L. reflexivity.
Qed.

Lemma countdown_fire_tick g h c nh now :
  (0 <? c - 1) = true ->
  step (mkWorld g None [(h, CbCountdown c)] nh) (TimerFires h now) =
  mkWorld g None [(h, CbCountdown (c - 1))] nh.
Proof.
  intros C. unfold step, execM. simpl handle. rewrite fire_eq.
  cbn [tget]. rewrite Nat.eqb_refl. rewrite countdownTick_eq, C.
  cbn [fst snd treplace map fst]. rewrite Nat.eqb_refl. reflexivity.
Qed.

Lemma countdown_fire_out g h c nh now :
  (0 <? c - 1) = true ->
  output (mkWorld g None [(h, CbCountdown c)] nh) (TimerFires h now) =
  countdownMsgs (c - 1) g.
Proof.
  intros C. unfold output, outM. simpl handle. rewrite fire_eq.
  cbn [tget]. rewrite Nat.eqb_refl. rewrite countdownTick_eq, C. reflexivity.
Qed.

Lemma countdown_fire_last g h c nh now :
  (0 <? c - 1) = false -> countdownTimer g = Some h ->
  step (mkWorld g None [(h, CbCountdown c)] nh) (TimerFires h now) =
  mkWorld (greened (S nh) (set_phase Playing g)) (Some nh)
          [(nh, CbProgress); (S nh, CbSwitchToRed)] (S (S nh)).
Proof.
  intros C Ct. unfold step, execM. simpl handle. rewrite fire_eq.
  cbn [tget]. rewrite Nat.eqb_refl. rewrite countdownTick_eq, C, Ct.
  cbn [fst snd treplace map fst tremoveO tremove filter]. rewrite Nat.eqb_refl.
  cbn [fst]. rewrite Nat.eqb_refl. reflexivity.
Qed.

(** X12. After an accepted start on a reachable state, the countdown
    interval is the only pending timer.  Its first two firings announce 2
    and then 1 to the display and to every player and leave the game in
    countdown; its third firing clears it, sets the phase to playing and
    the light to green with the grace flag down, and arms the progress
    interval and the [switchToRed] timeout.  The players enter the match
    with the fields the start gave them: progress 0, alive, not holding. *)
Theorem countdown_runs_three_seconds w s n1 n2 n3 :
  reachable w ->
  phase (game w) = Lobby \/ phase (game w) = GameOver ->
  players (game w) <> [] ->
  let h := nextHandle w in
  let w0 := step w (StartGame s) in
  let w1 := step w0 (TimerFires h n1) in
  let w2 := step w1 (TimerFires h n2) in
  let w3 := step w2 (TimerFires h n3) in
  timers w0 = [(h, CbCountdown 3)] /\
  phase (game w1) = Countdown /\ output w0 (TimerFires h n1) = countdownMsgs 2 (game w0) /\
  phase (game w2) = Countdown /\ output w1 (TimerFires h n2) = countdownMsgs 1 (game w0) /\
  phase (game w3) = Playing /\ light (game w3) = Green /\
  eliminationPending (game w3) = false /\
  players (game w3) = forEach pristine (players (game w)) /\
  timers w3 = [(S h, CbProgress); (S (S h), CbSwitchToRed)] /\
  progressInterval w3 = Some (S h) /\ lightTimer (game w3) = Some (S (S h)).
Proof.
  intros Hr Hph N.
  destruct (idle_outside_a_match w Hr Hph) as (T & P).
  destruct w as [g pi ts nh]. cbn [timers progressInterval game nextHandle] in *.
  subst ts pi. cbv zeta.
  assert (E : Phase_eqb (phase g) Lobby || Phase_eqb (phase g) GameOver = true).
  { destruct Hph as [H|H]; rewrite H; reflexivity. }
  assert (L : (List.length (players (set_players (forEach pristine (players g)) g)) <? 1)%nat
              = false).
  { destruct (players g); [contradiction|reflexivity]. }
  rewrite (countdown_fire_start g nh s E L).
  rewrite !countdown_fire_tick by reflexivity.
  rewrite !countdown_fire_out by reflexivity.
  rewrite countdown_fire_last by reflexivity.
  repeat split.
Qed.

Lemma countdown_runs_three_seconds_witness :
  phase (game (step (step (step (step (run initWorld [JoinGame "a" "Ann"])
                                      (StartGame "tv"))
                                (TimerFires 1%nat clock))
                          (TimerFires 1%nat clock))
                    (TimerFires 1%nat clock))) = Playing.
Proof.
  assert (Hr : reachable (run initWorld [JoinGame "a" "Ann"])).
  { apply run_reachable; [apply reach_init|]. admissible_trace. }
  assert (H1 : phase (game (run initWorld [JoinGame "a" "Ann"])) = Lobby
               \/ phase (game (run initWorld [JoinGame "a" "Ann"])) = GameOver)
    by (left; vm_compute; reflexivity).
  assert (H2 : players (game (run initWorld [JoinGame "a" "Ann"])) <> [])
    by (vm_compute; discriminate).
  pose proof (countdown_runs_three_seconds _ "tv" clock clock clock Hr H1 H2) as H.
  cbv zeta in H. destruct H as (_ & _ & _ & _ & _ & H & _).
  exact H.
Defined.

(** ** The grace flag and the light *)

Lemma control_endGame winner w :
  phase (game (execM (endGame winner) w)) = GameOver.
Proof. destruct w. unfold execM. now rewrite endGame_eq. Qed.

(** What one event can do to phase, light and grace flag together. *)
Lemma control_step w e :
  (phase (game (step w e)) = phase (game w) /\
   light (game (step w e)) = light (game w) /\
   eliminationPending (game (step w e)) = eliminationPending (game w)) \/
  (phase (game (step w e)) = Playing /\
   eliminationPending (game (step w e)) = Light_eqb (light (game (step w e))) Red) \/
  phase (game (step w e)) <> Playing.
Proof.
  destruct w as [g pi ts nh]. unfold step, execM.
  destruct e as [s|s nm|s|s|s|s|s k|s|h now]; simpl handle.
  - left. auto.
  - left. rewrite onJoinGame_eq. destruct (negb _); [auto|].
    destruct (_ =? _)%nat; auto.
  - left. rewrite onHoldStart_eq. destruct (pget s (players g)); [|auto].
    destruct (_ || _); [auto|]. destruct (_ && _); auto.
  - left. rewrite onHoldEnd_eq. destruct (pget s (players g)); auto.
  - rewrite onStartGame_eq. destruct (_ || _); [|left; auto].
    rewrite startGame_eq. destruct (_ <? _)%nat; [left; auto|].
    right. right. simpl. discriminate.
  - right. right. unfold onResetGame. rewrite resetGame_eq. simpl. discriminate.
  - left. auto.
  - left. rewrite onDisconnect_eq. destruct (pget s (players g)); [|auto].
    destruct (Phase_eqb _ _); auto.
  - rewrite fire_eq. destruct (tget h ts) as [[| | | |count]|].
    + rewrite progressTick_eq. destruct (_ || _); [left; auto|].
      destruct (someoneFinished now g); [|left; auto]. cbn [fst snd].
      unfold execM. rewrite checkForWinner_eq.
      destruct (sortByFinish _); [left; auto|].
      right. right.
      pose proof (control_endGame (Some p) (mkWorld (ticked now g) pi ts nh)) as R.
      unfold execM in R. rewrite R. discriminate.
    + rewrite switchToRed_eq. destruct (Phase_eqb (phase g) Playing) eqn:E; simpl.
      * right. left. apply Phase_eqb_eq in E. auto.
      * left. auto.
    + rewrite eliminateHolders_eq. destruct (_ || _); [left; auto|].
      destruct (getAlivePlayers (swept g)) as [|x [|y r]]; cbn [fst snd].
      * right. right. rewrite control_endGame. discriminate.
      * right. right. rewrite control_endGame. discriminate.
      * left. auto.
    + rewrite switchToGreen_eq. destruct (Phase_eqb (phase g) Playing) eqn:E; simpl.
      * right. left. apply Phase_eqb_eq in E. auto.
      * left. auto.
    + rewrite countdownTick_eq. destruct (0 <? count - 1); [left; auto|].
      right. left. simpl. auto.
    + left. auto.
Qed.

(** X13. On every run, while the phase is playing the grace flag is up
    exactly when the light is red: the flag is raised by [switchToRed],
    lowered by [switchToGreen], and the grace check leaves it up. *)
Theorem grace_flag_follows_the_light w :
  reachable w ->
  phase (game w) = Playing ->
  eliminationPending (game w) = Light_eqb (light (game w)) Red.
Proof.
  induction 1 as [|w e Hr IH _]; [discriminate|].
  intros Eph.
  destruct (control_step w e) as [(E1 & E2 & E3)|[(_ & E)|N]].
  - rewrite E2, E3. apply IH. congruence.
  - exact E.
  - contradiction.
Qed.

Lemma grace_flag_follows_the_light_witness :
  eliminationPending (game (run initWorld traceLateRed))
  = Light_eqb (light (game (run initWorld traceLateRed))) Red.
Proof.
  apply grace_flag_follows_the_light.
  - apply run_reachable; [apply reach_init|].
    unfold traceLateRed, traceRed, traceStarted. simpl app. admissible_trace.
  - vm_compute. reflexivity.
Defined.

(** X14. Consequently the strike branch of the begin-hold handler is never
    taken on a run: a begin-hold never makes anybody not-alive and never
    sends a message; at most it raises the caller's holding flag. *)
Theorem begin_hold_never_eliminates w sid :
  reachable w ->
  output w (HoldStart sid) = [] /\
  (forall k p, pget k (players (game w)) = Some p ->
     exists p', pget k (players (game (step w (HoldStart sid)))) = Some p' /\
                alive p' = alive p /\ eliminated p' = eliminated p /\
                progress p' = progress p /\ finishedAt p' = finishedAt p /\
                (k <> sid -> p' = p)).
Proof.
  intros Hr. pose proof (reachable_Inv _ Hr) as Hinv.
  pose proof (inv_pending _ Hinv) as Hp.
  destruct w as [g pi ts nh]. simpl in *.
  unfold step, output, execM, outM. simpl handle. rewrite onHoldStart_eq.
  destruct (pget sid (players g)) as [pl|] eqn:G.
  2:{ split; auto. intros k p Gk. exists p. auto 10. }
  destruct (alive pl) eqn:Al; simpl.
  2:{ split; auto. intros k p Gk. exists p. auto 10. }
  destruct (Phase_eqb (phase g) Playing) eqn:Eph; simpl.
  2:{ split; auto. intros k p Gk. exists p. auto 10. }
  apply Phase_eqb_eq in Eph.
  destruct (Light_eqb (light g) Red) eqn:El; simpl.
  - apply Light_eqb_eq in El. rewrite (Hp Eph El). simpl. split; auto.
    intros k p Gk. destruct (String.eqb sid k) eqn:E.
    + apply String.eqb_eq in E. subst k. rewrite pget_pset_same.
      assert (pl = p) by congruence. subst pl.
      exists (set_holding true p). repeat split; auto. congruence.
    + apply String.eqb_neq in E. rewrite pget_pset_other by auto.
      exists p. auto 10.
  - split; auto.
    intros k p Gk. destruct (String.eqb sid k) eqn:E.
    + apply String.eqb_eq in E. subst k. rewrite pget_pset_same.
      assert (pl = p) by congruence. subst pl.
      exists (set_holding true p). repeat split; auto. congruence.
    + apply String.eqb_neq in E. rewrite pget_pset_other by auto.
      exists p. auto 10.
Qed.

Lemma begin_hold_never_eliminates_witness :
  output (run initWorld traceLateRed) (HoldStart "b") = [].
Proof.
  apply begin_hold_never_eliminates.
  apply run_reachable; [apply reach_init|].
  unfold traceLateRed, traceRed, traceStarted. simpl app. admissible_trace.
Defined.

(** ** Who is in the registry *)

Lemma pget_None_iff sid m : pget sid m = None <-> ~ In sid (keys m).
Proof.
  split; [apply pget_None_keys|].
  intros N. destruct (pget sid m) eqn:G; auto.
  exfalso. apply N. eapply pget_Some_keys; eauto.
Qed.

Lemma pget_same_keys sid m m' :
  keys m' = keys m -> pget sid m = None -> pget sid m' = None.
Proof. intros E. rewrite !pget_None_iff, E. auto. Qed.

Lemma pget_pset_present_other sid k v m p :
  pget k m = Some p -> pget sid m = None -> pget sid (pset k v m) = None.
Proof.
  intros Gk Gs. apply (pget_same_keys sid m); auto.
  eapply keys_pset_present; eauto.
Qed.

(** Where a new entry of the registry comes from. *)
Lemma entry_origin w e sid p' :
  pget sid (players (game w)) = None ->
  pget sid (players (game (step w e))) = Some p' ->
  exists nm,
    e = JoinGame sid nm /\ phase (game w) = Lobby /\ trim nm <> "" /\
    p' = mkPlayer sid (substring 0 15 (trim nm)) 0 true false false None.
Proof.
  destruct w as [g pi ts nh]. simpl. intros G. unfold step, execM.
  destruct e as [s|s nm|s|s|s|s|s k|s|h now]; simpl handle.
  - simpl. congruence.
  - rewrite onJoinGame_eq.
    destruct (Phase_eqb (phase g) Lobby) eqn:Eph; simpl; [|congruence].
    destruct (String.length (trim nm) =? 0)%nat eqn:L; simpl; [congruence|].
    destruct (String.eqb s sid) eqn:E.
    + apply String.eqb_eq in E. subst s. rewrite pget_pset_same. intros [= <-].
      exists nm. repeat split; auto.
      * now apply Phase_eqb_eq.
      * intros F. apply length_zero_iff in F. congruence.
    + apply String.eqb_neq in E. rewrite pget_pset_other by auto. congruence.
  - rewrite onHoldStart_eq. destruct (pget s (players g)) as [pl|] eqn:Gs;
      [|simpl; congruence].
    destruct (_ || _); [simpl; congruence|].
    destruct (_ && _); simpl;
      rewrite (pget_pset_present_other _ _ _ _ _ Gs G); discriminate.
  - rewrite onHoldEnd_eq. destruct (pget s (players g)) as [pl|] eqn:Gs;
      [|simpl; congruence].
    simpl. rewrite (pget_pset_present_other _ _ _ _ _ Gs G). discriminate.
  - rewrite onStartGame_eq. destruct (_ || _); [|simpl; congruence].
    pose proof (players_startGame
                  (mkWorld (set_players (forEach pristine (players g)) g) pi ts nh)) as E.
    unfold execM in E. rewrite E. simpl. rewrite pget_forEach, G. discriminate.
  - unfold onResetGame. rewrite resetGame_eq. simpl. rewrite pget_forEach, G.
    discriminate.
  - rewrite onKickPlayer_eq. simpl. destruct (String.eqb k sid) eqn:E.
    + apply String.eqb_eq in E. subst k. rewrite (pdelete_absent _ _ G). congruence.
    + apply String.eqb_neq in E. rewrite pget_pdelete_other by auto. congruence.
  - rewrite onDisconnect_eq. destruct (pget s (players g)) as [pl|] eqn:Gs;
      [|simpl; congruence].
    destruct (Phase_eqb (phase g) Lobby); simpl.
    + assert (s <> sid) by congruence. rewrite pget_pdelete_other by auto. congruence.
    + rewrite (pget_pset_present_other _ _ _ _ _ Gs G). discriminate.
  - rewrite fire_eq. destruct (tget h ts) as [[| | | |count]|].
    + pose proof (players_progressTick now g pi ts nh) as E. unfold execM in E.
      rewrite E. destruct (_ && _); [|congruence].
      rewrite (pget_same_keys sid (players g)); [discriminate| |exact G].
      apply (tickRel_keys now), tickPlayers_rel.
    + pose proof (players_switchToRed (mkWorld g pi (tremove h ts) nh)) as E.
      unfold execM in E. rewrite E. simpl. congruence.
    + pose proof (players_eliminateHolders g pi (tremove h ts) nh) as E.
      unfold execM in E. rewrite E. destruct (_ && _); [|congruence].
      rewrite pget_forEach, G. discriminate.
    + pose proof (players_switchToGreen (mkWorld g pi (tremove h ts) nh)) as E.
      unfold execM in E. rewrite E. simpl. congruence.
    + pose proof (players_countdownTick h count (mkWorld g pi ts nh)) as E.
      unfold execM in E. rewrite E. simpl. congruence.
    + simpl. congruence.
Qed.

(** X15. Players enter the registry only through an accepted join: if a
    socket id is not registered before an event and is registered after
    it, the event is a join from that socket, in the lobby, with a name
    that is not blank, and the new entry is the fresh player built from the
    trimmed name.  No other handler and no timer adds a player; nobody
    joins a match in progress. *)
Theorem players_enter_by_join_only w e sid p' :
  pget sid (players (game w)) = None ->
  pget sid (players (game (step w e))) = Some p' ->
  exists nm,
    e = JoinGame sid nm /\ phase (game w) = Lobby /\ trim nm <> "" /\
    p' = mkPlayer sid (substring 0 15 (trim nm)) 0 true false false None.
Proof. exact (entry_origin w e sid p'). Qed.

Lemma players_enter_by_join_only_witness :
  exists nm,
    JoinGame "b" "Bob" = JoinGame "b" nm /\
    phase (game (run initWorld [JoinGame "a" "Ann"])) = Lobby /\ trim nm <> "" /\
    mkPlayer "b" "Bob" 0 true false false None
    = mkPlayer "b" (substring 0 15 (trim nm)) 0 true false false None.
Proof.
  apply (players_enter_by_join_only (run initWorld [JoinGame "a" "Ann"])
           (JoinGame "b" "Bob") "b").
  - vm_compute. reflexivity.
  - vm_compute. reflexivity.
Defined.

Lemma keys_fire w h now :
  keys (players (game (step w (TimerFires h now)))) = keys (players (game w)).
Proof.
  destruct w as [g pi ts nh]. unfold step, execM. simpl handle. rewrite fire_eq.
  destruct (tget h ts) as [[| | | |count]|] eqn:T; auto.
  - pose proof (players_progressTick now g pi ts nh) as E. unfold execM in E.
    rewrite E. destruct (_ && _); auto.
    apply (tickRel_keys now), tickPlayers_rel.
  - pose proof (players_switchToRed (mkWorld g pi (tremove h ts) nh)) as E.
    unfold execM in E. now rewrite E.
  - pose proof (players_eliminateHolders g pi (tremove h ts) nh) as E.
    unfold execM in E. rewrite E. destruct (_ && _); auto. apply keys_forEach.
  - pose proof (players_switchToGreen (mkWorld g pi (tremove h ts) nh)) as E.
    unfold execM in E. now rewrite E.
  - pose proof (players_countdownTick h count (mkWorld g pi ts nh)) as E.
    unfold execM in E. now rewrite E.
Qed.

(** X16. Players leave the registry only by a kick or by disconnecting in
    the lobby: if an id is registered before an event and not after it,
    the event is a kick of that id or the disconnect of that socket while
    the phase is lobby.  Elimination, forfeit, game over and reset never
    remove an entry. *)
Theorem players_leave_by_kick_or_lobby_disconnect w e sid p :
  pget sid (players (game w)) = Some p ->
  pget sid (players (game (step w e))) = None ->
  (exists s, e = KickPlayer s sid) \/
  (e = Disconnect sid /\ phase (game w) = Lobby).
Proof.
  intros G G'.
  assert (Hk : forall e', holdOrTimer e' ->
                 pget sid (players (game (step w e'))) <> None).
  { intros e' He F. apply pget_None_iff in F. apply F.
    rewrite keys_step_holdOrTimer by auto. eapply pget_Some_keys; eauto. }
  assert (Hf : forall h now, pget sid (players (game (step w (TimerFires h now)))) <> None).
  { intros h now F. apply pget_None_iff in F. apply F.
    rewrite keys_fire. eapply pget_Some_keys; eauto. }
  destruct w as [g pi ts nh]. simpl in *. unfold step, execM in *.
  destruct e as [s|s nm|s|s|s|s|s k|s|h now]; simpl handle in *.
  - simpl in G'. congruence.
  - rewrite onJoinGame_eq in G'. destruct (negb _); [simpl in G'; congruence|].
    destruct (_ =? _)%nat; [simpl in G'; congruence|]. simpl in G'.
    destruct (String.eqb s sid) eqn:E.
    + apply String.eqb_eq in E. subst s. rewrite pget_pset_same in G'. discriminate.
    + apply String.eqb_neq in E. rewrite pget_pset_other in G' by auto. congruence.
  - exfalso. apply (Hk (HoldStart s) I). exact G'.
  - exfalso. apply (Hk (HoldEnd s) I). exact G'.
  - rewrite onStartGame_eq in G'. destruct (_ || _); [|simpl in G'; congruence].
    pose proof (players_startGame
                  (mkWorld (set_players (forEach pristine (players g)) g) pi ts nh)) as E.
    unfold execM in E. rewrite E in G'. simpl in G'. rewrite pget_forEach, G in G'.
    discriminate.
  - unfold onResetGame in G'. rewrite resetGame_eq in G'. simpl in G'.
    rewrite pget_forEach, G in G'. discriminate.
  - rewrite onKickPlayer_eq in G'. simpl in G'.
    destruct (String.eqb k sid) eqn:E.
    + apply String.eqb_eq in E. subst k. left. eauto.
    + apply String.eqb_neq in E. rewrite pget_pdelete_other in G' by auto. congruence.
  - rewrite onDisconnect_eq in G'. destruct (pget s (players g)) as [pl|] eqn:Gs;
      [|simpl in G'; congruence].
    destruct (Phase_eqb (phase g) Lobby) eqn:Eph; simpl in G'.
    + destruct (String.eqb s sid) eqn:E.
      * apply String.eqb_eq in E. subst s. right. split; auto. now apply Phase_eqb_eq.
      * apply String.eqb_neq in E. rewrite pget_pdelete_other in G' by auto. congruence.
    + destruct (String.eqb s sid) eqn:E.
      * apply String.eqb_eq in E. subst s. rewrite pget_pset_same in G'. discriminate.
      * apply String.eqb_neq in E. rewrite pget_pset_other in G' by auto. congruence.
  - exfalso. apply (Hf h now). exact G'.
Qed.

Lemma players_leave_by_kick_or_lobby_disconnect_witness :
  (exists s, Disconnect "a" = KickPlayer s "a") \/
  (Disconnect "a" = Disconnect "a" /\
   phase (game (run initWorld [JoinGame "a" "Ann"])) = Lobby).
Proof.
  apply (players_leave_by_kick_or_lobby_disconnect
           (run initWorld [JoinGame "a" "Ann"]) (Disconnect "a") "a"
           (mkPlayer "a" "Ann" 0 true false false None)).
  - vm_compute. reflexivity.
  - vm_compute. reflexivity.
Defined.

(** ** Not-alive is final within a match *)

Lemma inMatch_admissible e : inMatch e -> admissible e.
Proof. destruct e; simpl; auto. Qed.

Lemma dead_step w e sid :
  reachable w -> inMatch e ->
  (forall p, pget sid (players (game w)) = Some p -> alive p = false) ->
  forall p', pget sid (players (game (step w e))) = Some p' -> alive p' = false.
Proof.
  intros Hr He Hd p' G'.
  destruct (pget sid (players (game w))) as [p|] eqn:G.
  - specialize (Hd p eq_refl).
    pose proof (step_playerStep w e sid p p'
                  (inv_nodup _ (reachable_Inv _ Hr)) G G') as PS.
    inversion PS; subst; simpl in He; try tauto; simpl; auto; try congruence.
    + rewrite sweepPlayer_alive, Hd. reflexivity.
    + match goal with R : tickRel _ _ _ |- _ => apply tickRel_alive in R end.
      congruence.
  - destruct (entry_origin w e sid p' G G') as [nm [-> _]].
    destruct He.
Qed.

(** X17. Within a match a player that is not alive never becomes alive
    again: along any sequence of events without a join, a start or a
    reset, a registered player that is not alive is, whenever still
    registered afterwards, not alive. *)
Theorem dead_stays_dead w tr sid p :
  reachable w ->
  Forall inMatch tr ->
  pget sid (players (game w)) = Some p ->
  alive p = false ->
  forall p', pget sid (players (game (run w tr))) = Some p' -> alive p' = false.
Proof.
  intros Hr Htr G D.
  assert (Hd : forall q, pget sid (players (game w)) = Some q -> alive q = false)
    by (intros q Gq; congruence).
  clear G D. revert w Hr Hd.
  induction Htr as [|e tr He Htr IH]; intros w Hr Hd p' G'; simpl in G'.
  - now apply Hd.
  - apply (IH (step w e)); auto.
    + apply reach_step; auto. now apply inMatch_admissible.
    + now apply dead_step.
Qed.

Lemma reachable_swept_a :
  reachable (step (run initWorld traceHeld) (TimerFires 4%nat clock)).
Proof. apply reach_step; [apply reachable_held | exact clock_positive]. Qed.

Lemma after_sweep_lookup :
  pget "a" (players (game (run (step (run initWorld traceHeld) (TimerFires 4%nat clock))
                               traceAfterSweep)))
  = Some (mkPlayer "a" "Ann" 0 false false true None).
Proof. vm_compute. reflexivity. Qed.

Lemma dead_stays_dead_witness :
  alive (mkPlayer "a" "Ann" 0 false false true None) = false.
Proof.
  apply (dead_stays_dead (step (run initWorld traceHeld) (TimerFires 4%nat clock))
           traceAfterSweep "a"
           (mkPlayer "a" "Ann" 0 false true true None) reachable_swept_a)
    with (p' := mkPlayer "a" "Ann" 0 false false true None).
  - unfold traceAfterSweep.
    repeat (apply Forall_cons; [first [exact I | exact clock_positive]|]).
    apply Forall_nil.
  - vm_compute. reflexivity.
  - reflexivity.
  - exact after_sweep_lookup.
Defined.

(** ** More invariants of the registry *)

Lemma okPlayer2_phase ph ph' p :
  okPlayer2 ph p ->
  (ph' <> GameOver -> ph <> GameOver) -> (ph' = Countdown -> ph = Countdown) ->
  okPlayer2 ph' p.
Proof. unfold okPlayer2. intuition. Qed.

Lemma nameOK_create nm : nm <> "" -> nameOK (substring 0 15 nm).
Proof.
  intros N. split.
  - now apply substring_0_nonempty.
  - rewrite length_substring_0. apply Nat.le_min_l.
Qed.

Lemma okPlayer2_create ph sid nm :
  nm <> "" -> ph = Lobby -> okPlayer2 ph (createPlayer sid nm).
Proof.
  intros N ->. unfold okPlayer2. simpl. repeat split; try discriminate.
  - now apply substring_0_nonempty.
  - rewrite length_substring_0. apply Nat.le_min_l.
  - congruence.
Qed.

Lemma okPlayer2_pristine ph ph' p : okPlayer2 ph p -> okPlayer2 ph' (pristine p).
Proof.
  unfold okPlayer2. simpl. intros (N & _). repeat split; try apply N; try discriminate.
  congruence.
Qed.

Lemma okPlayer2_holding ph p b :
  okPlayer2 ph p -> (ph = Countdown -> b = false) -> okPlayer2 ph (set_holding b p).
Proof.
  unfold okPlayer2. simpl. intros (N & E & F & P & C) Hb.
  repeat split; try apply N; auto; try (apply C; assumption).
Qed.

Lemma okPlayer2_strike ph p :
  ph <> Countdown -> okPlayer2 ph p -> okPlayer2 ph (strike p).
Proof.
  unfold okPlayer2. simpl. intros Nc (N & E & F & P & C).
  repeat split; try apply N; auto; contradiction.
Qed.

Lemma okPlayer2_sweep ph p :
  ph <> Countdown -> okPlayer2 ph p -> okPlayer2 ph (sweepPlayer p).
Proof.
  intros Nc H. unfold sweepPlayer. destruct (alive p && holding p); auto.
  now apply okPlayer2_strike.
Qed.

Lemma okPlayer2_forfeit ph p : okPlayer2 ph p -> okPlayer2 ph (forfeit p).
Proof.
  unfold okPlayer2. simpl. intros (N & E & F & P & C).
  repeat split; try apply N; auto; try (apply C; assumption).
Qed.

Lemma crosses_progress p : crosses p = true -> progress (advanced p) = progressToWin.
Proof.
  unfold crosses. rewrite Qle_bool_iff. simpl.
  unfold Qmin, GenericMinMax.gmin.
  destruct (progressToWin ?= progress p + progressRate)%Q eqn:C; auto.
  intros H. apply Qgt_alt in C. exfalso. apply (Qlt_irrefl progressToWin).
  eapply Qle_lt_trans; eauto.
Qed.

Lemma not_crosses_progress p :
  crosses p = false -> (progress (advanced p) < progressToWin)%Q.
Proof.
  unfold crosses. intros H. apply Qnot_le_lt. intros F.
  apply Qle_bool_iff in F. congruence.
Qed.

Lemma okPlayer2_tick now k p kp' :
  okPlayer Playing k p -> okPlayer2 Playing p -> tickRel now (k, p) kp' ->
  okPlayer2 GameOver (snd kp') /\
  (eligible p && crosses p = false -> okPlayer2 Playing (snd kp')).
Proof.
  intros (_ & _ & _ & _ & Hf) (N & E & F & P & C) [_ R]. simpl in R.
  specialize (Hf ltac:(discriminate)).
  unfold okPlayer2.
  destruct (eligible p); [destruct (crosses p) eqn:Cr|].
  - destruct R as [j ->]. simpl. split; [|discriminate].
    repeat split; try apply N; auto; try discriminate.
    + intros _. now apply crosses_progress.
    + intros G. now elim G.
  - rewrite R. simpl. rewrite Hf.
    split; intros; repeat split; try apply N; auto; try discriminate;
      try congruence; intros; try congruence.
    now apply not_crosses_progress.
  - rewrite R. split; intros; repeat split; try apply N; auto; try discriminate;
      intros; try congruence.
Qed.

Lemma Inv2_init : Inv2 initWorld.
Proof. intros k p []. Qed.

Lemma Inv2_set_players g pi ts nh ps' :
  every (fun _ p => okPlayer2 (phase g) p) ps' ->
  Inv2 (mkWorld (set_players ps' g) pi ts nh).
Proof. auto. Qed.

Lemma Inv2_endGame winner g pi ts nh :
  every (fun _ p => okPlayer2 GameOver p) (players g) ->
  Inv2 (execM (endGame winner) (mkWorld g pi ts nh)).
Proof. intros H. unfold execM. rewrite endGame_eq. exact H. Qed.

Lemma Inv2_weaken ph ph' ps :
  (ph' <> GameOver -> ph <> GameOver) -> (ph' = Countdown -> ph = Countdown) ->
  every (fun _ p => okPlayer2 ph p) ps -> every (fun _ p => okPlayer2 ph' p) ps.
Proof.
  intros A B. apply every_weaken. intros k p H. eapply okPlayer2_phase; eauto.
Qed.

Lemma Inv2_step w e : Inv w -> Inv2 w -> admissible e -> Inv2 (step w e).
Proof.
  destruct w as [g pi ts nh]. intros Hinv H A. unfold Inv2 in H. simpl in H.
  unfold step. destruct e as [s|s nm|s|s|s|s|s k|s|h now]; simpl handle.
  - exact H.
  - unfold execM. rewrite onJoinGame_eq.
    destruct (Phase_eqb (phase g) Lobby) eqn:Eph; [|exact H]. simpl.
    destruct (String.length (trim nm) =? 0)%nat eqn:L; [exact H|].
    apply Inv2_set_players. apply every_pset; auto.
    apply okPlayer2_create.
    + intros F. apply length_zero_iff in F. congruence.
    + now apply Phase_eqb_eq.
  - unfold execM. rewrite onHoldStart_eq.
    destruct (pget s (players g)) as [pl|] eqn:G; [|exact H].
    destruct (alive pl); [|exact H]. simpl.
    destruct (Phase_eqb (phase g) Playing) eqn:Eph; [|exact H]. simpl.
    apply Phase_eqb_eq in Eph.
    assert (Hok : okPlayer2 (phase g) (set_holding true pl)).
    { apply okPlayer2_holding; [|rewrite Eph; discriminate].
      apply (H s). now apply pget_In. }
    destruct (_ && _); apply Inv2_set_players; apply every_pset; auto.
    apply okPlayer2_strike; auto. rewrite Eph. discriminate.
  - unfold execM. rewrite onHoldEnd_eq.
    destruct (pget s (players g)) as [pl|] eqn:G; [|exact H].
    apply Inv2_set_players. apply every_pset; auto.
    apply okPlayer2_holding; auto. apply (H s). now apply pget_In.
  - unfold execM. rewrite onStartGame_eq.
    destruct (_ || _); [|exact H].
    assert (Hpr : forall ph,
              every (fun _ p => okPlayer2 ph p) (forEach pristine (players g))).
    { intros ph. eapply every_forEach; [|exact H]. intros k p.
      apply okPlayer2_pristine. }
    rewrite startGame_eq. destruct (_ <? _)%nat; simpl; apply Hpr.
  - unfold execM, onResetGame. rewrite resetGame_eq.
    unfold Inv2. simpl. eapply every_forEach; [|exact H]. intros k p.
    apply okPlayer2_pristine.
  - unfold execM. rewrite onKickPlayer_eq. apply Inv2_set_players.
    now apply every_pdelete.
  - unfold execM. rewrite onDisconnect_eq.
    destruct (pget s (players g)) as [pl|] eqn:G; [|exact H].
    destruct (Phase_eqb _ _); apply Inv2_set_players.
    + now apply every_pdelete.
    + apply every_pset; auto. apply okPlayer2_forfeit. apply (H s). now apply pget_In.
  - simpl in A. unfold execM. rewrite fire_eq.
    destruct (tget h ts) as [[| | | |count]|] eqn:T; [| | | | |exact H].
    + rewrite progressTick_eq.
      destruct (Phase_eqb (phase g) Playing) eqn:Eph; [|exact H].
      destruct (Light_eqb (light g) Green) eqn:El; [|exact H]. simpl.
      apply Phase_eqb_eq in Eph.
      pose proof (tickPlayers_rel now (players g) 0%nat) as HR.
      assert (Hgo : every (fun _ p => okPlayer2 GameOver p) (players (ticked now g))).
      { intros k p' I. simpl in I.
        destruct (Forall2_In_r _ _ _ _ HR I) as [[k0 p] [I0 R]].
        pose proof (inv_players _ Hinv k0 p I0) as Ok. simpl in Ok. rewrite Eph in Ok.
        pose proof (H k0 p I0) as Ok2. rewrite Eph in Ok2.
        destruct (okPlayer2_tick now k0 p (k, p') Ok Ok2 R) as [Gd _]. exact Gd. }
      destruct (someoneFinished now g) eqn:F; cbn [fst snd].
      * unfold execM. rewrite checkForWinner_eq. simpl game.
        destruct (sortByFinish _) as [|first rest] eqn:Es.
        { apply sortByFinish_nil in Es. exfalso. revert Es. now apply tick_finisher. }
        now apply (Inv2_endGame (Some first)).
      * apply Inv2_set_players. rewrite Eph. intros k p' I.
        destruct (Forall2_In_r _ _ _ _ HR I) as [[k0 p] [I0 R]].
        pose proof (inv_players _ Hinv k0 p I0) as Ok. simpl in Ok. rewrite Eph in Ok.
        pose proof (H k0 p I0) as Ok2. rewrite Eph in Ok2.
        destruct (okPlayer2_tick now k0 p (k, p') Ok Ok2 R) as [_ Gd].
        apply Gd. unfold someoneFinished in F. rewrite tickPlayers_flag in F.
        destruct (eligible p && crosses p) eqn:EC; auto.
        assert (existsb (fun kp => eligible (snd kp) && crosses (snd kp)) (players g)
                = true).
        { apply existsb_exists. exists (k0, p). auto. }
        congruence.
    + rewrite switchToRed_eq. destruct (negb _); exact H.
    + rewrite eliminateHolders_eq.
      destruct (Phase_eqb (phase g) Playing) eqn:Eph; [|exact H].
      destruct (Light_eqb (light g) Red) eqn:El; [|exact H]. simpl.
      apply Phase_eqb_eq in Eph.
      assert (Hsw : every (fun _ p => okPlayer2 Playing p) (players (swept g))).
      { rewrite Eph in H. eapply every_forEach; [|exact H]. intros k p.
        apply okPlayer2_sweep. discriminate. }
      assert (Hgo : every (fun _ p => okPlayer2 GameOver p) (players (swept g))).
      { eapply Inv2_weaken; [| |exact Hsw]; [intros N; now elim N|discriminate]. }
      destruct (getAlivePlayers (swept g)) as [|x [|y r]]; cbn [fst snd].
      * now apply (Inv2_endGame None).
      * now apply (Inv2_endGame (Some x)).
      * unfold Inv2. simpl. rewrite Eph. exact Hsw.
    + rewrite switchToGreen_eq. destruct (negb _); exact H.
    + rewrite countdownTick_eq. destruct (0 <? count - 1); [exact H|].
      unfold Inv2. simpl.
      apply tget_In in T. destruct (inv_countdown _ Hinv _ _ T) as [Eph _].
      simpl in Eph. rewrite Eph in H.
      eapply Inv2_weaken; [| |exact H]; discriminate.
Qed.

Lemma reachable_Inv2 w : reachable w -> Inv2 w.
Proof.
  induction 1 as [|w e Hr IH A]; [apply Inv2_init|].
  apply Inv2_step; auto. now apply reachable_Inv.
Qed.

(** X18. On every run every registered player has a name that is not
    empty and has at most 15 code units. *)
Theorem names_are_short_and_not_empty w k p :
  reachable w ->
  In (k, p) (players (game w)) ->
  name p <> "" /\ (String.length (name p) <= 15)%nat.
Proof.
  intros Hr I. destruct (reachable_Inv2 _ Hr k p I) as (N & _). exact N.
Qed.

Lemma names_are_short_and_not_empty_witness :
  "Bob" <> "" /\ (String.length "Bob" <= 15)%nat.
Proof.
  apply (names_are_short_and_not_empty (run initWorld traceStarted) "b"
           (mkPlayer "b" "Bob" 0 true false false None) reachable_started).
  vm_compute. right. left. reflexivity.
Defined.

Lemma pget_of_In k p m : NoDup (keys m) -> In (k, p) m -> pget k m = Some p.
Proof.
  induction m as [|[k2 q] r IH]; simpl; [tauto|].
  intros Hn. inversion Hn as [|? ? Hnin Hnd]; subst.
  intros [E|I].
  - injection E as -> ->. now rewrite String.eqb_refl.
  - destruct (String.eqb k k2) eqn:E; auto.
    apply String.eqb_eq in E. subst k2. exfalso. apply Hnin.
    unfold keys. apply in_map_iff. exists (k, p). auto.
Qed.

(** X19. On every run the registry holds each socket id at most once and
    files every player under the player's own id, so a message sent to
    [player.id] goes to the socket that registered the player. *)
Theorem registry_keys_are_ids w :
  reachable w ->
  NoDup (keys (players (game w))) /\
  (forall k p, In (k, p) (players (game w)) ->
               id p = k /\ pget k (players (game w)) = Some p).
Proof.
  intros Hr. pose proof (reachable_Inv _ Hr) as Hinv.
  split; [apply Hinv|].
  intros k p I. split.
  - apply (inv_players _ Hinv k p I).
  - apply pget_of_In; auto. apply Hinv.
Qed.

Lemma registry_keys_are_ids_witness :
  NoDup (keys (players (game (run initWorld traceStarted)))).
Proof. apply (registry_keys_are_ids _ reachable_started). Defined.

(** X20. On every run a player marked eliminated is not alive. *)
Theorem eliminated_players_are_not_alive w k p :
  reachable w ->
  In (k, p) (players (game w)) ->
  eliminated p = true -> alive p = false.
Proof.
  intros Hr I. destruct (reachable_Inv2 _ Hr k p I) as (_ & E & _). exact E.
Qed.

Lemma eliminated_players_are_not_alive_witness :
  alive (mkPlayer "a" "Ann" 0 false true true None) = false.
Proof.
  apply (eliminated_players_are_not_alive _ "a" _ reachable_swept_a).
  - vm_compute. left. reflexivity.
  - reflexivity.
Defined.

(** X21. On every run a player with a non-null [finishedAt] stands exactly
    at [progressToWin] and the phase is game over; until game over every
    registered player is strictly below the threshold and has a null
    [finishedAt]. *)
Theorem threshold_reached_only_at_game_over w k p :
  reachable w ->
  In (k, p) (players (game w)) ->
  (finishedAt p <> None ->
   progress p = progressToWin /\ phase (game w) = GameOver) /\
  (phase (game w) <> GameOver ->
   (progress p < progressToWin)%Q /\ finishedAt p = None).
Proof.
  intros Hr I.
  destruct (reachable_Inv2 _ Hr k p I) as (_ & _ & F & P & _).
  destruct (inv_players _ (reachable_Inv _ Hr) k p I) as (_ & _ & _ & _ & U).
  split.
  - intros N. split; auto.
    destruct (phase (game w)) eqn:E; auto; exfalso; apply N, U; discriminate.
  - intros N. auto.
Qed.

Lemma threshold_reached_only_at_game_over_witness :
  (progress almostB < progressToWin)%Q /\ finishedAt almostB = None.
Proof.
  destruct almost_state as (H1 & _ & _ & H4 & _).
  destruct (threshold_reached_only_at_game_over _ "b" almostB reachable_almost H4)
    as [_ H].
  apply H. rewrite H1. discriminate.
Defined.

(** X22. On every run, in the lobby and during the countdown every
    registered player has progress 0, is not holding, is not marked
    eliminated and has a null [finishedAt]; in the lobby every player is
    also alive.  So nobody is recorded as holding when play begins: a
    grab made before the light first turns green does not count. *)
Theorem nobody_holds_before_play w k p :
  reachable w ->
  phase (game w) = Lobby \/ phase (game w) = Countdown ->
  In (k, p) (players (game w)) ->
  progress p = 0%Q /\ holding p = false /\ eliminated p = false /\
  finishedAt p = None /\ (phase (game w) = Lobby -> alive p = true).
Proof.
  intros Hr Hph I.
  destruct (reachable_Inv2 _ Hr k p I) as (_ & _ & _ & _ & C).
  destruct (inv_players _ (reachable_Inv _ Hr) k p I) as (_ & _ & _ & L & _).
  destruct Hph as [E|E].
  - destruct (L E) as (P1 & P2 & P3 & P4 & P5). auto.
  - destruct (C E) as (P1 & P3 & P4). repeat split; auto.
    + destruct (inv_players _ (reachable_Inv _ Hr) k p I) as (_ & _ & _ & _ & U).
      apply U. rewrite E. discriminate.
    + intros F. congruence.
Qed.

(** A grab sent during the countdown. *)
Lemma reachable_countdown_grab :
  reachable (run initWorld [JoinGame "a" "Ann"; StartGame "tv"; HoldStart "a"]).
Proof. apply run_reachable; [apply reach_init|]. admissible_trace. Qed.

Lemma nobody_holds_before_play_witness :
  holding (mkPlayer "a" "Ann" 0 true false false None) = false.
Proof.
  apply (nobody_holds_before_play _ "a" _ reachable_countdown_grab).
  - right. vm_compute. reflexivity.
  - vm_compute. left. reflexivity.
Defined.

(** ** Who is sent what *)

Lemma routed_phoneMsgs g : Forall wellRouted (phoneMsgs g).
Proof.
  unfold phoneMsgs. apply Forall_forall. intros x I.
  apply in_map_iff in I. destruct I as [p [<- _]]. reflexivity.
Qed.

Lemma routed_allMsgs g : Forall wellRouted (allMsgs g).
Proof. constructor; [reflexivity | apply routed_phoneMsgs]. Qed.

Lemma routed_batchMsgs g : Forall wellRouted (batchMsgs g).
Proof.
  unfold batchMsgs. destruct (negb _); [|constructor].
  constructor; [reflexivity|].
  apply Forall_forall. intros x I. apply in_map_iff in I.
  destruct I as [e [<- _]]. reflexivity.
Qed.

Lemma routed_countdownMsgs n g : Forall wellRouted (countdownMsgs n g).
Proof.
  constructor; [reflexivity|].
  apply Forall_forall. intros x I. apply in_map_iff in I.
  destruct I as [e [<- _]]. reflexivity.
Qed.

Lemma routed_endGame winner w : Forall wellRouted (outM (endGame winner) w).
Proof.
  destruct w. unfold outM. rewrite endGame_eq. simpl.
  constructor; [reflexivity | apply routed_phoneMsgs].
Qed.

Lemma routed_checkForWinner w : Forall wellRouted (outM checkForWinner w).
Proof.
  unfold outM. rewrite checkForWinner_eq.
  destruct (sortByFinish _); [constructor|]. apply (routed_endGame (Some p)).
Qed.

Create HintDb routing.

#[local] Hint Resolve routed_phoneMsgs routed_allMsgs routed_batchMsgs
  routed_countdownMsgs routed_endGame routed_checkForWinner : routing.

Ltac routed :=
  repeat first
    [ solve [auto with routing]
    | apply Forall_nil
    | apply Forall_app; split
    | apply Forall_cons; [reflexivity|] ].

(** Every handler emits display-facing messages through [io.to("tv")] and
    player-facing messages to socket ids. *)
Lemma output_wellRouted w e : Forall wellRouted (output w e).
Proof.
  destruct w as [g pi ts nh]. unfold output, outM.
  destruct e as [s|s nm|s|s|s|s|s k|s|h now]; simpl handle.
  - cbn [fst snd]. routed.
  - rewrite onJoinGame_eq. destruct (negb _); [cbn [fst snd]; routed|].
    destruct (_ =? _)%nat; cbn [fst snd]; routed.
  - rewrite onHoldStart_eq. destruct (pget s (players g)); [|cbn [fst snd]; routed].
    destruct (_ || _); [cbn [fst snd]; routed|]. destruct (_ && _); cbn [fst snd]; routed.
  - rewrite onHoldEnd_eq. destruct (pget s (players g)); cbn [fst snd]; routed.
  - rewrite onStartGame_eq. destruct (_ || _); [|cbn [fst snd]; routed].
    rewrite startGame_eq. destruct (_ <? _)%nat; cbn [fst snd]; routed.
  - unfold onResetGame. rewrite resetGame_eq. cbn [fst snd]. routed.
  - rewrite onKickPlayer_eq. cbn [fst snd]. routed.
  - rewrite onDisconnect_eq. destruct (pget s (players g)); [|cbn [fst snd]; routed].
    cbn [fst snd]. routed.
  - rewrite fire_eq. destruct (tget h ts) as [[| | | |count]|].
    + rewrite progressTick_eq. destruct (_ || _); [cbn [fst snd]; routed|].
      destruct (someoneFinished now g); cbn [fst snd]; routed.
    + rewrite switchToRed_eq. destruct (negb _); cbn [fst snd]; routed.
    + rewrite eliminateHolders_eq. destruct (_ || _); [cbn [fst snd]; routed|].
      destruct (getAlivePlayers (swept g)) as [|x [|y r]]; cbn [fst snd]; routed.
    + rewrite switchToGreen_eq. destruct (negb _); cbn [fst snd]; routed.
    + rewrite countdownTick_eq. destruct (0 <? count - 1); cbn [fst snd]; routed.
    + cbn [fst snd]. routed.
Qed.

(** X23. Which kind of message is emitted to which room.  The messages
    that carry the roster or other players' data ([gameState],
    [eliminations], [playerJoined], [gameOver]) are emitted through
    [io.to("tv")] only, and a room with any other name gets only
    [playerState], [eliminated], [countdown], [joinError], [joined] or
    [kicked].  The room "tv" gets the display-facing messages, but it is
    not closed to the others: what is emitted to a socket id that reads
    "tv" lands there too, and [kickPlayer], which emits [kicked] to
    whatever id it is given, sends it to the room "tv" when given "tv".
    This is about rooms, not about who listens: [joinTV] lets any socket
    enter the room "tv". *)
Theorem rooms_and_message_kinds w e :
  Forall routedByName (output w e) /\
  (forall s,
     In (Sock "tv", MsgKicked) (output w (KickPlayer s "tv")) /\
     roomName (Sock "tv") = roomName TV /\
     displayFacing MsgKicked = false).
Proof.
  split.
  - apply (Forall_impl _ (P := wellRouted)); [|apply output_wellRouted].
    intros [r m]. unfold wellRouted, routedByName. simpl.
    destruct r as [|s]; intros H; (split; [|split]).
    + reflexivity.
    + intros N. now destruct N.
    + intros _. now left.
    + intros F. rewrite H in F. discriminate.
    + intros _. exact H.
    + intros E. simpl in E. subst s. now right.
  - intros s. destruct w as [g pi ts nh]. unfold output, outM. simpl handle.
    rewrite onKickPlayer_eq. cbn [fst snd]. repeat split. now left.
Qed.

Lemma own_phoneMsgs ps g : players g = ps -> Forall (showsOwnState ps) (phoneMsgs g).
Proof.
  intros <-. unfold phoneMsgs. apply Forall_forall. intros x I.
  apply in_map_iff in I. destruct I as [p [<- I]].
  intros s ph l pr al ho [= <- _ _ <- <- <-]. exists p. auto.
Qed.

Lemma own_allMsgs ps g : players g = ps -> Forall (showsOwnState ps) (allMsgs g).
Proof.
  intros E. constructor; [|now apply own_phoneMsgs].
  intros s ph l pr al ho F. discriminate F.
Qed.

Lemma own_batchMsgs ps g : Forall (showsOwnState ps) (batchMsgs g).
Proof.
  unfold batchMsgs. destruct (negb _); [|constructor].
  constructor; [intros s ph l pr al ho F; discriminate F|].
  apply Forall_forall. intros x I. apply in_map_iff in I.
  destruct I as [e [<- _]]. intros s ph l pr al ho F. discriminate F.
Qed.

Lemma own_countdownMsgs ps n g : Forall (showsOwnState ps) (countdownMsgs n g).
Proof.
  constructor; [intros s ph l pr al ho F; discriminate F|].
  apply Forall_forall. intros x I. apply in_map_iff in I.
  destruct I as [e [<- _]]. intros s ph l pr al ho F. discriminate F.
Qed.

Lemma own_endGame ps winner w :
  players (game w) = ps -> Forall (showsOwnState ps) (outM (endGame winner) w).
Proof.
  destruct w. simpl. intros E. unfold outM. rewrite endGame_eq. simpl.
  constructor; [intros s ph l pr al ho F; discriminate F|].
  now apply own_phoneMsgs.
Qed.

Ltac own_state :=
  repeat first
    [ apply Forall_nil
    | apply own_allMsgs; reflexivity
    | apply own_phoneMsgs; reflexivity
    | apply own_batchMsgs
    | apply own_countdownMsgs
    | apply own_endGame; reflexivity
    | apply Forall_app; split
    | apply Forall_cons;
      [let F := fresh in intros ? ? ? ? ? ? F; discriminate F|] ].

Lemma output_shows_own_state w e :
  Forall (showsOwnState (players (game (step w e)))) (output w e).
Proof.
  destruct w as [g pi ts nh]. unfold step, output, execM, outM.
  destruct e as [s|s nm|s|s|s|s|s k|s|h now]; simpl handle.
  - cbn [fst snd]. own_state.
  - rewrite onJoinGame_eq. destruct (negb _); [cbn [fst snd]; own_state|].
    destruct (_ =? _)%nat; cbn [fst snd]; own_state.
  - rewrite onHoldStart_eq. destruct (pget s (players g)); [|cbn [fst snd]; own_state].
    destruct (_ || _); [cbn [fst snd]; own_state|].
    destruct (_ && _); cbn [fst snd]; own_state.
  - rewrite onHoldEnd_eq. destruct (pget s (players g)); cbn [fst snd]; own_state.
  - rewrite onStartGame_eq. destruct (_ || _); [|cbn [fst snd]; own_state].
    rewrite startGame_eq. destruct (_ <? _)%nat; cbn [fst snd]; own_state.
  - unfold onResetGame. rewrite resetGame_eq. cbn [fst snd]. own_state.
  - rewrite onKickPlayer_eq. cbn [fst snd]. own_state.
  - rewrite onDisconnect_eq. destruct (pget s (players g)); [|cbn [fst snd]; own_state].
    cbn [fst snd]. own_state.
  - rewrite fire_eq. destruct (tget h ts) as [[| | | |count]|].
    + rewrite progressTick_eq. destruct (_ || _); [cbn [fst snd]; own_state|].
      destruct (someoneFinished now g); cbn [fst snd]; [|own_state].
      rewrite players_checkForWinner. apply Forall_app. split; [own_state|].
      unfold outM. rewrite checkForWinner_eq.
      destruct (sortByFinish _); [constructor|].
      apply (own_endGame _ (Some p)). reflexivity.
    + rewrite switchToRed_eq. destruct (negb _); cbn [fst snd]; own_state.
    + rewrite eliminateHolders_eq. destruct (_ || _); [cbn [fst snd]; own_state|].
      destruct (getAlivePlayers (swept g)) as [|x [|y r]]; cbn [fst snd];
        rewrite ?players_endGame; own_state.
    + rewrite switchToGreen_eq. destruct (negb _); cbn [fst snd]; own_state.
    + rewrite countdownTick_eq. destruct (0 <? count - 1); cbn [fst snd]; own_state.
    + cbn [fst snd]. own_state.
Qed.

(** X24. On every run a [playerState] message is sent only to the socket
    of a player registered when the handler returns, and it carries the
    progress, alive and holding flags that this very player then has:
    nobody is shown another player's state or a stale one. *)
Theorem player_state_is_own_and_current w e s ph l pr al ho :
  reachable w -> admissible e ->
  In (Sock s, MsgPlayerState ph l pr al ho) (output w e) ->
  exists p,
    pget s (players (game (step w e))) = Some p /\
    pr = progress p /\ al = alive p /\ ho = holding p.
Proof.
  intros Hr Ha I.
  pose proof (output_shows_own_state w e) as H.
  rewrite Forall_forall in H.
  destruct (H _ I s ph l pr al ho eq_refl) as [p [Ip [Hid [E1 [E2 E3]]]]].
  exists p. repeat split; auto.
  unfold values in Ip. apply in_map_iff in Ip. destruct Ip as [[k q] [Eq Iq]].
  simpl in Eq. subst q.
  assert (Hr' : reachable (step w e)) by now apply reach_step.
  pose proof (reachable_Inv _ Hr') as Hinv'.
  destruct (inv_players _ Hinv' k p Iq) as (Hid' & _).
  rewrite <- Hid, Hid'. apply pget_of_In; auto. apply Hinv'.
Qed.

Lemma player_state_is_own_and_current_witness :
  exists p,
    pget "b" (players (game (step (run initWorld traceStarted) (TimerFires 2%nat clock))))
    = Some p /\
    0%Q = progress p /\ true = alive p /\ false = holding p.
Proof.
  apply (player_state_is_own_and_current (run initWorld traceStarted)
           (TimerFires 2%nat clock) "b" Playing Green 0%Q true false
           reachable_started clock_positive).
  vm_compute. right. right. left. reflexivity.
Defined.

(** ** The game-over announcement *)









Lemma gameOver_announced w e :
  phase (game w) = Playing -> phase (game (step w e)) = GameOver ->
  announcesGameOver (output w e).
Proof.
  intros Eph Eg.
  destruct (phase_step_gameOver w e Eph Eg) as [h [now [-> T]]].
  destruct w as [g pi ts nh]. simpl in *.
  unfold step, output, execM, outM in *. simpl handle in *.
  rewrite fire_eq in *. destruct T as [T|T]; rewrite T in *.
  - rewrite eliminateHolders_eq in *. rewrite Eph in *.
    destruct (Light_eqb (light g) Red); simpl negb in *; simpl orb in *; cbv iota in *;
      [|simpl in Eg; congruence].
    destruct (getAlivePlayers (swept g)) as [|x [|y r]]; cbn [fst snd] in *.
    + unfold outM. rewrite endGame_eq. cbn [fst snd]. red. do 2 eexists.
      apply in_or_app. right. apply in_or_app. right. left. reflexivity.
    + unfold outM. rewrite endGame_eq. cbn [fst snd]. red. do 2 eexists.
      apply in_or_app. right. apply in_or_app. right. left. reflexivity.
    + simpl in Eg. congruence.
  - rewrite progressTick_eq in *. rewrite Eph in *.
    destruct (Light_eqb (light g) Green); simpl negb in *; simpl orb in *; cbv iota in *;
      [|simpl in Eg; congruence].
    destruct (someoneFinished now g); cbn [fst snd] in *; [|simpl in Eg; congruence].
    unfold execM, outM in *. rewrite checkForWinner_eq in *. simpl game in *.
    destruct (sortByFinish _) as [|first rest]; [simpl in Eg; congruence|].
    rewrite endGame_eq. cbn [fst snd]. red. do 2 eexists.
    apply in_or_app. right. left. reflexivity.
Qed.




(** ** The state machine of the phases *)

(** X26. On every run the phase moves only along these edges: lobby or
    game over to countdown (an accepted start), countdown to playing (the
    countdown interval), playing to game over (the grace check or the
    progress interval), and anything to lobby (reset).  Every other event
    leaves the phase as it is. *)
Theorem phase_transitions w e :
  reachable w ->
  phase (game (step w e)) = phase (game w) \/
  (exists s, e = StartGame s /\
             (phase (game w) = Lobby \/ phase (game w) = GameOver) /\
             phase (game (step w e)) = Countdown) \/
  (exists h now c, e = TimerFires h now /\ tget h (timers w) = Some (CbCountdown c) /\
                   phase (game w) = Countdown /\ phase (game (step w e)) = Playing) \/
  (exists h now, e = TimerFires h now /\
                 (tget h (timers w) = Some CbEliminateHolders \/
                  tget h (timers w) = Some CbProgress) /\
                 phase (game w) = Playing /\ phase (game (step w e)) = GameOver) \/
  (exists s, e = ResetGame s /\ phase (game (step w e)) = Lobby).
Proof.
  intros Hr. pose proof (reachable_Inv _ Hr) as Hinv.
  destruct w as [g pi ts nh]. unfold step, execM.
  destruct e as [s|s nm|s|s|s|s|s k|s|h now]; simpl handle.
  - left. reflexivity.
  - left. rewrite onJoinGame_eq. destruct (negb _); [reflexivity|].
    destruct (_ =? _)%nat; reflexivity.
  - left. rewrite onHoldStart_eq. destruct (pget s (players g)); [|reflexivity].
    destruct (_ || _); [reflexivity|]. destruct (_ && _); reflexivity.
  - left. rewrite onHoldEnd_eq. destruct (pget s (players g)); reflexivity.
  - rewrite onStartGame_eq.
    destruct (Phase_eqb (phase g) Lobby || Phase_eqb (phase g) GameOver) eqn:E;
      [|left; reflexivity].
    rewrite startGame_eq. destruct (_ <? _)%nat; [left; reflexivity|].
    right. left. exists s. repeat split; auto. simpl.
    apply orb_true_iff in E. destruct E as [E|E]; apply Phase_eqb_eq in E; auto.
  - right. right. right. right. exists s. unfold onResetGame. rewrite resetGame_eq. auto.
  - left. reflexivity.
  - left. rewrite onDisconnect_eq. destruct (pget s (players g)); [|reflexivity].
    destruct (Phase_eqb _ _); reflexivity.
  - rewrite fire_eq. simpl timers. destruct (tget h ts) as [[| | | |count]|] eqn:T.
    + rewrite progressTick_eq.
      destruct (Phase_eqb (phase g) Playing) eqn:Eph; [|left; reflexivity].
      destruct (Light_eqb (light g) Green); [|left; reflexivity].
      apply Phase_eqb_eq in Eph. simpl negb. simpl orb. cbv iota.
      destruct (someoneFinished now g); [|left; reflexivity]. cbn [fst snd].
      unfold execM. rewrite checkForWinner_eq.
      destruct (sortByFinish _); [left; reflexivity|].
      right. right. right. left. exists h, now. repeat split; auto.
      rewrite endGame_eq. reflexivity.
    + left. rewrite switchToRed_eq. destruct (negb _); reflexivity.
    + rewrite eliminateHolders_eq.
      destruct (Phase_eqb (phase g) Playing) eqn:Eph; [|left; reflexivity].
      destruct (Light_eqb (light g) Red); [|left; reflexivity].
      apply Phase_eqb_eq in Eph. simpl negb. simpl orb. cbv iota.
      destruct (getAlivePlayers (swept g)) as [|x [|y r]]; cbn [fst snd].
      * right. right. right. left. exists h, now. repeat split; auto.
        unfold execM. rewrite endGame_eq. reflexivity.
      * right. right. right. left. exists h, now. repeat split; auto.
        unfold execM. rewrite endGame_eq. reflexivity.
      * left. reflexivity.
    + left. rewrite switchToGreen_eq. destruct (negb _); reflexivity.
    + destruct (inv_countdown _ Hinv h count (tget_In _ _ _ T)) as [Eph _].
      simpl in Eph.
      rewrite countdownTick_eq. destruct (0 <? count - 1); [left; reflexivity|].
      right. right. left. exists h, now, count. repeat split; auto.
    + left. reflexivity.
Qed.

Lemma phase_transitions_witness :
  phase (game (step (run initWorld traceStarted) (ResetGame "tv")))
  = phase (game (run initWorld traceStarted)) \/
  (exists s, ResetGame "tv" = StartGame s /\
             (phase (game (run initWorld traceStarted)) = Lobby \/
              phase (game (run initWorld traceStarted)) = GameOver) /\
             phase (game (step (run initWorld traceStarted) (ResetGame "tv"))) = Countdown) \/
  (exists h now c, ResetGame "tv" = TimerFires h now /\
                   tget h (timers (run initWorld traceStarted)) = Some (CbCountdown c) /\
                   phase (game (run initWorld traceStarted)) = Countdown /\
                   phase (game (step (run initWorld traceStarted) (ResetGame "tv")))
                   = Playing) \/
  (exists h now, ResetGame "tv" = TimerFires h now /\
                 (tget h (timers (run initWorld traceStarted)) = Some CbEliminateHolders \/
                  tget h (timers (run initWorld traceStarted)) = Some CbProgress) /\
                 phase (game (run initWorld traceStarted)) = Playing /\
                 phase (game (step (run initWorld traceStarted) (ResetGame "tv")))
                 = GameOver) \/
  (exists s, ResetGame "tv" = ResetGame s /\
             phase (game (step (run initWorld traceStarted) (ResetGame "tv"))) = Lobby).
Proof.
  exact (phase_transitions (run initWorld traceStarted) (ResetGame "tv")
           reachable_started).
Defined.

(** ** The grace check with one player left *)

Lemma sweep_alive_le ps :
  (List.length (filter alive (values (forEach sweepPlayer ps)))
   <= List.length (filter alive (values ps)))%nat.
Proof.
  induction ps as [|[k p] r IH]; simpl; auto.
  rewrite sweepPlayer_alive.
  destruct (alive p); simpl; [destruct (holding p); simpl|]; lia.
Qed.

(** X27. The grace check never raises the number of alive players,
    whatever the state it fires in.  And when at most one player is alive
    as it fires in phase playing with the light red, it ends the match: a
    match that is down to one player, or was started by one player, is
    over at the next red light, with that player as winner if not caught
    holding. *)
Theorem grace_check_ends_a_solo_match w h now :
  let w' := step w (TimerFires h now) in
  (tget h (timers w) = Some CbEliminateHolders ->
   (List.length (getAlivePlayers (game w')) <= List.length (getAlivePlayers (game w)))%nat) /\
  (phase (game w) = Playing ->
   light (game w) = Red ->
   tget h (timers w) = Some CbEliminateHolders ->
   (List.length (getAlivePlayers (game w)) <= 1)%nat ->
   phase (game w') = GameOver /\
   announcesGameOver (output w (TimerFires h now))).
Proof.
  intros w'.
  assert (Hle : (List.length (getAlivePlayers (swept (game w)))
                 <= List.length (getAlivePlayers (game w)))%nat)
    by apply sweep_alive_le.
  split.
  - intros T. subst w'. destruct w as [g pi ts nh]. simpl in *.
    unfold step, execM. simpl handle. rewrite fire_eq, T.
    cbn [fst snd]. rewrite eliminateHolders_eq.
    destruct (negb (Phase_eqb (phase g) Playing) || negb (Light_eqb (light g) Red));
      [cbn [fst snd game]; auto|].
    destruct (getAlivePlayers (swept g)) as [|x [|y r]] eqn:A; cbn [fst snd].
    + unfold getAlivePlayers at 1. rewrite players_endGame. cbn [game].
      fold (getAlivePlayers (swept g)). rewrite A. exact Hle.
    + unfold getAlivePlayers at 1. rewrite players_endGame. cbn [game].
      fold (getAlivePlayers (swept g)). rewrite A. exact Hle.
    + unfold getAlivePlayers at 1. cbn [game players set_lightTimer].
      fold (getAlivePlayers (swept g)). rewrite A. exact Hle.
  - intros Eph El T L.
    assert (Eg : phase (game w') = GameOver).
    { subst w'. destruct w as [g pi ts nh]. simpl in *.
      unfold step, execM. simpl handle. rewrite fire_eq, T.
      rewrite eliminateHolders_eq, Eph, El. simpl negb. simpl orb. cbv iota.
      destruct (getAlivePlayers (swept g)) as [|x [|y r]] eqn:A; cbn [fst snd].
      - unfold execM. rewrite endGame_eq. auto.
      - unfold execM. rewrite endGame_eq. auto.
      - simpl in Hle. lia. }
    split; auto. now apply gameOver_announced.
Qed.

Lemma solo_state :
  phase (game (run initWorld traceSolo)) = Playing /\
  light (game (run initWorld traceSolo)) = Red /\
  tget 4%nat (timers (run initWorld traceSolo)) = Some CbEliminateHolders /\
  (List.length (getAlivePlayers (game (run initWorld traceSolo))) <= 1)%nat.
Proof. vm_compute. repeat split. apply le_n. Qed.

Lemma grace_check_ends_a_solo_match_witness :
  let w := run initWorld traceSolo in
  let w' := step w (TimerFires 4%nat clock) in
  (List.length (getAlivePlayers (game w')) <= List.length (getAlivePlayers (game w)))%nat /\
  phase (game w') = GameOver /\
  announcesGameOver (output w (TimerFires 4%nat clock)).
Proof.
  cbv zeta.
  destruct solo_state as (H1 & H2 & H3 & H4).
  pose proof (grace_check_ends_a_solo_match (run initWorld traceSolo) 4%nat clock) as H.
  cbv zeta in H. destruct H as [A B].
  split; [exact (A H3) | exact (B H1 H2 H3 H4)].
Defined.

(** ** The light cycle *)

(** X28. On every run a pending [switchToRed] or [switchToGreen] timeout
    finds its guard open and the light on the other colour: when it fires
    the phase is playing and stays so, the players are untouched, the
    light flips (green to red with the grace flag raised and the grace
    check armed; red to green with the flag lowered and the next
    [switchToRed] armed), and the table again holds the progress interval
    and that one new timer. *)
Theorem light_alternates w h now cb :
  reachable w ->
  tget h (timers w) = Some cb ->
  cb = CbSwitchToRed \/ cb = CbSwitchToGreen ->
  let w' := step w (TimerFires h now) in
  let next := match cb with CbSwitchToRed => CbEliminateHolders | _ => CbSwitchToRed end in
  phase (game w) = Playing /\
  light (game w) = (match cb with CbSwitchToRed => Green | _ => Red end) /\
  phase (game w') = Playing /\
  light (game w') = (match cb with CbSwitchToRed => Red | _ => Green end) /\
  eliminationPending (game w') = (match cb with CbSwitchToRed => true | _ => false end) /\
  players (game w') = players (game w) /\
  exists hp, progressInterval w' = Some hp /\
             timers w' = [(hp, CbProgress); (nextHandle w, next)].
Proof.
  intros Hr T Hcb. pose proof (reachable_timersOK _ Hr) as Ok.
  destruct w as [g pi ts nh]. simpl in *.
  assert (Eph : phase g = Playing).
  { unfold timersOK in Ok. simpl in Ok. destruct (phase g); auto;
      try (destruct Ok as [-> _]; discriminate).
    destruct Ok as [_ (h0 & c & -> & _)]. simpl in T.
    destruct (Nat.eqb h h0); [|discriminate].
    destruct Hcb; subst cb; discriminate. }
  destruct (timersOK_playing _ _ _ _ Ok Eph) as (hp & hl & cb' & -> & -> & Hlt & Hnh & L).
  simpl in T. destruct (Nat.eqb h hp) eqn:E1.
  { destruct Hcb; subst cb; discriminate. }
  destruct (Nat.eqb h hl) eqn:E2; [|discriminate].
  apply Nat.eqb_eq in E2. subst h. injection T as ->.
  unfold step, execM. simpl handle. rewrite fire_eq. simpl tget. rewrite E1, Nat.eqb_refl.
  destruct Hcb as [-> | ->].
  - destruct L as [(_ & El & _)|[(F & _)|(F & _)]]; try discriminate.
    rewrite tremove_second by auto. rewrite switchToRed_eq, Eph. simpl.
    repeat split; auto. exists hp. auto.
  - destruct L as [(F & _)|[(F & _)|(_ & El & _)]]; try discriminate.
    rewrite tremove_second by auto. rewrite switchToGreen_eq, Eph. simpl.
    repeat split; auto. exists hp. auto.
Qed.

Lemma light_alternates_witness :
  light (game (step (run initWorld traceStarted) (TimerFires 3%nat clock))) = Red.
Proof.
  assert (T : tget 3%nat (timers (run initWorld traceStarted)) = Some CbSwitchToRed)
    by (vm_compute; reflexivity).
  pose proof (light_alternates _ 3%nat clock _ reachable_started T (or_introl eq_refl))
    as H.
  cbv zeta in H. destruct H as (_ & _ & _ & H & _). exact H.
Defined.
